(** * telegram_media_downloader: a shallow embedding of [media_downloader.py]

    The module under study pages through the history of a chat, downloads
    the media of every message in batches, retries transient failures and
    writes a resumable checkpoint (the configuration file) between batches.

    Layout of this development:
    - [Py]      : Python values the code relies on (exceptions, strings, paths);
    - [Model]   : the data model (messages, configuration, file system, world),
                  the effect monad (state that survives an exception),
                  coroutines and the event loop that runs the tasks of
                  [asyncio.gather];
    - the functions of [media_downloader.py], in source order, inside a
      section that abstracts over the remote client and the helpers of
      [utils.file_management];
    - a small program logic (frame and trace lemmas), and its counterpart
      for coroutines that run among other tasks;
    - the properties. *)

From stdpp Require Import base option list gmap strings pretty.
From Stdlib Require Import ZArith Ascii String.
Local Open Scope string_scope.
Local Open Scope list_scope.
Local Open Scope Z_scope.

(* ===================================================================== *)
(** * Python values *)
(* ===================================================================== *)

Module Py.

(** The exception classes that the control flow of the module tells apart.
    [BadRequest] is pyrogram's [bad_request_400.BadRequest]; [OtherError]
    stands for any other subclass of [Exception]; [Interrupt] stands for
    an exception outside [Exception] ([asyncio.CancelledError],
    [KeyboardInterrupt], [SystemExit]), which no [except Exception]
    clause catches. *)
Inductive exn : Type :=
  | BadRequest
  | TypeError
  | KeyError
  | IndexError
  | ValueError
  | AttributeError
  | OSError
  | OtherError (detail : string)
  | Interrupt (name : string).

#[global] Instance exn_eq_dec : EqDecision exn.
Proof. solve_decision. Defined.

(** [isinstance(e, Exception)]. *)
Definition is_exception (e : exn) : bool :=
  match e with
  | Interrupt _ => false
  | _ => true
  end.

(** [str.replace(old, new)] for one-character arguments. *)
Fixpoint replace_char (old new : ascii) (s : string) : string :=
  match s with
  | EmptyString => EmptyString
  | String c r =>
      String (if Ascii.eqb c old then new else c) (replace_char old new r)
  end.

(** [s.endswith(suffix)]. *)
Definition endswith (s suffix : string) : bool :=
  let n := String.length s in
  let k := String.length suffix in
  if (k <=? n)%nat then String.eqb (substring (n - k) k s) suffix else false.

(** [s.split(sep)[-1]] for a one-character separator: the text after the
    last separator, or the whole string when there is none. *)
Fixpoint after_last (sep : ascii) (s cur : string) : string :=
  match s with
  | EmptyString => cur
  | String c r => if Ascii.eqb c sep then after_last sep r r else after_last sep r cur
  end.

Definition split_last (sep : ascii) (s : string) : string := after_last sep s s.

(** [os.path.join(a, b)] on a POSIX system. *)
Definition path_join (a b : string) : string :=
  if String.prefix "/" b then b
  else if String.eqb a "" then b
  else if endswith a "/" then a +:+ b
  else a +:+ "/" +:+ b.

(** The proper ancestors of a path, outermost first: its prefixes that
    end before a separator (the root is left out). *)
Fixpoint prefixes_before (sep : ascii) (pre s : string) : list string :=
  match s with
  | EmptyString => []
  | String c r =>
      (if Ascii.eqb c sep then [pre] else [])
        ++ prefixes_before sep (pre +:+ String c EmptyString) r
  end.

Definition ancestors (p : string) : list string :=
  filter (λ a, a ≠ "") (prefixes_before "/" "" p).

(** [str(n)] for a Python int. *)
Definition str (n : Z) : string := pretty n.

End Py.

Export Py.

(* ===================================================================== *)
(** * Data model *)
(* ===================================================================== *)

Module Model.

(** A media object attached to a message (pyrogram's [Audio], [Document],
    [Photo], [Video], [VideoNote], [Voice]): only the attributes the
    module reads.  [date] is the ISO text of the timestamp. *)
Record Media : Type := mkMedia {
  mime_type : option string;
  file_name : option string;
  date : option string
}.

(** A pyrogram message.  [m_media] is [message.media]; [m_attrs] answers
    [getattr(message, _type, None)] for the configured kind names. *)
Record Message : Type := mkMessage {
  m_id : Z;
  m_chat_id : Z;
  m_media : option string;
  m_attrs : gmap string Media
}.

(** The configuration dictionary: the fields the orchestration reads or
    writes (credentials and proxy are only handed to the client). *)
Record Config : Type := mkConfig {
  chat_id : Z;
  last_read_message_id : Z;
  ids_to_retry : list Z;
  media_types : list string;
  file_formats : gmap string (list string)
}.

Definition set_ids_to_retry (c : Config) (ids : list Z) : Config :=
  mkConfig (chat_id c) (last_read_message_id c) ids (media_types c) (file_formats c).

Definition set_last_read_message_id (c : Config) (i : Z) : Config :=
  mkConfig (chat_id c) i (ids_to_retry c) (media_types c) (file_formats c).

(** The file system, as far as the module looks at it: a path is a
    regular file of some size, a directory, or absent. *)
Inductive node : Type :=
  | File (size : Z)
  | Dir.

(** The lines written through [logger]. *)
Inductive log_line : Type :=
  | LogScript (action : string)
  | LogFileEmpty (path : string)
  | LogFileSmall (path : string) (size : Z)
  | LogInvalidFile (path : string) (message_id : Z) (chat : string)
  | LogDownloaded (path : string) (message_id : Z) (total : Z)
  | LogReferenceExpired (message_id : Z)
  | LogTimeout (message_id : Z)
  | LogException (message_id : Z) (e : exn)
  | LogFailedCount (n : nat).

(** Observable events, in program order. *)
Inductive event : Type :=
  | EvLog (l : log_line)
  | EvSleep (seconds : Z)
  | EvTransfer (message_id : Z) (path : string)
  | EvRefetch (chat message_id : Z)
  | EvGather (message_ids : list Z)
  | EvYamlDump (path : string) (c : Config)
  | EvCopy (src dst : string)
  | EvClientStart
  | EvClientStop.

(** The process state: the module globals, the file system, the YAML
    documents on disk, the state of the remote client and the event trace. *)
Record World (C : Type) : Type := mkWorld {
  FAILED_IDS : list Z;
  DOWNLOADED_IDS : list Z;
  TOTAL_FILES : Z;
  fs : gmap string node;
  yaml : gmap string Config;
  client : C;
  trace : list event
}.

Arguments mkWorld {C} _ _ _ _ _ _ _.
Arguments FAILED_IDS {C} _.
Arguments DOWNLOADED_IDS {C} _.
Arguments TOTAL_FILES {C} _.
Arguments fs {C} _.
Arguments yaml {C} _.
Arguments client {C} _.
Arguments trace {C} _.

(** Outcome of a Python computation. *)
Inductive result (A : Type) : Type :=
  | Ok (a : A)
  | Raise (e : exn).

Arguments Ok {A} _.
Arguments Raise {A} _.

(** A path and its ancestors, outermost first. *)
Definition lineage (p : string) : list string := ancestors p ++ [p].

Definition is_file (f : gmap string node) (p : string) : bool :=
  match f !! p with
  | Some (File _) => true
  | _ => false
  end.

(** The file system after [os.makedirs(p, exist_ok=True)] has returned:
    the path and those of its ancestors that were missing are
    directories, what was there is left alone. *)
Definition ensure_dir (p : string) (f : gmap string node) : gmap string node :=
  fold_left (λ g q, match g !! q with Some _ => g | None => <[q := Dir]> g end)
    (lineage p) f.

(** Computations: the state is threaded through and survives a raise. *)
Definition M (C A : Type) : Type := World C → result A * World C.

Section Monad.
Context {C : Type}.

Definition ret {A} (a : A) : M C A := λ w, (Ok a, w).

Definition raise {A} (e : exn) : M C A := λ w, (Raise e, w).

Definition bind {A B} (m : M C A) (k : A → M C B) : M C B :=
  λ w, match m w with
       | (Ok a, w') => k a w'
       | (Raise e, w') => (Raise e, w')
       end.

(** [try: m; except ...: h e] where the code after the [try] statement
    is [k]; neither [k] nor [h] is protected by the [try]. *)
Definition try_except {A B} (m : M C A) (k : A → M C B) (h : exn → M C B) : M C B :=
  λ w, match m w with
       | (Ok a, w') => k a w'
       | (Raise e, w') => h e w'
       end.

Definition lift {A} (r : result A) : M C A := λ w, (r, w).

Definition get_world : M C (World C) := λ w, (Ok w, w).

Definition emit (e : event) : M C unit :=
  λ w, (Ok tt, mkWorld (FAILED_IDS w) (DOWNLOADED_IDS w) (TOTAL_FILES w)
                 (fs w) (yaml w) (client w) (trace w ++ [e])).

Definition log (l : log_line) : M C unit := emit (EvLog l).

(** [FAILED_IDS.append(i)] and [DOWNLOADED_IDS.append(i)]. *)
Definition append_failed (i : Z) : M C unit :=
  λ w, (Ok tt, mkWorld (FAILED_IDS w ++ [i]) (DOWNLOADED_IDS w) (TOTAL_FILES w)
                 (fs w) (yaml w) (client w) (trace w)).

Definition append_downloaded (i : Z) : M C unit :=
  λ w, (Ok tt, mkWorld (FAILED_IDS w) (DOWNLOADED_IDS w ++ [i]) (TOTAL_FILES w)
                 (fs w) (yaml w) (client w) (trace w)).

Definition set_total_files (n : Z) : M C unit :=
  λ w, (Ok tt, mkWorld (FAILED_IDS w) (DOWNLOADED_IDS w) n
                 (fs w) (yaml w) (client w) (trace w)).

Definition set_fs (f : gmap string node) : M C unit :=
  λ w, (Ok tt, mkWorld (FAILED_IDS w) (DOWNLOADED_IDS w) (TOTAL_FILES w)
                 f (yaml w) (client w) (trace w)).

Definition set_yaml (y : gmap string Config) : M C unit :=
  λ w, (Ok tt, mkWorld (FAILED_IDS w) (DOWNLOADED_IDS w) (TOTAL_FILES w)
                 (fs w) y (client w) (trace w)).

Definition set_client (c : C) : M C unit :=
  λ w, (Ok tt, mkWorld (FAILED_IDS w) (DOWNLOADED_IDS w) (TOTAL_FILES w)
                 (fs w) (yaml w) c (trace w)).

(** [asyncio.sleep(n)]. *)
Definition sleep (n : Z) : M C unit := emit (EvSleep n).

(** [os.path.getsize].  For a directory the answer is the size of the
    directory entry, which depends on the file system (and may be 0):
    [dir_size] stands for it. *)
Definition getsize (dir_size : gmap string node → string → Z) (p : string) : M C Z :=
  λ w, match fs w !! p with
       | Some (File n) => (Ok n, w)
       | Some Dir => (Ok (dir_size (fs w) p), w)
       | None => (Raise OSError, w)
       end.

(** [os.remove]. *)
Definition remove (p : string) : M C unit :=
  λ w, match fs w !! p with
       | Some (File _) => set_fs (delete p (fs w)) w
       | _ => (Raise OSError, w)
       end.

(** [os.makedirs(p, exist_ok=True)]: [NotADirectoryError] when an
    ancestor of the path is a regular file, [FileExistsError] when the
    path itself is one (both are [OSError]s); otherwise the missing
    ancestors and the path are created. *)
Definition makedirs (p : string) : M C unit :=
  λ w, if forallb (λ q, negb (is_file (fs w) q)) (lineage p)
       then set_fs (ensure_dir p (fs w)) w
       else (Raise OSError, w).

Definition isdir (p : string) : M C bool :=
  λ w, (Ok (match fs w !! p with Some Dir => true | _ => false end), w).

Definition exists_ (p : string) : M C bool :=
  λ w, (Ok (bool_decide (is_Some (fs w !! p))), w).
End Monad.

Declare Scope py_scope.
Delimit Scope py_scope with py.
Notation "x <- m ;; k" := (bind m (λ x, k))
  (at level 100, m at next level, right associativity) : py_scope.
Notation "m ;; k" := (bind m (λ _, k))
  (at level 100, right associativity) : py_scope.

(** ** Coroutines and the event loop

    A coroutine runs without interruption until it ends or reaches an
    [await] on the network or on the clock; there the event loop may run
    other tasks before it resumes the coroutine.  [Fin r w]: the run ended
    with [r] and left the world [w]; [Susp k w]: the run left the world
    [w] and the coroutine is suspended, [k] is the rest of it. *)
Inductive step (C A : Type) : Type :=
  | Fin (r : result A) (w : World C)
  | Susp (k : World C → step C A) (w : World C).

Arguments Fin {C A} _ _.
Arguments Susp {C A} _ _.

Definition Co (C A : Type) : Type := World C → step C A.

(** A task of the event loop: a coroutine that has not started or is
    suspended, or the result of one that has ended. *)
Inductive task (C A : Type) : Type :=
  | Running (c : Co C A)
  | Finished (r : result A).

Arguments Running {C A} _.
Arguments Finished {C A} _.

Section Coroutine.
Context {C : Type}.

(** Code that reaches no [await] on the network or the clock. *)
Definition atomic {A} (m : M C A) : Co C A :=
  λ w, match m w with (r, w') => Fin r w' end.

(** [await m] for a call [m] that goes through the network or the clock:
    the coroutine is suspended; at some later point the call takes
    effect; at some point after that the coroutine is resumed with the
    answer (or the exception) of the call. *)
Definition await {A} (m : M C A) : Co C A :=
  λ w, Susp (λ w1, match m w1 with
                   | (r, w') => Susp (λ w2, Fin r w2) w'
                   end) w.

Fixpoint bind_step {A B} (s : step C A) (k : A → Co C B) : step C B :=
  match s with
  | Fin (Ok a) w => k a w
  | Fin (Raise e) w => Fin (Raise e) w
  | Susp c w => Susp (λ w', bind_step (c w') k) w
  end.

Definition co_bind {A B} (m : Co C A) (k : A → Co C B) : Co C B :=
  λ w, bind_step (m w) k.

(** [try: m; except ...: h e], with the code after the statement, as in
    [try_except]. *)
Fixpoint try_step {A B} (s : step C A) (k : A → Co C B) (h : exn → Co C B)
    : step C B :=
  match s with
  | Fin (Ok a) w => k a w
  | Fin (Raise e) w => h e w
  | Susp c w => Susp (λ w', try_step (c w') k h) w
  end.

Definition co_try {A B} (m : Co C A) (k : A → Co C B) (h : exn → Co C B) : Co C B :=
  λ w, try_step (m w) k h.

(** The coroutine run to its end with no other task in between. *)
Fixpoint finish_step {A} (s : step C A) : result A * World C :=
  match s with
  | Fin r w => (r, w)
  | Susp c w => finish_step (c w)
  end.

Definition run {A} (c : Co C A) : M C A := λ w, finish_step (c w).

(** The event loop lets task number [n] run up to its next suspension
    (nothing happens when there is no such task or when it has ended);
    [err] keeps the first exception that a task has raised. *)
Definition resume {A} (n : nat) (ts : list (task C A)) (err : option exn)
    (w : World C) : list (task C A) * option exn * World C :=
  match ts !! n with
  | Some (Running c) =>
      match c w with
      | Fin r w' =>
          (<[n := Finished r]> ts,
           match err, r with
           | None, Raise e => Some e
           | _, _ => err
           end,
           w')
      | Susp k w' => (<[n := Running k]> ts, err, w')
      end
  | _ => (ts, err, w)
  end.

Fixpoint run_schedule {A} (schedule : list nat) (ts : list (task C A))
    (err : option exn) (w : World C) : list (task C A) * option exn * World C :=
  match schedule with
  | [] => (ts, err, w)
  | n :: rest =>
      match resume n ts err w with
      | (ts', err', w') => run_schedule rest ts' err' w'
      end
  end.

(** The tasks that are left run to their end, one after the other; the
    results are collected in the order of the tasks. *)
Fixpoint finish {A} (ts : list (task C A)) : M C (list A) :=
  match ts with
  | [] => ret []
  | t :: rest =>
      (a <- (match t with
             | Running c => run c
             | Finished r => lift r
             end) ;;
       l <- finish rest ;;
       ret (a :: l))%py
  end.
End Coroutine.

Declare Scope co_scope.
Delimit Scope co_scope with co.
Notation "x <- m ;; k" := (co_bind m (λ x, k))
  (at level 100, m at next level, right associativity) : co_scope.
Notation "m ;; k" := (co_bind m (λ _, k))
  (at level 100, right associativity) : co_scope.

End Model.

Export Model.
Local Open Scope py_scope.

(* ===================================================================== *)
(** * The collaborators *)
(* ===================================================================== *)

(** The remote client ([pyrogram.Client]) and the helpers imported from
    [utils.file_management] are not part of [media_downloader.py]; the
    functions below take them as parameters.  A client call reads and
    updates the client state; a transfer may also write the file system. *)
Record Externals (C : Type) : Type := mkExternals {
  (** [client.download_media(message, file_name=...)]: the path written,
      [None], or an exception. *)
  client_download_media :
    C → gmap string node → Message → string →
    result (option string) * C * gmap string node;
  (** [client.get_messages(chat_id, message_ids=<int>)]: one message. *)
  client_get_message : C → Z → Z → result Message * C;
  (** [client.get_messages(chat_id, message_ids=<list>)]. *)
  client_get_messages : C → Z → list Z → result (list Message) * C;
  (** [client.get_chat_history(chat_id, offset_id, reverse=True)]: the
      messages the iterator yields, oldest first. *)
  client_get_chat_history : C → Z → Z → list Message;
  (** [utils.file_management.get_next_name]. *)
  get_next_name : gmap string node → string → string;
  (** [utils.file_management.manage_duplicate_file]: may remove the new
      file and return the path of an identical older one. *)
  manage_duplicate_file :
    gmap string node → string → result string * gmap string node;
  (** [THIS_DIR], the directory of the script. *)
  THIS_DIR : string;
  (** What [os.path.getsize] answers for a directory. *)
  dir_size : gmap string node → string → Z;
  (** The event loop under [asyncio.gather]: the order in which the tasks
      of a batch get to run, as numbers of tasks (it depends on the
      timing of the network). *)
  loop_schedule : C → nat → list nat
}.

Arguments client_download_media {C} _ _ _ _ _.
Arguments client_get_message {C} _ _ _ _.
Arguments client_get_messages {C} _ _ _ _.
Arguments client_get_chat_history {C} _ _ _ _.
Arguments get_next_name {C} _ _ _.
Arguments manage_duplicate_file {C} _ _ _.
Arguments THIS_DIR {C} _.
Arguments dir_size {C} _ _ _.
Arguments loop_schedule {C} _ _ _.

(* ===================================================================== *)
(** * The functions of [media_downloader.py] *)
(* ===================================================================== *)

(** ** Pure functions *)

(** [x in l] for a value that may be [None] and a list of strings. *)
Definition py_in (x : option string) (l : list string) : bool :=
  match x with
  | Some s => bool_decide (s ∈ l)
  | None => false
  end.

(** Lines 66-90. *)
Definition _can_download (_type : string) (file_formats : gmap string (list string))
    (file_format : option string) : result bool :=
  if bool_decide (_type ∈ ["audio"; "document"; "video"]) then
    match file_formats !! _type with
    | None => Raise KeyError
    | Some allowed_formats =>
        if negb (py_in file_format allowed_formats) then
          match allowed_formats with
          | [] => Raise IndexError
          | first :: _ => if negb (String.eqb first "all") then Ok false else Ok true
          end
        else Ok true
    end
  else Ok true.

(** Lines 158-175. *)
Definition invalid_chars : list ascii :=
  ["<"; ">"; ":"; "034"; "/"; "\"; "|"; "?"; "*"]%char.

Definition _sanitize_filename (filename : string) : string :=
  fold_left (λ filename char, replace_char char "_"%char filename) invalid_chars filename.

Section Functions.
Context {C : Type} (X : Externals C).

Definition DOWNLOADS_DIR : string := path_join (THIS_DIR X) "downloads".

(** ** Client calls *)

Definition download_media_call (message : Message) (file_name : string)
    : M C (option string) :=
  emit (EvTransfer (m_id message) file_name) ;;
  (λ w, match client_download_media X (client w) (fs w) message file_name with
        | (r, c, f) =>
            (r, mkWorld (FAILED_IDS w) (DOWNLOADED_IDS w) (TOTAL_FILES w)
                  f (yaml w) c (trace w))
        end).

Definition get_message_call (chat message_id : Z) : M C Message :=
  emit (EvRefetch chat message_id) ;;
  (λ w, match client_get_message X (client w) chat message_id with
        | (r, c) =>
            (r, mkWorld (FAILED_IDS w) (DOWNLOADED_IDS w) (TOTAL_FILES w)
                  (fs w) (yaml w) c (trace w))
        end).

Definition get_messages_call (chat : Z) (message_ids : list Z) : M C (list Message) :=
  λ w, match client_get_messages X (client w) chat message_ids with
       | (r, c) =>
           (r, mkWorld (FAILED_IDS w) (DOWNLOADED_IDS w) (TOTAL_FILES w)
                 (fs w) (yaml w) c (trace w))
       end.

(** [client.get_chat_history]: the iterator is read off the state of the
    client at the time of the call, as the list of the messages that it
    yields.  Reading the history is not an event of the trace, and an
    iterator that fails half-way is not modelled. *)
Definition get_chat_history_call (chat offset_id : Z) : M C (list Message) :=
  λ w, (Ok (client_get_chat_history X (client w) chat offset_id), w).

Definition get_next_name_call (file_name : string) : M C string :=
  λ w, (Ok (get_next_name X (fs w) file_name), w).

Definition manage_duplicate_file_call (path : string) : M C string :=
  λ w, match manage_duplicate_file X (fs w) path with
       | (r, f) =>
           (r, mkWorld (FAILED_IDS w) (DOWNLOADED_IDS w) (TOTAL_FILES w)
                 f (yaml w) (client w) (trace w))
       end.

(** ** Lines 34-39 *)
Definition log_start_end (action : string) : M C unit :=
  if String.eqb action "start" then log (LogScript "Script started.")
  else if String.eqb action "end" then log (LogScript "Script ended.")
  else ret tt.

(** ** Lines 42-63.  [list(set(a) - set(b))] lists the difference in the
    order of the set; the dictionary is updated in place, so the caller
    goes on with the returned configuration. *)
Definition update_config (config : Config) (chat_id : string) : M C Config :=
  w <- get_world ;;
  let config :=
    set_ids_to_retry config
      (elements ((list_to_set (ids_to_retry config) : gset Z)
                   ∖ list_to_set (DOWNLOADED_IDS w))
         ++ FAILED_IDS w) in
  let config_path := path_join (THIS_DIR X) "config.yaml" in
  set_yaml (<[config_path := config]> (yaml w)) ;;
  emit (EvYamlDump config_path config) ;;
  let chat_config_dir := path_join DOWNLOADS_DIR chat_id in
  makedirs chat_config_dir ;;
  let chat_config_path := path_join chat_config_dir "config.yaml" in
  w <- get_world ;;
  set_yaml (<[chat_config_path := config]> (yaml w)) ;;
  emit (EvCopy config_path chat_config_path) ;;
  ret config.

(** ** Lines 93-107 *)
Definition _is_exist (file_path : string) : M C bool :=
  d <- isdir file_path ;;
  if negb d then exists_ file_path else ret false.

(** ** Lines 110-128 *)
Definition _create_directories (chat_id media_type : string) : M C string :=
  let dir_path := path_join (path_join DOWNLOADS_DIR chat_id) media_type in
  makedirs dir_path ;;
  ret dir_path.

(** ** Lines 131-155 *)
Definition _is_valid_file (file_path : string) (min_size : Z) : M C bool :=
  file_size <- getsize (dir_size X) file_path ;;
  if (file_size =? 0)%Z then
    log (LogFileEmpty file_path) ;;
    ret false
  else if (file_size <? min_size)%Z then
    log (LogFileSmall file_path file_size) ;;
    ret true
  else ret true.

(** ** Lines 178-219 *)

(** Lines 203-213: the format and the sanitized name, which depend on the
    media object only. *)
Definition media_file_name (media_obj : Media) (_type : string)
    : result (option string * string) :=
  match
    (if bool_decide (_type ∈ ["audio"; "document"; "video"; "voice"]) then
       match mime_type media_obj with
       | Some mime =>
           let file_format := split_last "/" mime in
           Ok (Some file_format, "." +:+ file_format)
       | None => Raise AttributeError
       end
     else
       Ok (None,
           if String.eqb _type "photo" then ".jpg"
           else if String.eqb _type "video_note" then ".mp4" else ""))
  with
  | Raise e => Raise e
  | Ok (file_format, file_extension) =>
      match
        (match file_name media_obj with
         | Some name =>
             if String.eqb name "" then
               match date media_obj with
               | Some d => Ok (_type +:+ "_" +:+ d)
               | None => Raise AttributeError
               end
             else Ok name
         | None =>
             match date media_obj with
             | Some d => Ok (_type +:+ "_" +:+ d)
             | None => Raise AttributeError
             end
         end)
      with
      | Raise e => Raise e
      | Ok original_file_name =>
          let sanitized_file_name := _sanitize_filename original_file_name in
          Ok (file_format,
              if negb (endswith sanitized_file_name file_extension)
              then sanitized_file_name +:+ file_extension
              else sanitized_file_name)
      end
  end.

Definition _get_media_meta (media_obj : Media) (_type chat_id : string)
    (message_id : Z) : M C (string * option string) :=
  named <- lift (media_file_name media_obj _type) ;;
  let file_format : option string := fst named in
  let sanitized_file_name : string := snd named in
  dir_path <- _create_directories chat_id _type ;;
  ret (path_join dir_path (str message_id +:+ "_" +:+ sanitized_file_name),
       file_format).

(** ** Lines 222-310.  [download_media] is a coroutine; the functions of
    this section follow it when it is awaited on its own, with no other
    task in the event loop ([Async.download_media] below is the coroutine
    with its suspensions). *)

(** Lines 265-284: what is done with the value of [download_path].
    The first branch ends in [continue]. *)
Definition check_download (download_path : option string) (chat_id : string)
    (message_id : Z) : M C unit :=
  match download_path with
  | Some download_path =>
      if String.eqb download_path "" then ret tt
      else
        valid <- _is_valid_file download_path 512 ;;
        if negb valid then
          remove download_path ;;
          log (LogInvalidFile download_path message_id chat_id) ;;
          append_failed message_id
        else
          download_path <- manage_duplicate_file_call download_path ;;
          w <- get_world ;;
          log (LogDownloaded download_path message_id (TOTAL_FILES w)) ;;
          append_downloaded message_id
  | None => ret tt
  end.

(** The body of [for _type in media_types] (lines 256-284). *)
Definition download_type (message : Message) (chat_id : string) (message_id : Z)
    (file_formats : gmap string (list string)) (_type : string) : M C unit :=
  match m_attrs message !! _type with
  | None => ret tt
  | Some _media =>
      meta <- _get_media_meta _media _type chat_id message_id ;;
      let file_name := fst meta in
      let file_format := snd meta in
      can <- lift (_can_download _type file_formats file_format) ;;
      if (can : bool) then
        taken <- _is_exist file_name ;;
        file_name <- (if (taken : bool) then get_next_name_call file_name
                      else ret file_name) ;;
        download_path <- download_media_call message file_name ;;
        check_download download_path chat_id message_id
      else ret tt
  end.

Fixpoint for_types (message : Message) (chat_id : string) (message_id : Z)
    (file_formats : gmap string (list string)) (media_types : list string)
    : M C unit :=
  match media_types with
  | [] => ret tt
  | _type :: rest =>
      download_type message chat_id message_id file_formats _type ;;
      for_types message chat_id message_id file_formats rest
  end.

(** How the [try] block ends when it does not raise: by [return
    message.id] (line 254) or by reaching [break] (line 285). *)
Inductive flow : Type :=
  | Return (v : Z)
  | Break.

Definition try_block (message : Message) (chat_id : string) (message_id : Z)
    (media_types : list string) (file_formats : gmap string (list string))
    : M C flow :=
  match m_media message with
  | None => ret (Return (m_id message))
  | Some _ =>
      for_types message chat_id message_id file_formats media_types ;;
      ret Break
  end.

(** [for retry in range(3)] over the remaining values of [retry]. *)
Fixpoint attempts (retries : list Z) (message : Message) (chat_id : string)
    (message_id : Z) (media_types : list string)
    (file_formats : gmap string (list string)) : M C Z :=
  match retries with
  | [] => ret message_id
  | retry :: rest =>
      try_except (try_block message chat_id message_id media_types file_formats)
        (λ f, match f with
              | Return v => ret v
              | Break => ret message_id
              end)
        (λ e, match e with
              | BadRequest =>
                  message <- get_message_call (m_chat_id message) message_id ;;
                  (if (retry =? 2)%Z then
                     log (LogReferenceExpired message_id) ;;
                     append_failed message_id
                   else ret tt) ;;
                  attempts rest message chat_id message_id media_types file_formats
              | TypeError =>
                  sleep 5 ;;
                  (if (retry =? 2)%Z then
                     log (LogTimeout message_id) ;;
                     append_failed message_id
                   else ret tt) ;;
                  attempts rest message chat_id message_id media_types file_formats
              | Interrupt name => raise (Interrupt name)
              | e =>
                  log (LogException message_id e) ;;
                  append_failed message_id ;;
                  ret message_id
              end)
  end.

Definition download_media (message : Message) (media_types : list string)
    (file_formats : gmap string (list string)) : M C Z :=
  let chat_id := str (m_chat_id message) in
  let message_id := m_id message in
  attempts [0; 1; 2] message chat_id message_id media_types file_formats.
End Functions.

(** ** Lines 222-310, as a coroutine.  The calls of the client and
    [asyncio.sleep] are awaited; [_get_media_meta] is a coroutine that
    never suspends. *)
Module Async.
Section Functions.
Context {C : Type} (X : Externals C).
Local Open Scope co_scope.

Definition download_type (message : Message) (chat_id : string) (message_id : Z)
    (file_formats : gmap string (list string)) (_type : string) : Co C unit :=
  match m_attrs message !! _type with
  | None => atomic (ret tt)
  | Some _media =>
      meta <- atomic (_get_media_meta X _media _type chat_id message_id) ;;
      let file_name := fst meta in
      let file_format := snd meta in
      can <- atomic (lift (_can_download _type file_formats file_format)) ;;
      if (can : bool) then
        taken <- atomic (_is_exist file_name) ;;
        file_name <- atomic (if (taken : bool) then get_next_name_call X file_name
                             else ret file_name) ;;
        download_path <- await (download_media_call X message file_name) ;;
        atomic (check_download X download_path chat_id message_id)
      else atomic (ret tt)
  end.

Fixpoint for_types (message : Message) (chat_id : string) (message_id : Z)
    (file_formats : gmap string (list string)) (media_types : list string)
    : Co C unit :=
  match media_types with
  | [] => atomic (ret tt)
  | _type :: rest =>
      download_type message chat_id message_id file_formats _type ;;
      for_types message chat_id message_id file_formats rest
  end.

Definition try_block (message : Message) (chat_id : string) (message_id : Z)
    (media_types : list string) (file_formats : gmap string (list string))
    : Co C flow :=
  match m_media message with
  | None => atomic (ret (Return (m_id message)))
  | Some _ =>
      for_types message chat_id message_id file_formats media_types ;;
      atomic (ret Break)
  end.

Fixpoint attempts (retries : list Z) (message : Message) (chat_id : string)
    (message_id : Z) (media_types : list string)
    (file_formats : gmap string (list string)) : Co C Z :=
  match retries with
  | [] => atomic (ret message_id)
  | retry :: rest =>
      co_try (try_block message chat_id message_id media_types file_formats)
        (λ f, match f with
              | Return v => atomic (ret v)
              | Break => atomic (ret message_id)
              end)
        (λ e, match e with
              | BadRequest =>
                  message <- await (get_message_call X (m_chat_id message) message_id) ;;
                  atomic (if (retry =? 2)%Z then
                            (log (LogReferenceExpired message_id) ;;
                             append_failed message_id)%py
                          else ret tt) ;;
                  attempts rest message chat_id message_id media_types file_formats
              | TypeError =>
                  await (sleep 5) ;;
                  atomic (if (retry =? 2)%Z then
                            (log (LogTimeout message_id) ;;
                             append_failed message_id)%py
                          else ret tt) ;;
                  attempts rest message chat_id message_id media_types file_formats
              | Interrupt name => atomic (raise (Interrupt name))
              | e =>
                  atomic (log (LogException message_id e) ;;
                          append_failed message_id ;;
                          ret message_id)%py
              end)
  end.

Definition download_media (message : Message) (media_types : list string)
    (file_formats : gmap string (list string)) : Co C Z :=
  let chat_id := str (m_chat_id message) in
  let message_id := m_id message in
  attempts [0; 1; 2] message chat_id message_id media_types file_formats.
End Functions.
End Async.

Section Orchestration.
Context {C : Type} (X : Externals C).

(** ** Lines 313-348.  [asyncio.gather] makes a task of every download.
    The event loop lets them run in the order of [loop_schedule]; when
    that schedule is used up, the tasks that are left are completed in
    list order.  The first exception that a task raises is raised to the
    caller: the other tasks are not cancelled, they go on as long as the
    schedule lasts. *)
Definition gather (messages : list Message) (media_types : list string)
    (file_formats : gmap string (list string)) : M C (list Z) :=
  λ w,
    let ts := (λ message,
                 Running (Async.download_media X message media_types file_formats))
                <$> messages in
    match run_schedule (loop_schedule X (client w) (List.length messages)) ts None w with
    | (ts, Some e, w') => (Raise e, w')
    | (ts, None, w') => finish ts w'
    end.

(** [max] of a list of ints. *)
Definition py_max (l : list Z) : result Z :=
  match l with
  | [] => Raise ValueError
  | x :: r => Ok (fold_left Z.max r x)
  end.

Definition process_messages (messages : list Message) (media_types : list string)
    (file_formats : gmap string (list string)) : M C Z :=
  emit (EvGather (m_id <$> messages)) ;;
  message_ids <- gather messages media_types file_formats ;;
  lift (py_max message_ids).

(** ** Lines 351-371 *)
Definition count_total_files (chat_id : Z) : M C Z :=
  history <- get_chat_history_call X chat_id 0 ;;
  ret (fold_left (λ total_files message,
                    if bool_decide (is_Some (m_media message))
                    then total_files + 1 else total_files)
         history 0).

(** ** Lines 374-440 *)

(** The variables of the pagination loop. *)
Record loop_state : Type := mkLoop {
  messages_list : list Message;
  pagination_count : Z;
  loop_last_read : Z;
  loop_config : Config
}.

(** One iteration of [async for message in messages_iter] (lines 415-429). *)
Definition paginate_step (pagination_limit : Z) (st : loop_state)
    (message : Message) : M C loop_state :=
  if bool_decide (pagination_count st ≠ pagination_limit) then
    ret (mkLoop (messages_list st ++ [message]) (pagination_count st + 1)
           (loop_last_read st) (loop_config st))
  else
    last_read_message_id <-
      process_messages (messages_list st)
        (media_types (loop_config st)) (file_formats (loop_config st)) ;;
    let config := set_last_read_message_id (loop_config st) last_read_message_id in
    config <- update_config X config (str (chat_id config)) ;;
    ret (mkLoop [message] 0 last_read_message_id config).

Fixpoint paginate (pagination_limit : Z) (messages_iter : list Message)
    (st : loop_state) : M C loop_state :=
  match messages_iter with
  | [] => ret st
  | message :: rest =>
      st <- paginate_step pagination_limit st message ;;
      paginate pagination_limit rest st
  end.

Definition begin_import (config : Config) (pagination_limit : Z) : M C Config :=
  emit EvClientStart ;;
  total <- count_total_files (chat_id config) ;;
  set_total_files total ;;
  let last_read_message_id := last_read_message_id config in
  messages_iter <- get_chat_history_call X (chat_id config) last_read_message_id ;;
  skipped_messages <-
    (match ids_to_retry config with
     | [] => ret []
     | ids => get_messages_call X (chat_id config) ids
     end) ;;
  let st :=
    fold_left (λ st message,
                 mkLoop (messages_list st ++ [message]) (pagination_count st + 1)
                   (loop_last_read st) (loop_config st))
      skipped_messages (mkLoop [] 0 last_read_message_id config) in
  st <- paginate pagination_limit messages_iter st ;;
  last_read_message_id <-
    (match messages_list st with
     | [] => ret (loop_last_read st)
     | _ =>
         process_messages (messages_list st)
           (media_types (loop_config st)) (file_formats (loop_config st))
     end) ;;
  emit EvClientStop ;;
  ret (set_last_read_message_id (loop_config st) last_read_message_id).

(** ** Lines 443-458; [check_for_updates] only talks to the network. *)
Definition main : M C unit :=
  log_start_end "start" ;;
  w <- get_world ;;
  config <- (match yaml w !! path_join (THIS_DIR X) "config.yaml" with
             | Some config => ret config
             | None => raise OSError
             end) ;;
  updated_config <- begin_import config 100 ;;
  w <- get_world ;;
  (match FAILED_IDS w with
   | [] => ret tt
   | _ => log (LogFailedCount (size (list_to_set (FAILED_IDS w) : gset Z)))
   end) ;;
  update_config X updated_config (str (chat_id updated_config)) ;;
  log_start_end "end".
End Orchestration.

(* ===================================================================== *)
(** * Vocabulary of the properties *)
(* ===================================================================== *)

Section Vocabulary.
Context {C : Type}.

(** [steps R m S]: whatever the start, running [m] moves the world along
    [R], and a value returned normally satisfies [S]. *)
Definition steps (R : relation (World C)) {A} (m : M C A) (S : A → Prop) : Prop :=
  ∀ w, R w (m w).2 ∧ ∀ a, (m w).1 = Ok a → S a.

(** Neither id list changes. *)
Definition same_ids : relation (World C) :=
  λ w w', FAILED_IDS w' = FAILED_IDS w ∧ DOWNLOADED_IDS w' = DOWNLOADED_IDS w.

(** The trace grows by events that satisfy [P]. *)
Definition extends (P : event → Prop) : relation (World C) :=
  λ w w', ∃ evs, trace w' = trace w ++ evs ∧ Forall P evs.

(** The id lists grow by [f] and [d]. *)
Definition records (f d : list Z) : relation (World C) :=
  λ w w', FAILED_IDS w' = FAILED_IDS w ++ f
          ∧ DOWNLOADED_IDS w' = DOWNLOADED_IDS w ++ d.

(** [recording Q m]: a run of [m] appends some [f] to the failed ids and
    some [d] to the downloaded ids, with [Q result f d]. *)
Definition recording {A} (Q : result A → list Z → list Z → Prop) (m : M C A) : Prop :=
  ∀ w, ∃ f d, records f d w (m w).2 ∧ Q (m w).1 f d.
End Vocabulary.

(** [quiet m]: [m] leaves the id lists and the trace alone. *)
Definition quiet {C A} (m : M C A) : Prop :=
  ∀ w, FAILED_IDS (m w).2 = FAILED_IDS w
       ∧ DOWNLOADED_IDS (m w).2 = DOWNLOADED_IDS w
       ∧ trace (m w).2 = trace w.

(** Every event but the start of a batch. *)
Definition not_gather (e : event) : Prop :=
  match e with
  | EvGather _ => False
  | _ => True
  end.

(** A batch handed to [asyncio.gather] is not empty. *)
Definition nonempty_gather (e : event) : Prop :=
  match e with
  | EvGather ids => ids ≠ []
  | _ => True
  end.

(** The batches of a trace, the cursors written to the checkpoint and the
    sleeps, in order. *)
Definition gathers (t : list event) : list (list Z) :=
  omap (λ e, match e with EvGather ids => Some ids | _ => None end) t.

Definition checkpoint_cursors (t : list event) : list Z :=
  omap (λ e, match e with
             | EvYamlDump _ c => Some (last_read_message_id c)
             | _ => None
             end) t.

(** The three outcomes of a message, read off the id lists. *)
Inductive outcome : Type :=
  | Downloaded
  | Skipped
  | Failed.

Definition failed_part (o : outcome) (i : Z) : list Z :=
  match o with Failed => [i] | _ => [] end.

Definition downloaded_part (o : outcome) (i : Z) : list Z :=
  match o with Downloaded => [i] | _ => [] end.

(** [os.makedirs(dir, exist_ok=True)] can succeed: neither the path nor
    one of its ancestors is a regular file. *)
Definition creatable (dir : string) (f : gmap string node) : Prop :=
  Forall (λ q, is_file f q = false) (lineage dir).

(** The path handed to the transfer: the candidate, or the next free name
    when a regular file already sits at the candidate. *)
Definition target_path {C} (X : Externals C) (f : gmap string node)
    (candidate : string) : string :=
  match f !! candidate with
  | Some (File _) => get_next_name X f candidate
  | _ => candidate
  end.

#[global] Instance outcome_eq_dec : EqDecision outcome.
Proof. solve_decision. Defined.

(** The ids of the messages of a batch whose outcome is [o]. *)
Definition ids_with (o : outcome) (outs : list outcome) (messages : list Message)
    : list Z :=
  omap (λ p, if decide (p.1 = o) then Some (m_id p.2) else None) (zip outs messages).

(** What a piece of the [try] block may leave in the id lists: the id is
    recorded at most once, and only by a piece that then ends normally. *)
Definition recorded_then_ok {A} (i : Z) : result A → list Z → list Z → Prop :=
  λ r f d, ∃ o, f = failed_part o i ∧ d = downloaded_part o i
                ∧ (o ≠ Skipped → ∃ a, r = Ok a).

(** A message carries at most one of the kinds of [kinds]. *)
Definition single_kind (kinds : list string) (message : Message) : Prop :=
  ∀ k1 k2, k1 ∈ kinds → k2 ∈ kinds →
    is_Some (m_attrs message !! k1) → is_Some (m_attrs message !! k2) → k1 = k2.

(** The batches that the pagination loop (lines 414-429) hands to
    [process_messages] when no call raises, and the batch that is left
    when the stream ends. *)
Fixpoint loop_batches (pagination_limit : Z) (messages_iter batch : list Message)
    (pagination_count : Z) : list (list Message) * list Message :=
  match messages_iter with
  | [] => ([], batch)
  | message :: rest =>
      if bool_decide (pagination_count ≠ pagination_limit) then
        loop_batches pagination_limit rest (batch ++ [message]) (pagination_count + 1)
      else
        let r := loop_batches pagination_limit rest [message] 0 in
        (batch :: r.1, r.2)
  end.

(** The ids of a batch. *)
Definition ids_of (batch : list Message) : list Z := m_id <$> batch.

(** The sizes seen in the batches of the loop: the first one starts with
    [seed] and holds [limit] messages, every later one holds [limit + 1]. *)
Definition first_full_then_over {A} (limit : Z) (seed : list A) (L : list (list A))
    : Prop :=
  match L with
  | [] => True
  | b :: bs =>
      seed `prefix_of` b
      ∧ Z.of_nat (List.length b) = limit
      ∧ Forall (λ b', Z.of_nat (List.length b') = limit + 1) bs
  end.

(** The loop variables agree: a counter that moved means a batch that is
    not empty. *)
Definition counted (st : loop_state) : Prop :=
  pagination_count st ≠ 0 → messages_list st ≠ [].

(* ===================================================================== *)
(** * Vocabulary of the further properties *)
(* ===================================================================== *)

(** The characters of a string, and a string rewritten character by
    character. *)
Fixpoint chars (s : string) : list ascii :=
  match s with
  | EmptyString => []
  | String c r => c :: chars r
  end.

Fixpoint string_map (f : ascii → ascii) (s : string) : string :=
  match s with
  | EmptyString => EmptyString
  | String c r => String (f c) (string_map f r)
  end.

(** What [_sanitize_filename] does to one character. *)
Definition sanitize_char (x : ascii) : ascii :=
  fold_left (λ x char, if Ascii.eqb x char then "_"%char else x) invalid_chars x.

(** The extension that [_get_media_meta] gives a file of kind [_type]
    whose format is [file_format] (lines 203-208). *)
Definition extension_of (_type : string) (file_format : option string) : string :=
  match file_format with
  | Some f => "." +:+ f
  | None =>
      if String.eqb _type "photo" then ".jpg"
      else if String.eqb _type "video_note" then ".mp4" else ""
  end.

(** [ends S E r]: the result is a value that satisfies [S] or an
    exception that satisfies [E]; [finishes S E m]: such are the results
    of [m]. *)
Definition ends {A} (S : A → Prop) (E : exn → Prop) (r : result A) : Prop :=
  match r with
  | Ok a => S a
  | Raise e => E e
  end.

Definition finishes {C A} (S : A → Prop) (E : exn → Prop) (m : M C A) : Prop :=
  ∀ w, ends S E (m w).1.

(** An [Exception], or an exception that satisfies [E]. *)
Definition exception_or (E : exn → Prop) (e : exn) : Prop :=
  is_exception e = true ∨ E e.

(** [contained E S r]: no [Exception] gets out.  The result is a value
    that satisfies [S], or an exception outside [Exception] that
    satisfies [E]. *)
Definition contained {A} (E : exn → Prop) (S : A → Prop) (r : result A) : Prop :=
  ends S (λ e, is_exception e = false ∧ E e) r.

(** ** Coroutines among other tasks

    [R g g'] relates the world before and after a stretch of a coroutine
    that runs without interruption; [g] is a ghost state of the coroutine
    (what it has done so far).  [safe R S s g w0]: the stretch that started
    in [w0] and led to [s] moved along [R]; so does every later stretch,
    whatever the worlds in which the coroutine is resumed; and the result
    [r] comes with a ghost state [g'] such that [S r g']. *)
Fixpoint safe {C G A} (R : G → G → relation (World C)) (S : result A → G → Prop)
    (s : step C A) (g : G) (w0 : World C) : Prop :=
  match s with
  | Fin r w => ∃ g', R g g' w0 w ∧ S r g'
  | Susp k w => ∃ g', R g g' w0 w ∧ ∀ w1, safe R S (k w1) g' w1
  end.

Definition co_safe {C G A} (R : G → G → relation (World C)) (S : result A → G → Prop)
    (c : Co C A) (g : G) : Prop :=
  ∀ w, safe R S (c w) g w.

Definition task_safe {C G A} (R : G → G → relation (World C))
    (S : result A → G → Prop) (t : task C A) (g : G) : Prop :=
  match t with
  | Running c => co_safe R S c g
  | Finished r => S r g
  end.

(** [co_steps R c]: every stretch of the coroutine moves the world along
    [R]. *)
Definition co_steps {C A} (R : relation (World C)) (c : Co C A) : Prop :=
  co_safe (λ _ _ : unit, R) (λ _ _, True) c tt.

(** [co_ends S E c]: whatever the worlds in which it is resumed, the
    coroutine ends with a value that satisfies [S] or an exception that
    satisfies [E].  The ghost state is a number that the coroutine keeps
    (for a download, the id of its message). *)
Definition co_ends {C A} (S : A → Prop) (E : exn → Prop) (c : Co C A) : Prop :=
  ∀ g : Z, co_safe (λ g1 g2 (_ _ : World C), g1 = g2)
             (λ r g', g' = g ∧ ends S E r) c g.

(** The outcome of a message, read off what a batch has appended to the
    failed ids ([f]) and to the downloaded ids ([d]). *)
Definition outcome_of (f d : list Z) (message : Message) : outcome :=
  if decide (m_id message ∈ f) then Failed
  else if decide (m_id message ∈ d) then Downloaded
  else Skipped.

(** The ghost state of a download for the id lists: the id of its
    message, and whether it may still record it.  A stretch records
    nothing, or the id once, in one of the lists, and then it may not
    record again. *)
Definition spends {C} (g g' : Z * bool) : relation (World C) :=
  λ w w', g'.1 = g.1
          ∧ ∃ f d, records f d w w'
                   ∧ ((g'.2 = g.2 ∧ f = [] ∧ d = [])
                      ∨ (g.2 = true ∧ g'.2 = false
                         ∧ (f = [g.1] ∧ d = [] ∨ f = [] ∧ d = [g.1]))).

(** What is known when a piece of the [try] block ends: a piece that has
    recorded has ended normally. *)
Definition recorded_ok {A} (i : Z) : result A → Z * bool → Prop :=
  λ r g, g.1 = i ∧ (g.2 = false → ∃ a, r = Ok a).

(** What is known at the end of a download. *)
Definition settled {A} (i : Z) : result A → Z * bool → Prop := λ _ g, g.1 = i.

(** The state of a batch whose messages have the ids [ids], set against
    the id lists [F0] and [D0] it started with: what has been appended
    holds no id twice, and only ids of downloads that have recorded. *)
Definition batch_inv {C} (ids F0 D0 : list Z) (gs : list (Z * bool)) (w : World C)
    : Prop :=
  gs.*1 = ids ∧ NoDup ids
  ∧ ∃ f d, FAILED_IDS w = F0 ++ f ∧ DOWNLOADED_IDS w = D0 ++ d
           ∧ NoDup (f ++ d) ∧ ∀ x, x ∈ f ++ d → (x, false) ∈ gs.

(** The weight of a trace, when every event weighs [f e]; [costs f n m]:
    a run of [m] adds events that weigh [n] at most. *)
Definition weight (f : event → nat) (t : list event) : nat := sum_list_with f t.

Definition costs {C A} (f : event → nat) (n : nat) (m : M C A) : Prop :=
  ∀ w, ∃ evs, trace (m w).2 = trace w ++ evs ∧ (weight f evs ≤ n)%nat.

(** Counting the transfers, the sleeps and the fetches by id. *)
Definition is_transfer (e : event) : nat :=
  match e with EvTransfer _ _ => 1 | _ => 0 end.

Definition is_sleep (e : event) : nat :=
  match e with EvSleep _ => 1 | _ => 0 end.

Definition is_refetch (e : event) : nat :=
  match e with EvRefetch _ _ => 1 | _ => 0 end.

(** The world after a log line. *)
Definition logged {C} (l : log_line) (w : World C) : World C :=
  mkWorld (FAILED_IDS w) (DOWNLOADED_IDS w) (TOTAL_FILES w) (fs w) (yaml w) (client w)
    (trace w ++ [EvLog l]).

(* ===================================================================== *)
(** * Concrete collaborators, for running the model *)
(* ===================================================================== *)

Module Fixture.

(** A chat whose messages carry no media. *)
Definition plain (chat i : Z) : Message := mkMessage i chat None ∅.

(** A file system that holds the directories [ps] and nothing else. *)
Definition dirs (ps : list string) : gmap string node :=
  list_to_map ((λ p, (p, Dir)) <$> ps).

(** The directory of the videos of chat 7, with its ancestors. *)
Definition videos_of_7 : gmap string node :=
  dirs ["/app"; "/app/downloads"; "/app/downloads/7"; "/app/downloads/7/video"].

(** A message with one photo. *)
Definition photo (chat i : Z) : Message :=
  mkMessage i chat (Some "photo")
    {[ "photo" := mkMedia None None (Some "2024-01-01T00:00:00") ]}.

(** A message that answers both [photo] and [video]. *)
Definition photo_and_video (chat i : Z) : Message :=
  mkMessage i chat (Some "video")
    {[ "photo" := mkMedia None None (Some "2024-01-01T00:00:00");
       "video" := mkMedia (Some "video/mp4") (Some "clip.mp4") None ]}.

(** Ids [first], [first+1], ... ([n] of them). *)
Definition ids_from (first : Z) (n : nat) : list Z :=
  (λ k, first + Z.of_nat k) <$> seq 0 n.

(** An event loop that lets every task of a batch run up to its first
    suspension, in list order, and then lets the awaited calls take
    effect, in list order. *)
Definition in_turn (c : nat) (n : nat) : list nat := seq 0 n ++ seq 0 n.

(** A client with a history of the [n] messages [make chat i] for the ids
    [i] in [1..n]; fetching by id answers [make chat i]; every transfer
    writes a file of [size k] bytes at the path asked for, [k] the number
    of transfers made before. *)
Definition client_of (make : Z → Z → Message) (n : nat) (size : nat → Z)
    : Externals nat :=
  mkExternals nat
    (λ c f m p, (Ok (Some p), S c, <[p := File (size c)]> f))
    (λ c chat i, (Ok (make chat i), c))
    (λ c chat ids, (Ok (make chat <$> ids), c))
    (λ c chat offset_id, make chat <$> filter (λ i, offset_id < i) (ids_from 1 n))
    (λ f p, p +:+ "-copy")
    (λ f p, (Ok p, f))
    "/app"
    (λ f p, 4096)
    in_turn.

(** A client whose transfers always raise [TypeError]. *)
Definition timing_out : Externals nat :=
  mkExternals nat
    (λ c f m p, (Raise TypeError, S c, f))
    (λ c chat i, (Ok (plain chat i), c))
    (λ c chat ids, (Ok (plain chat <$> ids), c))
    (λ c chat offset_id, [])
    (λ f p, p +:+ "-copy")
    (λ f p, (Ok p, f))
    "/app"
    (λ f p, 4096)
    in_turn.

Definition config0 (last_read : Z) (retry : list Z) : Config :=
  mkConfig 7 last_read retry ["photo"; "video"] {[ "video" := ["all"] ]}.

Definition world0 : World nat := mkWorld [] [] 0 ∅ ∅ 0%nat [].

(** The same client under an event loop that follows [schedule]. *)
Definition scheduled (schedule : list nat) (make : Z → Z → Message) (n : nat)
    (size : nat → Z) : Externals nat :=
  mkExternals nat
    (λ c f m p, (Ok (Some p), S c, <[p := File (size c)]> f))
    (λ c chat i, (Ok (make chat i), c))
    (λ c chat ids, (Ok (make chat <$> ids), c))
    (λ c chat offset_id, make chat <$> filter (λ i, offset_id < i) (ids_from 1 n))
    (λ f p, p +:+ "-copy")
    (λ f p, (Ok p, f))
    "/app"
    (λ f p, 4096)
    (λ _ _, schedule).

(** A message with one video. *)
Definition video (chat i : Z) : Message :=
  mkMessage i chat (Some "video")
    {[ "video" := mkMedia (Some "video/mp4") (Some "clip.mp4") None ]}.

(** A client whose transfers always raise [e] and which answers a fetch by
    id with [make chat i]. *)
Definition raising (e : exn) (make : Z → Z → Message) : Externals nat :=
  mkExternals nat
    (λ c f m p, (Raise e, S c, f))
    (λ c chat i, (Ok (make chat i), c))
    (λ c chat ids, (Ok (make chat <$> ids), c))
    (λ c chat offset_id, [])
    (λ f p, p +:+ "-copy")
    (λ f p, (Ok p, f))
    "/app"
    (λ f p, 4096)
    in_turn.

(** A client whose transfers return without a path. *)
Definition silent : Externals nat :=
  mkExternals nat
    (λ c f m p, (Ok None, S c, f))
    (λ c chat i, (Ok (video chat i), c))
    (λ c chat ids, (Ok (video chat <$> ids), c))
    (λ c chat offset_id, [])
    (λ f p, p +:+ "-copy")
    (λ f p, (Ok p, f))
    "/app"
    (λ f p, 4096)
    in_turn.

End Fixture.

(* ===================================================================== *)
(** * Program logic *)
(* ===================================================================== *)

Section Logic.
Context {C : Type} (R : relation (World C)) `{!PreOrder R}.

Lemma steps_ret {A} (a : A) (S : A → Prop) : S a → steps R (ret a) S.
Proof. intros HS w; split; [reflexivity | by intros ? [= <-]]. Qed.

Lemma steps_raise {A} (e : exn) (S : A → Prop) : steps R (raise e) S.
Proof. intros w; split; [reflexivity | by intros ? [=]]. Qed.

Lemma steps_lift {A} (r : result A) (S : A → Prop) :
  (∀ a, r = Ok a → S a) → steps R (lift r) S.
Proof. intros HS w; split; [reflexivity | exact HS]. Qed.

Lemma steps_get_world (S : World C → Prop) :
  (∀ w, S w) → steps R get_world S.
Proof. intros HS w; split; [reflexivity | by intros ? [= <-]]. Qed.

Lemma steps_weaken {A} (m : M C A) (S S' : A → Prop) :
  steps R m S → (∀ a, S a → S' a) → steps R m S'.
Proof. intros Hm HS w. destruct (Hm w) as [? H]. split; [done | naive_solver]. Qed.

Lemma steps_bind {A B} (m : M C A) (k : A → M C B) (S1 : A → Prop) (S2 : B → Prop) :
  steps R m S1 → (∀ a, S1 a → steps R (k a) S2) → steps R (bind m k) S2.
Proof.
  intros Hm Hk w. unfold bind.
  destruct (Hm w) as [HR HS]. destruct (m w) as [[a|e] w1]; simpl in *.
  - destruct (Hk a (HS a eq_refl) w1) as [HR' HS'].
    split; [by etrans | done].
  - split; [done | by intros ? [=]].
Qed.

Lemma steps_try_except {A B} (m : M C A) (k : A → M C B) (h : exn → M C B)
    (S1 : A → Prop) (S2 : B → Prop) :
  steps R m S1 → (∀ a, S1 a → steps R (k a) S2) → (∀ e, steps R (h e) S2) →
  steps R (try_except m k h) S2.
Proof.
  intros Hm Hk Hh w. unfold try_except.
  destruct (Hm w) as [HR HS]. destruct (m w) as [[a|e] w1]; simpl in *.
  - destruct (Hk a (HS a eq_refl) w1) as [HR' HS']. split; [by etrans | done].
  - destruct (Hh e w1) as [HR' HS']. split; [by etrans | done].
Qed.
End Logic.

#[global] Instance same_ids_preorder {C} : PreOrder (@same_ids C).
Proof.
  split.
  - by intros w.
  - intros w1 w2 w3 [H1 H2] [H3 H4]. split; congruence.
Qed.

#[global] Instance extends_preorder {C} (P : event → Prop) : PreOrder (@extends C P).
Proof.
  split.
  - intros w. exists []. by rewrite app_nil_r.
  - intros w1 w2 w3 (e1 & H1 & F1) (e2 & H2 & F2). exists (e1 ++ e2).
    split; [by rewrite H2, H1, app_assoc | by apply Forall_app].
Qed.

(** ** Stepping through a computation *)

(** A quiet primitive moves the world along both relations. *)
Lemma quiet_same_ids {C A} (m : M C A) : quiet m → steps same_ids m (λ _, True).
Proof. intros H w. destruct (H w) as (? & ? & _). by repeat split. Qed.

Lemma quiet_extends {C A} (P : event → Prop) (m : M C A) :
  quiet m → steps (extends P) m (λ _, True).
Proof.
  intros H w. destruct (H w) as (_ & _ & Ht). split; [|done].
  exists []. by rewrite app_nil_r.
Qed.

Ltac quiet_tac :=
  intros w; cbv beta delta [set_total_files set_fs set_yaml set_client getsize
    remove makedirs isdir exists_ get_messages_call get_chat_history_call
    get_next_name_call manage_duplicate_file_call] iota;
  repeat case_match; simpl; done.

Section Quiet.
Context {C : Type} (X : Externals C).

Lemma quiet_set_total_files n : quiet (C:=C) (set_total_files n).
Proof. quiet_tac. Qed.
Lemma quiet_set_yaml y : quiet (C:=C) (set_yaml y).
Proof. quiet_tac. Qed.
Lemma quiet_getsize ds p : quiet (C:=C) (getsize ds p).
Proof. quiet_tac. Qed.
Lemma quiet_remove p : quiet (C:=C) (remove p).
Proof. quiet_tac. Qed.
Lemma quiet_makedirs p : quiet (C:=C) (makedirs p).
Proof. quiet_tac. Qed.
Lemma quiet_isdir p : quiet (C:=C) (isdir p).
Proof. quiet_tac. Qed.
Lemma quiet_exists p : quiet (C:=C) (exists_ p).
Proof. quiet_tac. Qed.
Lemma quiet_get_messages_call chat ids : quiet (get_messages_call X chat ids).
Proof. quiet_tac. Qed.
Lemma quiet_get_chat_history_call chat o : quiet (get_chat_history_call X chat o).
Proof. quiet_tac. Qed.
Lemma quiet_get_next_name_call p : quiet (get_next_name_call X p).
Proof. quiet_tac. Qed.
Lemma quiet_manage_duplicate_file_call p : quiet (manage_duplicate_file_call X p).
Proof. quiet_tac. Qed.
Lemma quiet_transfer message p :
  quiet (λ w : World C,
           match client_download_media X (client w) (fs w) message p with
           | (r, c, f) =>
               (r, mkWorld (FAILED_IDS w) (DOWNLOADED_IDS w) (TOTAL_FILES w)
                     f (yaml w) c (trace w))
           end).
Proof. quiet_tac. Qed.
Lemma quiet_refetch chat i :
  quiet (λ w : World C,
           match client_get_message X (client w) chat i with
           | (r, c) =>
               (r, mkWorld (FAILED_IDS w) (DOWNLOADED_IDS w) (TOTAL_FILES w)
                     (fs w) (yaml w) c (trace w))
           end).
Proof. quiet_tac. Qed.
End Quiet.

Create HintDb quiet.
#[global] Hint Resolve quiet_set_total_files quiet_set_yaml quiet_getsize
  quiet_remove quiet_makedirs quiet_isdir quiet_exists quiet_get_messages_call
  quiet_get_chat_history_call quiet_get_next_name_call
  quiet_manage_duplicate_file_call quiet_transfer quiet_refetch : quiet.

Lemma same_ids_emit {C} (e : event) : steps (C:=C) same_ids (emit e) (λ _, True).
Proof. by intros w. Qed.

Lemma extends_emit {C} (P : event → Prop) (e : event) :
  P e → steps (C:=C) (extends P) (emit e) (λ _, True).
Proof. intros HP w. split; [|done]. exists [e]. split; [done | by constructor]. Qed.

Lemma extends_append_failed {C} (P : event → Prop) i :
  steps (C:=C) (extends P) (append_failed i) (λ _, True).
Proof. intros w. split; [|done]. exists []. by rewrite app_nil_r. Qed.

Lemma extends_append_downloaded {C} (P : event → Prop) i :
  steps (C:=C) (extends P) (append_downloaded i) (λ _, True).
Proof. intros w. split; [|done]. exists []. by rewrite app_nil_r. Qed.

(** Walks through binds, handlers and case distinctions, leaving the goals
    about calls it does not know. *)
Create HintDb steps.

Ltac step_structure :=
  repeat first
    [ apply steps_ret; [typeclasses eauto | done]
    | apply steps_raise; typeclasses eauto
    | apply steps_lift; [typeclasses eauto | done]
    | apply steps_get_world; [typeclasses eauto | done]
    | apply quiet_same_ids; solve [eauto with quiet]
    | apply quiet_extends; solve [eauto with quiet]
    | apply same_ids_emit
    | apply extends_emit;
        solve [ exact I
              | match goal with
                | H : ∀ e, not_gather e → _ |- _ => apply H; exact I
                end ]
    | apply extends_append_failed
    | apply extends_append_downloaded
    | solve [eauto with steps]
    | apply steps_bind with (S1 := λ _, True); [typeclasses eauto | | intros ? _]
    | apply steps_try_except with (S1 := λ _, True);
        [typeclasses eauto | | intros ? _ | intros ?]
    | match goal with
      | |- steps _ (match ?x with _ => _ end) _ => destruct x
      | |- steps _ (if ?b then _ else _) _ => destruct b
      end ].

(* ===================================================================== *)
(** * Format filtering ([_can_download]) *)
(* ===================================================================== *)

(** Kinds outside [audio], [document], [video] never consult an allow-list. *)
Lemma can_download_ungoverned _type file_formats file_format :
  _type ∉ ["audio"; "document"; "video"] →
  _can_download _type file_formats file_format = Ok true.
Proof. intros H. unfold _can_download. by rewrite bool_decide_eq_false_2. Qed.

(** An allow-list that starts with the sentinel accepts every format. *)
Lemma can_download_all _type file_formats file_format rest :
  file_formats !! _type = Some ("all" :: rest) →
  _can_download _type file_formats file_format = Ok true.
Proof.
  intros H. unfold _can_download. rewrite H.
  case_bool_decide; [|done]. by destruct (py_in _ _).
Qed.

(** A non-empty allow-list that does not start with the sentinel accepts
    exactly its members. *)
Lemma can_download_member _type file_formats fmt first rest :
  _type ∈ ["audio"; "document"; "video"] →
  file_formats !! _type = Some (first :: rest) →
  first ≠ "all" →
  _can_download _type file_formats (Some fmt) = Ok (bool_decide (fmt ∈ first :: rest)).
Proof.
  intros Hk H Hne. unfold _can_download. rewrite bool_decide_eq_true_2 by done.
  rewrite H. simpl. case_bool_decide; simpl; [done|].
  destruct (String.eqb_spec first "all"); [done|]. done.
Qed.

(** A governed kind without an entry makes the lookup fail. *)
Lemma can_download_unset _type file_formats file_format :
  _type ∈ ["audio"; "document"; "video"] →
  file_formats !! _type = None →
  _can_download _type file_formats file_format = Raise KeyError.
Proof.
  intros Hk H. unfold _can_download. by rewrite bool_decide_eq_true_2, H.
Qed.

(** C4, at the input on which the code departs from it: with the empty
    allow-list for [audio] (which does not start with the sentinel, and of
    which [mp3] is no member) [_can_download] does not answer [False]; the
    test of the first entry raises [IndexError]. *)
Theorem can_download_empty_allow_list :
  _can_download "audio" {[ "audio" := [] ]} (Some "mp3") = Raise IndexError.
Proof. reflexivity. Qed.

(** C7 as stated fails: [audio] without a configured allow-list is not
    accepted, the lookup of its allow-list raises [KeyError]. *)
Lemma can_download_unset_counterexample :
  ¬ (∀ _type file_formats file_format,
       file_formats !! _type = Some ["all"] ∨ file_formats !! _type = None →
       _can_download _type file_formats file_format = Ok true).
Proof. intros H. by specialize (H "audio" ∅ (Some "mp3") (or_intror eq_refl)). Qed.

(** C7, amended: [_can_download] answers [True] whatever the format for a
    kind whose allow-list starts with the sentinel (so for the list
    ["all"]), and for a kind that is not governed by an allow-list (any
    kind but [audio], [document], [video]), configured or not. *)
Theorem can_download_all_or_ungoverned _type file_formats file_format :
  (∃ rest, file_formats !! _type = Some ("all" :: rest))
  ∨ _type ∉ ["audio"; "document"; "video"] →
  _can_download _type file_formats file_format = Ok true.
Proof.
  intros [[rest H] | H].
  - by eapply can_download_all.
  - by apply can_download_ungoverned.
Qed.

Lemma can_download_all_or_ungoverned_witness :
  _can_download "video" {[ "video" := ["all"] ]} (Some "mkv") = Ok true
  ∧ _can_download "photo" ∅ None = Ok true.
Proof.
  split.
  - apply can_download_all_or_ungoverned. left. exists []. reflexivity.
  - apply can_download_all_or_ungoverned. right. vm_compute.
    intros H. repeat (apply elem_of_cons in H as [H | H]; [discriminate H|]).
    by apply elem_of_nil in H.
Defined.

(* ===================================================================== *)
(** * The checkpoint ([update_config]) *)
(* ===================================================================== *)

Section Checkpoint.
Context {C : Type} (X : Externals C).

(** The retry list that [update_config] computes. *)
Lemma update_config_written config chat (w : World C) :
  let config' :=
    set_ids_to_retry config
      (elements ((list_to_set (ids_to_retry config) : gset Z)
                   ∖ list_to_set (DOWNLOADED_IDS w)) ++ FAILED_IDS w) in
  yaml (update_config X config chat w).2 !! path_join (THIS_DIR X) "config.yaml"
    = Some config'
  ∧ ∀ c, (update_config X config chat w).1 = Ok c → c = config'.
Proof.
  intros config'. unfold update_config.
  cbv beta delta [bind get_world set_yaml emit ret makedirs set_fs] iota. simpl.
  destruct (forallb _ (lineage (path_join (DOWNLOADS_DIR X) chat))); simpl.
  - split; [|by intros ? [= <-]].
    destruct (decide (path_join (path_join (DOWNLOADS_DIR X) chat) "config.yaml"
                      = path_join (THIS_DIR X) "config.yaml")) as [-> | Hne];
      [by rewrite lookup_insert_eq | by rewrite lookup_insert_ne, lookup_insert_eq].
  - split; [apply lookup_insert_eq | by intros ? [=]].
Qed.

(** C2: the checkpoint written by [update_config] holds a retry list that,
    as a set, is the previous retry set minus the downloaded ids, plus the
    failed ids; the configuration handed back to the caller is the one
    written.  With previous retry set {5,7}, downloaded {5} and failed {9}
    the new retry set is {7,9}. *)
Theorem update_config_retry_set config chat (w : World C) :
  let R : gset Z := list_to_set (ids_to_retry config) in
  let D : gset Z := list_to_set (DOWNLOADED_IDS w) in
  let F : gset Z := list_to_set (FAILED_IDS w) in
  ∃ config',
    yaml (update_config X config chat w).2 !! path_join (THIS_DIR X) "config.yaml"
      = Some config'
    ∧ (∀ c, (update_config X config chat w).1 = Ok c → c = config')
    ∧ list_to_set (ids_to_retry config') = (R ∖ D) ∪ F
    ∧ (R = {[5; 7]} → D = {[5]} → F = {[9]} →
       list_to_set (ids_to_retry config') =@{gset Z} {[7; 9]}).
Proof.
  intros R D F. destruct (update_config_written config chat w) as [Hy Hr].
  eexists. split; [exact Hy|]. split; [exact Hr|].
  assert (list_to_set
            (elements ((list_to_set (ids_to_retry config) : gset Z)
                         ∖ list_to_set (DOWNLOADED_IDS w)) ++ FAILED_IDS w)
          =@{gset Z} (R ∖ D) ∪ F) as Heq.
  { rewrite list_to_set_app_L, list_to_set_elements_L. done. }
  split; [exact Heq|].
  intros HR HD HF. simpl. rewrite Heq, HR, HD, HF. set_solver.
Qed.
End Checkpoint.

Lemma update_config_retry_set_witness :
  ∃ config',
    yaml (update_config (Fixture.client_of Fixture.plain 0 (λ _, 600))
            (Fixture.config0 0 [5; 7]) "7"
            (mkWorld [9] [5] 0 ∅ ∅ 0%nat [])).2 !! "/app/config.yaml" = Some config'
    ∧ list_to_set (ids_to_retry config') =@{gset Z} {[7; 9]}.
Proof.
  destruct (update_config_retry_set (Fixture.client_of Fixture.plain 0 (λ _, 600))
              (Fixture.config0 0 [5; 7]) "7" (mkWorld [9] [5] 0 ∅ ∅ 0%nat []))
    as (config' & Hy & _ & _ & H).
  exists config'. split; [exact Hy|].
  apply H; apply set_eq; intros x; set_solver.
Defined.

(* ===================================================================== *)
(** * Fetching one message ([download_media]) *)
(* ===================================================================== *)

Section Fetch.
Context {C : Type} (X : Externals C).

(** C8: a message without media makes [download_media] return its id at
    once, on the first attempt; the world, and so the failed-id and the
    downloaded-id list, is left as it was. *)
Theorem download_media_no_media message media_types file_formats (w : World C) :
  m_media message = None →
  (download_media X message media_types file_formats w).1 = Ok (m_id message)
  ∧ FAILED_IDS (download_media X message media_types file_formats w).2 = FAILED_IDS w
  ∧ DOWNLOADED_IDS (download_media X message media_types file_formats w).2
    = DOWNLOADED_IDS w
  ∧ (download_media X message media_types file_formats w).2 = w.
Proof.
  intros H. unfold download_media. simpl. unfold try_except, try_block.
  rewrite H. by cbn.
Qed.

(** [_is_valid_file] rejects the empty file and nothing else. *)
Lemma is_valid_file_size path min_size n (w : World C) :
  fs w !! path = Some (File n) →
  (_is_valid_file X path min_size w).1 = Ok (negb (n =? 0))
  ∧ same_ids w (_is_valid_file X path min_size w).2
  ∧ fs (_is_valid_file X path min_size w).2 = fs w
  ∧ client (_is_valid_file X path min_size w).2 = client w
  ∧ TOTAL_FILES (_is_valid_file X path min_size w).2 = TOTAL_FILES w.
Proof.
  intros H. unfold _is_valid_file, bind, getsize. rewrite H.
  destruct (n =? 0); [by cbn|]. by destruct (n <? min_size).
Qed.

End Fetch.

Lemma download_media_no_media_witness :
  (download_media (Fixture.client_of Fixture.plain 0 (λ _, 600)) (Fixture.plain 7 3)
     ["photo"; "video"] ∅ Fixture.world0).1 = Ok 3
  ∧ (download_media (Fixture.client_of Fixture.plain 0 (λ _, 600)) (Fixture.plain 7 3)
       ["photo"; "video"] ∅ Fixture.world0).2 = Fixture.world0.
Proof.
  destruct (download_media_no_media (Fixture.client_of Fixture.plain 0 (λ _, 600))
              (Fixture.plain 7 3) ["photo"; "video"] ∅ Fixture.world0 eq_refl)
    as (H1 & _ & _ & H2).
  by split.
Defined.



(* ===================================================================== *)
(** * Retrying on the timeout signal *)
(* ===================================================================== *)

Section Timeout.
Context {C : Type} (X : Externals C).

(** Kinds the message does not carry are passed over. *)
Lemma for_types_absent message chat message_id file_formats pre rest (w : World C) :
  (∀ k, k ∈ pre → m_attrs message !! k = None) →
  for_types X message chat message_id file_formats (pre ++ rest) w
  = for_types X message chat message_id file_formats rest w.
Proof.
  induction pre as [|k pre IH]; intros H; [done|].
  simpl. unfold bind at 1. unfold download_type.
  rewrite (H k) by (apply elem_of_cons; by left). cbn.
  apply IH. intros k' Hk'. apply H. apply elem_of_cons. by right.
Qed.

(** [makedirs] succeeds exactly on a path that is [creatable]. *)
Lemma creatable_forallb dir f :
  forallb (λ q, negb (is_file f q)) (lineage dir) = true ↔ creatable dir f.
Proof.
  unfold creatable. rewrite forallb_forall, Forall_forall.
  split; intros H q Hq.
  - apply negb_true_iff, H. by apply list_elem_of_In.
  - apply negb_true_iff, H. by apply list_elem_of_In.
Qed.

(** What [ensure_dir] leaves at a path. *)
Lemma ensure_dir_at dir f q :
  ensure_dir dir f !! q
  = match f !! q with
    | Some n => Some n
    | None => if bool_decide (q ∈ lineage dir) then Some Dir else None
    end.
Proof.
  unfold ensure_dir. generalize (lineage dir) as l. intros l. revert f.
  induction l as [|a l IH]; intros f; simpl.
  - by destruct (f !! q).
  - rewrite IH. destruct (f !! a) as [n|] eqn:Ea.
    + destruct (f !! q) as [n'|] eqn:Eq; [done|].
      assert (q ≠ a) as Hne by congruence.
      destruct (bool_decide (q ∈ l)) eqn:El.
      * rewrite bool_decide_eq_true_2; [done|].
        apply elem_of_cons. right. by apply bool_decide_eq_true in El.
      * rewrite bool_decide_eq_false_2; [done|].
        apply bool_decide_eq_false in El. intros [?|?]%elem_of_cons; done.
    + destruct (decide (q = a)) as [->|Hne].
      * rewrite lookup_insert_eq, Ea.
        rewrite bool_decide_eq_true_2; [done | apply elem_of_cons; by left].
      * rewrite lookup_insert_ne by done.
        destruct (f !! q) as [n'|] eqn:Eq; [done|].
        destruct (bool_decide (q ∈ l)) eqn:El.
        -- rewrite bool_decide_eq_true_2; [done|].
           apply elem_of_cons. right. by apply bool_decide_eq_true in El.
        -- rewrite bool_decide_eq_false_2; [done|].
           apply bool_decide_eq_false in El. intros [?|?]%elem_of_cons; done.
Qed.

Lemma ensure_dir_idemp dir f : ensure_dir dir (ensure_dir dir f) = ensure_dir dir f.
Proof.
  apply map_eq. intros q. rewrite !ensure_dir_at.
  destruct (f !! q); [done|]. by destruct (bool_decide _).
Qed.

Lemma ensure_dir_lookup dir f q :
  is_file f q = false → is_file (ensure_dir dir f) q = false.
Proof.
  unfold is_file. rewrite ensure_dir_at.
  destruct (f !! q) as [[n|]|]; [done | done |]. by destruct (bool_decide _).
Qed.

Lemma ensure_dir_creatable dir dir' f :
  creatable dir f → creatable dir (ensure_dir dir' f).
Proof.
  unfold creatable. intros H. eapply Forall_impl; [exact H|].
  intros q. apply ensure_dir_lookup.
Qed.

Lemma is_exist_run path (w : World C) :
  _is_exist path w
  = (Ok (match fs w !! path with Some (File _) => true | _ => false end), w).
Proof.
  unfold _is_exist, bind, isdir, exists_, ret.
  destruct (fs w !! path) as [[n|]|] eqn:E; cbn; rewrite ?E; try done.
Qed.

Lemma makedirs_run dir (w : World C) :
  creatable dir (fs w) →
  makedirs dir w
  = (Ok tt, mkWorld (FAILED_IDS w) (DOWNLOADED_IDS w) (TOTAL_FILES w)
              (ensure_dir dir (fs w)) (yaml w) (client w) (trace w)).
Proof.
  intros H. unfold makedirs. by rewrite (proj2 (creatable_forallb dir (fs w)) H).
Qed.

Lemma makedirs_blocked dir (w : World C) :
  ¬ creatable dir (fs w) → makedirs dir w = (Raise OSError, w).
Proof.
  intros H. unfold makedirs.
  destruct (forallb _ (lineage dir)) eqn:E; [|done].
  by apply creatable_forallb in E.
Qed.

Lemma create_directories_run chat k (w : World C) :
  let dir := path_join (path_join (DOWNLOADS_DIR X) chat) k in
  creatable dir (fs w) →
  _create_directories X chat k w
  = (Ok dir, mkWorld (FAILED_IDS w) (DOWNLOADED_IDS w) (TOTAL_FILES w)
               (ensure_dir dir (fs w)) (yaml w) (client w) (trace w)).
Proof.
  intros dir H. unfold _create_directories, bind. fold dir.
  by rewrite (makedirs_run dir w H).
Qed.

(** One pass over a kind whose transfer raises [TypeError]. *)
Lemma download_type_timeout message chat file_formats k media fmt name (w : World C) :
  let dir := path_join (path_join (DOWNLOADS_DIR X) chat) k in
  let f1 := ensure_dir dir (fs w) in
  let p := target_path X f1 (path_join dir (str (m_id message) +:+ "_" +:+ name)) in
  m_attrs message !! k = Some media →
  media_file_name media k = Ok (fmt, name) →
  _can_download k file_formats fmt = Ok true →
  (∀ c f m q, ∃ c', client_download_media X c f m q = (Raise TypeError, c', f)) →
  creatable dir (fs w) →
  ∃ c',
    download_type X message chat (m_id message) file_formats k w
    = (Raise TypeError,
       mkWorld (FAILED_IDS w) (DOWNLOADED_IDS w) (TOTAL_FILES w) f1 (yaml w) c'
         (trace w ++ [EvTransfer (m_id message) p])).
Proof.
  intros dir f1 p Hk Hname Hcan Hraise Hdir.
  unfold download_type. rewrite Hk.
  unfold _get_media_meta. unfold bind at 1. unfold bind at 1. unfold lift at 1.
  rewrite Hname. unfold bind at 1.
  rewrite (create_directories_run chat k w Hdir). fold dir f1. cbn [fst snd ret].
  unfold bind at 1. unfold lift at 1. rewrite Hcan.
  unfold bind at 1. rewrite is_exist_run. cbn [fs].
  unfold download_media_call, get_next_name_call.
  destruct (Hraise (client w) f1 message p) as [c' Hc'].
  exists c'. unfold p, target_path in *.
  destruct (f1 !! path_join dir (str (m_id message) +:+ "_" +:+ name)) as [[n|]|];
    unfold bind, emit, ret;
    cbn [fs client trace FAILED_IDS DOWNLOADED_IDS TOTAL_FILES yaml];
    rewrite Hc'; reflexivity.
Qed.
(** One attempt on such a message: the [try] block raises [TypeError]
    after the transfer was called once; nothing was recorded. *)
Lemma try_block_timeout message media_types file_formats pre k post kind media fmt name
    (w : World C) :
  let chat := str (m_chat_id message) in
  let dir := path_join (path_join (DOWNLOADS_DIR X) chat) k in
  let f1 := ensure_dir dir (fs w) in
  let p := target_path X f1 (path_join dir (str (m_id message) +:+ "_" +:+ name)) in
  m_media message = Some kind →
  media_types = pre ++ k :: post →
  (∀ k', k' ∈ pre → m_attrs message !! k' = None) →
  m_attrs message !! k = Some media →
  media_file_name media k = Ok (fmt, name) →
  _can_download k file_formats fmt = Ok true →
  (∀ c f m q, ∃ c', client_download_media X c f m q = (Raise TypeError, c', f)) →
  creatable dir (fs w) →
  ∃ c',
    try_block X message chat (m_id message) media_types file_formats w
    = (Raise TypeError,
       mkWorld (FAILED_IDS w) (DOWNLOADED_IDS w) (TOTAL_FILES w) f1 (yaml w) c'
         (trace w ++ [EvTransfer (m_id message) p])).
Proof.
  intros chat dir f1 p Hm -> Hpre Hk Hname Hcan Hraise Hdir.
  destruct (download_type_timeout message chat file_formats k media fmt name w
              Hk Hname Hcan Hraise Hdir) as [c' Hc'].
  exists c'. unfold try_block. rewrite Hm. unfold bind at 1.
  rewrite for_types_absent by done. simpl for_types. unfold bind at 1.
  fold chat. by rewrite Hc'.
Qed.

(** The whole run on such a message. *)
Lemma download_media_timeout_run message media_types file_formats pre k post kind media
    fmt name (w : World C) :
  let i := m_id message in
  let dir := path_join (path_join (DOWNLOADS_DIR X) (str (m_chat_id message))) k in
  let p := target_path X (ensure_dir dir (fs w))
             (path_join dir (str i +:+ "_" +:+ name)) in
  m_media message = Some kind →
  media_types = pre ++ k :: post →
  (∀ k', k' ∈ pre → m_attrs message !! k' = None) →
  m_attrs message !! k = Some media →
  media_file_name media k = Ok (fmt, name) →
  _can_download k file_formats fmt = Ok true →
  (∀ c f m q, ∃ c', client_download_media X c f m q = (Raise TypeError, c', f)) →
  creatable dir (fs w) →
  ∃ c',
    download_media X message media_types file_formats w
    = (Ok i,
       mkWorld (FAILED_IDS w ++ [i]) (DOWNLOADED_IDS w) (TOTAL_FILES w)
         (ensure_dir dir (fs w)) (yaml w) c'
         (trace w ++ [EvTransfer i p; EvSleep 5;
                      EvTransfer i p; EvSleep 5;
                      EvTransfer i p; EvSleep 5;
                      EvLog (LogTimeout i)])).
Proof.
  intros i dir p Hm Hmt Hpre Hk Hname Hcan Hraise Hdir.
  pose proof (ensure_dir_idemp dir (fs w)) as Hid.
  pose proof (ensure_dir_creatable dir dir (fs w) Hdir) as Hok.
  pose proof (λ w', try_block_timeout message media_types file_formats pre k post kind
                      media fmt name w' Hm Hmt Hpre Hk Hname Hcan Hraise) as Htry.
  cbv zeta in Htry. fold dir i in Htry.
  unfold download_media. fold i. cbn [attempts].
  (* first attempt *)
  unfold try_except at 1.
  destruct (Htry w Hdir) as [c1 ->]. fold p.
  unfold bind at 1. unfold sleep at 1, emit at 1. cbn [trace FAILED_IDS DOWNLOADED_IDS
    TOTAL_FILES fs yaml client]. unfold bind at 1. cbn [Z.eqb Pos.eqb ret].
  (* second attempt *)
  unfold try_except at 1.
  match goal with |- context [try_block _ _ _ _ _ _ ?w1] =>
    destruct (Htry w1) as [c2 ->]; [exact Hok|] end.
  cbn [fs trace FAILED_IDS DOWNLOADED_IDS TOTAL_FILES yaml client]. rewrite Hid. fold p.
  unfold bind at 1. unfold sleep at 1, emit at 1. cbn [trace FAILED_IDS DOWNLOADED_IDS
    TOTAL_FILES fs yaml client]. unfold bind at 1. cbn [Z.eqb Pos.eqb ret].
  (* third attempt *)
  unfold try_except at 1.
  match goal with |- context [try_block _ _ _ _ _ _ ?w1] =>
    destruct (Htry w1) as [c3 ->]; [exact Hok|] end.
  cbn [fs trace FAILED_IDS DOWNLOADED_IDS TOTAL_FILES yaml client]. rewrite Hid. fold p.
  exists c3. cbn. rewrite <- !app_assoc. by cbn.
Qed.

(** C1: take a message with media whose first configured kind present on
    it passes the format filter, a file system in which the directory of
    that kind can be made (no regular file sits at its path or at the
    path of one of its ancestors), and a client whose transfer raises
    [TypeError] on every call (leaving the files as they were).  Then
    [download_media] calls the transfer exactly three times, sleeps 5 after
    each failed attempt, reports the timeout, returns the id, and has
    appended the id to the failed ids exactly once and nothing to the
    downloaded ids. *)
Theorem download_media_timeout message media_types file_formats pre k post kind media
    fmt name (w : World C) :
  let i := m_id message in
  let dir := path_join (path_join (DOWNLOADS_DIR X) (str (m_chat_id message))) k in
  let p := target_path X (ensure_dir dir (fs w))
             (path_join dir (str i +:+ "_" +:+ name)) in
  m_media message = Some kind →
  media_types = pre ++ k :: post →
  (∀ k', k' ∈ pre → m_attrs message !! k' = None) →
  m_attrs message !! k = Some media →
  media_file_name media k = Ok (fmt, name) →
  _can_download k file_formats fmt = Ok true →
  (∀ c f m q, ∃ c', client_download_media X c f m q = (Raise TypeError, c', f)) →
  creatable dir (fs w) →
  (download_media X message media_types file_formats w).1 = Ok i
  ∧ trace (download_media X message media_types file_formats w).2
    = trace w ++ [EvTransfer i p; EvSleep 5;
                  EvTransfer i p; EvSleep 5;
                  EvTransfer i p; EvSleep 5;
                  EvLog (LogTimeout i)]
  ∧ FAILED_IDS (download_media X message media_types file_formats w).2
    = FAILED_IDS w ++ [i]
  ∧ DOWNLOADED_IDS (download_media X message media_types file_formats w).2
    = DOWNLOADED_IDS w.
Proof.
  intros i dir p Hm Hmt Hpre Hk Hname Hcan Hraise Hdir.
  destruct (download_media_timeout_run message media_types file_formats pre k post kind
              media fmt name w Hm Hmt Hpre Hk Hname Hcan Hraise Hdir) as [c' ->].
  by repeat split.
Qed.
End Timeout.

Lemma download_media_timeout_witness :
  let r := download_media Fixture.timing_out (Fixture.photo 7 3) ["video"; "photo"] ∅
             Fixture.world0 in
  r.1 = Ok 3
  ∧ FAILED_IDS r.2 = [3]
  ∧ DOWNLOADED_IDS r.2 = []
  ∧ omap (λ e, match e with EvSleep n => Some n | _ => None end) (trace r.2) = [5; 5; 5].
Proof.
  destruct (download_media_timeout Fixture.timing_out (Fixture.photo 7 3)
              ["video"; "photo"] ∅ ["video"] "photo" [] "photo"
              (mkMedia None None (Some "2024-01-01T00:00:00")) None
              "photo_2024-01-01T00_00_00.jpg" Fixture.world0)
    as (H1 & H2 & H3 & H4).
  - reflexivity.
  - reflexivity.
  - intros k' Hk'. apply list_elem_of_singleton in Hk'. by subst k'.
  - reflexivity.
  - reflexivity.
  - reflexivity.
  - intros c f m q. by exists (S c).
  - apply creatable_forallb. vm_compute. reflexivity.
  - cbv zeta. rewrite H1, H2, H3, H4. by repeat split.
Defined.

(** When a regular file sits where the directory of the chat should be,
    the directory of the kind cannot be made: [os.makedirs] raises, the
    handler for [Exception] records the failure, and the transfer is
    never called. *)
Example download_media_blocked :
  let w := mkWorld [] [] 0 {[ "/app/downloads/7" := File 12 ]} ∅ 0%nat [] in
  let r := download_media Fixture.timing_out (Fixture.photo 7 3) ["video"; "photo"] ∅ w in
  ¬ creatable "/app/downloads/7/photo" (fs w)
  ∧ r.1 = Ok 3
  ∧ FAILED_IDS r.2 = [3]
  ∧ trace r.2 = [EvLog (LogException 3 OSError)].
Proof.
  split; [|vm_compute; done].
  intros H%creatable_forallb. vm_compute in H. discriminate H.
Qed.



(* ===================================================================== *)
(** * Coroutines: running alone, and among other tasks *)
(* ===================================================================== *)

Section Alone.
Context {C : Type}.

Lemma run_atomic {A} (m : M C A) w : run (atomic m) w = m w.
Proof. unfold run, atomic. simpl. by destruct (m w). Qed.

Lemma run_await {A} (m : M C A) w : run (await m) w = m w.
Proof. unfold run, await. simpl. by destruct (m w). Qed.

Lemma finish_bind_step {A B} (s : step C A) (k : A → Co C B) :
  finish_step (bind_step s k)
  = match finish_step s with
    | (Ok a, w) => run (k a) w
    | (Raise e, w) => (Raise e, w)
    end.
Proof. induction s as [[a|e] w | c IH w]; simpl; [done | done | apply IH]. Qed.

Lemma run_bind {A B} (m : Co C A) (k : A → Co C B) w :
  run (co_bind m k) w = bind (run m) (λ a, run (k a)) w.
Proof. unfold run, co_bind, bind. by rewrite finish_bind_step. Qed.

Lemma finish_try_step {A B} (s : step C A) (k : A → Co C B) (h : exn → Co C B) :
  finish_step (try_step s k h)
  = match finish_step s with
    | (Ok a, w) => run (k a) w
    | (Raise e, w) => run (h e) w
    end.
Proof. induction s as [[a|e] w | c IH w]; simpl; [done | done | apply IH]. Qed.

Lemma run_try {A B} (m : Co C A) (k : A → Co C B) (h : exn → Co C B) w :
  run (co_try m k h) w = try_except (run m) (λ a, run (k a)) (λ e, run (h e)) w.
Proof. unfold run, co_try, try_except. by rewrite finish_try_step. Qed.

Lemma bind_ext {A B} (m m' : M C A) (k k' : A → M C B) w :
  (∀ w, m w = m' w) → (∀ a w, k a w = k' a w) → bind m k w = bind m' k' w.
Proof. intros Hm Hk. unfold bind. rewrite Hm. by destruct (m' w) as [[a|e] w']. Qed.

Lemma try_except_ext {A B} (m m' : M C A) (k k' : A → M C B) (h h' : exn → M C B) w :
  (∀ w, m w = m' w) → (∀ a w, k a w = k' a w) → (∀ e w, h e w = h' e w) →
  try_except m k h w = try_except m' k' h' w.
Proof.
  intros Hm Hk Hh. unfold try_except. rewrite Hm. by destruct (m' w) as [[a|e] w'].
Qed.
End Alone.

Section AloneDownload.
Context {C : Type} (X : Externals C).

Lemma download_type_alone message chat i file_formats k (w : World C) :
  run (Async.download_type X message chat i file_formats k) w
  = download_type X message chat i file_formats k w.
Proof.
  unfold Async.download_type, download_type.
  destruct (m_attrs message !! k) as [media|]; [|apply run_atomic].
  rewrite run_bind. apply bind_ext; [apply run_atomic|]. intros meta w1.
  rewrite run_bind. apply bind_ext; [apply run_atomic|]. intros can w2.
  destruct can; [|apply run_atomic].
  rewrite run_bind. apply bind_ext; [apply run_atomic|]. intros taken w3.
  rewrite run_bind. apply bind_ext; [apply run_atomic|]. intros name w4.
  rewrite run_bind. apply bind_ext; [apply run_await|]. intros path w5.
  apply run_atomic.
Qed.

Lemma for_types_alone message chat i file_formats kinds (w : World C) :
  run (Async.for_types X message chat i file_formats kinds) w
  = for_types X message chat i file_formats kinds w.
Proof.
  revert w. induction kinds as [|k kinds IH]; intros w; simpl; [apply run_atomic|].
  rewrite run_bind. apply bind_ext; [apply download_type_alone | intros _; apply IH].
Qed.

Lemma try_block_alone message chat i kinds file_formats (w : World C) :
  run (Async.try_block X message chat i kinds file_formats) w
  = try_block X message chat i kinds file_formats w.
Proof.
  unfold Async.try_block, try_block. destruct (m_media message); [|apply run_atomic].
  rewrite run_bind. apply bind_ext; [apply for_types_alone | intros _; apply run_atomic].
Qed.

Lemma attempts_alone retries message chat i kinds file_formats (w : World C) :
  run (Async.attempts X retries message chat i kinds file_formats) w
  = attempts X retries message chat i kinds file_formats w.
Proof.
  revert message w. induction retries as [|retry retries IH]; intros message w; simpl;
    [apply run_atomic|].
  rewrite run_try. apply try_except_ext.
  - apply try_block_alone.
  - intros [v|] w1; apply run_atomic.
  - intros e w1. destruct e; try apply run_atomic.
    + rewrite run_bind. apply bind_ext; [apply run_await|]. intros message' w2.
      rewrite run_bind. apply bind_ext; [apply run_atomic | intros _; apply IH].
    + rewrite run_bind. apply bind_ext; [apply run_await|]. intros _ w2.
      rewrite run_bind. apply bind_ext; [apply run_atomic | intros _; apply IH].
Qed.

(** The functions of the section on lines 222-310 follow the coroutine
    when nothing else runs in between. *)
Lemma download_media_alone message kinds file_formats (w : World C) :
  run (Async.download_media X message kinds file_formats) w
  = download_media X message kinds file_formats w.
Proof. apply attempts_alone. Qed.
End AloneDownload.

(* ===================================================================== *)
(** * A logic for coroutines *)
(* ===================================================================== *)

Section CoLogic.
Context {C G : Type} (R : G → G → relation (World C)).
Hypothesis R_refl : ∀ g w, R g g w w.
Hypothesis R_trans :
  ∀ g1 g2 g3 w1 w2 w3, R g1 g2 w1 w2 → R g2 g3 w2 w3 → R g1 g3 w1 w3.

(** A stretch may be counted from an earlier start. *)
Lemma safe_prefix {A} (S : result A → G → Prop) (s : step C A) g g' w0 w :
  R g g' w0 w → safe R S s g' w → safe R S s g w0.
Proof.
  intros H. destruct s as [r w1 | k w1]; simpl; intros (g'' & H' & HS);
    exists g''; split; eauto.
Qed.

Lemma safe_weaken {A} (S S' : result A → G → Prop) (s : step C A) g w0 :
  (∀ r g, S r g → S' r g) → safe R S s g w0 → safe R S' s g w0.
Proof.
  intros HS. revert g w0. induction s as [r w | k IH w]; simpl; intros g w0.
  - intros (g' & H & Hr). eauto.
  - intros (g' & H & Hk). exists g'. split; [done|]. intros w1. apply IH, Hk.
Qed.

Lemma co_safe_weaken {A} (S S' : result A → G → Prop) (c : Co C A) g :
  co_safe R S c g → (∀ r g, S r g → S' r g) → co_safe R S' c g.
Proof. intros Hc HS w. eapply safe_weaken; [exact HS | apply Hc]. Qed.

Lemma co_safe_atomic {A} (S : result A → G → Prop) (m : M C A) g :
  (∀ w, ∃ g', R g g' w (m w).2 ∧ S (m w).1 g') → co_safe R S (atomic m) g.
Proof.
  intros H w. specialize (H w). unfold atomic. by destruct (m w).
Qed.

Lemma co_safe_await {A} (S : result A → G → Prop) (m : M C A) g :
  (∀ w, ∃ g', R g g' w (m w).2 ∧ S (m w).1 g') → co_safe R S (await m) g.
Proof.
  intros H w. simpl. exists g. split; [apply R_refl|]. intros w1.
  destruct (H w1) as (g' & HR & HS). destruct (m w1) as [r w']. simpl.
  exists g'. split; [done|]. intros w2.
  exists g'. split; [apply R_refl | done].
Qed.

Lemma safe_bind {A B} (S1 : result A → G → Prop) (S2 : result B → G → Prop)
    (s : step C A) (k : A → Co C B) g w0 :
  safe R S1 s g w0 →
  (∀ a g1, S1 (Ok a) g1 → co_safe R S2 (k a) g1) →
  (∀ e g1, S1 (Raise e) g1 → S2 (Raise e) g1) →
  safe R S2 (bind_step s k) g w0.
Proof.
  intros Hs Hk He. revert g w0 Hs.
  induction s as [[a|e] w | c IH w]; simpl; intros g w0 (g' & HR & HS).
  - eapply safe_prefix; [exact HR|]. by apply Hk.
  - exists g'. split; [done | by apply He].
  - exists g'. split; [done|]. intros w1. apply IH, HS.
Qed.

Lemma co_safe_bind {A B} (S1 : result A → G → Prop) (S2 : result B → G → Prop)
    (m : Co C A) (k : A → Co C B) g :
  co_safe R S1 m g →
  (∀ a g1, S1 (Ok a) g1 → co_safe R S2 (k a) g1) →
  (∀ e g1, S1 (Raise e) g1 → S2 (Raise e) g1) →
  co_safe R S2 (co_bind m k) g.
Proof. intros Hm Hk He w. eapply safe_bind; [apply Hm | done | done]. Qed.

Lemma safe_try {A B} (S1 : result A → G → Prop) (S2 : result B → G → Prop)
    (s : step C A) (k : A → Co C B) (h : exn → Co C B) g w0 :
  safe R S1 s g w0 →
  (∀ a g1, S1 (Ok a) g1 → co_safe R S2 (k a) g1) →
  (∀ e g1, S1 (Raise e) g1 → co_safe R S2 (h e) g1) →
  safe R S2 (try_step s k h) g w0.
Proof.
  intros Hs Hk Hh. revert g w0 Hs.
  induction s as [[a|e] w | c IH w]; simpl; intros g w0 (g' & HR & HS).
  - eapply safe_prefix; [exact HR|]. by apply Hk.
  - eapply safe_prefix; [exact HR|]. by apply Hh.
  - exists g'. split; [done|]. intros w1. apply IH, HS.
Qed.

Lemma co_safe_try {A B} (S1 : result A → G → Prop) (S2 : result B → G → Prop)
    (m : Co C A) (k : A → Co C B) (h : exn → Co C B) g :
  co_safe R S1 m g →
  (∀ a g1, S1 (Ok a) g1 → co_safe R S2 (k a) g1) →
  (∀ e g1, S1 (Raise e) g1 → co_safe R S2 (h e) g1) →
  co_safe R S2 (co_try m k h) g.
Proof. intros Hm Hk Hh w. eapply safe_try; [apply Hm | done | done]. Qed.

(** Run to its end on its own, a coroutine moves along [R]. *)
Lemma safe_finish {A} (S : result A → G → Prop) (s : step C A) g w0 :
  safe R S s g w0 →
  ∃ g', R g g' w0 (finish_step s).2 ∧ S (finish_step s).1 g'.
Proof.
  revert g w0. induction s as [r w | c IH w]; simpl; intros g w0 (g' & HR & HS).
  - eauto.
  - destruct (IH w g' w (HS w)) as (g'' & HR' & HS'). eauto.
Qed.

(** ** The tasks of a batch *)

Section Pool.
Context {A : Type} (S : result A → G → Prop) (Inv : list G → World C → Prop).
Hypothesis Inv_step :
  ∀ gs1 g gs2 g' w w',
    R g g' w w' → Inv (gs1 ++ g :: gs2) w → Inv (gs1 ++ g' :: gs2) w'.

(** The first exception is the result of a task. *)
Definition err_of (ts : list (task C A)) (err : option exn) : Prop :=
  ∀ e, err = Some e → ∃ j, ts !! j = Some (Finished (Raise e)).

Lemma resume_safe n ts err gs w :
  Forall2 (task_safe R S) ts gs → Inv gs w → err_of ts err →
  ∃ gs',
    List.length gs' = List.length gs
    ∧ Forall2 (task_safe R S) (resume n ts err w).1.1 gs'
    ∧ Inv gs' (resume n ts err w).2
    ∧ err_of (resume n ts err w).1.1 (resume n ts err w).1.2.
Proof.
  intros Hts HI He. unfold resume.
  destruct (ts !! n) as [[c|r]|] eqn:E; [|by exists gs | by exists gs].
  destruct (Forall2_lookup_l _ _ _ _ _ Hts E) as (g & Eg & Hc). simpl in Hc.
  assert (n < List.length gs)%nat as Hn by (by eapply lookup_lt_Some).
  assert (∀ g' w', R g g' w w' → Inv (<[n := g']> gs) w') as Hstep.
  { intros g' w' HR. rewrite (insert_take_drop gs n g' Hn).
    eapply Inv_step; [exact HR|]. by rewrite take_drop_middle. }
  assert (∀ t e, err = Some e → ∃ j, <[n := t]> ts !! j = Some (Finished (Raise e)))
    as Hkeep.
  { intros t e Herr. destruct (He e Herr) as [j Hj]. exists j.
    rewrite list_lookup_insert_ne; [done|]. intros ->. congruence. }
  specialize (Hc w). destruct (c w) as [r w' | k w']; simpl in Hc;
    destruct Hc as (g' & HR & HS); exists (<[n := g']> gs); simpl.
  - split; [apply length_insert|].
    split; [by apply Forall2_insert|]. split; [by apply Hstep|].
    intros e Herr. destruct err as [e0|]; [by apply Hkeep|].
    destruct r as [a|e']; [done|]. injection Herr as <-. exists n.
    apply list_lookup_insert_eq. by eapply lookup_lt_Some.
  - split; [apply length_insert|].
    split; [by apply Forall2_insert|]. split; [by apply Hstep|].
    intros e Herr. by apply Hkeep.
Qed.

Lemma run_schedule_safe schedule ts err gs w :
  Forall2 (task_safe R S) ts gs → Inv gs w → err_of ts err →
  ∃ gs',
    List.length gs' = List.length gs
    ∧ Forall2 (task_safe R S) (run_schedule schedule ts err w).1.1 gs'
    ∧ Inv gs' (run_schedule schedule ts err w).2
    ∧ err_of (run_schedule schedule ts err w).1.1 (run_schedule schedule ts err w).1.2.
Proof.
  revert ts err gs w. induction schedule as [|n rest IH]; intros ts err gs w Hts HI He;
    simpl; [by exists gs|].
  destruct (resume_safe n ts err gs w Hts HI He) as (gs1 & Hl1 & Hts1 & HI1 & He1).
  destruct (resume n ts err w) as [[ts1 err1] w1]. simpl in *.
  destruct (IH ts1 err1 gs1 w1 Hts1 HI1 He1) as (gs2 & Hl2 & H).
  exists gs2. split; [congruence | done].
Qed.

Lemma finish_safe ts gs1 gs2 w :
  Forall2 (task_safe R S) ts gs2 → Inv (gs1 ++ gs2) w →
  ∃ gs2',
    List.length gs2' = List.length gs2
    ∧ Inv (gs1 ++ gs2') (finish ts w).2
    ∧ match (finish ts w).1 with
      | Ok l => Forall2 (λ a g, S (Ok a) g) l gs2'
      | Raise e => ∃ g, g ∈ gs2' ∧ S (Raise e) g
      end.
Proof.
  intros Hts. revert gs1 w.
  induction Hts as [|t g ts gs2 Ht Hts IH]; intros gs1 w HI.
  - exists []. simpl. split; [done|]. split; [done | constructor].
  - set (m := match t with Running c => run c | Finished r => lift r end).
    assert (∃ g', R g g' w (m w).2 ∧ S (m w).1 g') as (g' & HR & HS).
    { unfold m. destruct t as [c|r]; simpl in Ht.
      - apply safe_finish, Ht.
      - exists g. split; [apply R_refl | done]. }
    pose proof (Inv_step gs1 g gs2 g' _ _ HR HI) as HI'.
    assert (finish (t :: ts) w
            = match m w with
              | (Ok a, w1) =>
                  match finish ts w1 with
                  | (Ok l, w2) => (Ok (a :: l), w2)
                  | (Raise e, w2) => (Raise e, w2)
                  end
              | (Raise e, w1) => (Raise e, w1)
              end) as ->.
    { simpl. unfold bind. fold m. destruct (m w) as [[a|e] w1]; [|done].
      by destruct (finish ts w1) as [[l|e] w2]. }
    destruct (m w) as [[a|e] w1]; simpl in HR, HS, HI'.
    + replace (gs1 ++ g' :: gs2) with ((gs1 ++ [g']) ++ gs2) in HI'
        by (by rewrite <- app_assoc).
      destruct (IH (gs1 ++ [g']) w1 HI') as (gs2' & Hlen & HI2 & Hres).
      exists (g' :: gs2').
      destruct (finish ts w1) as [[l|e] w2]; simpl in *.
      * split; [by rewrite Hlen|]. split; [by rewrite <- app_assoc in HI2|].
        by apply Forall2_cons.
      * split; [by rewrite Hlen|]. split; [by rewrite <- app_assoc in HI2|].
        destruct Hres as (g0 & Hin & HS0). exists g0. split; [|done].
        apply elem_of_cons. by right.
    + exists (g' :: gs2). split; [done|]. split; [done|].
      exists g'. split; [apply elem_of_cons; by left | done].
Qed.
End Pool.

Section Batch.
Context (X : Externals C) (S : result Z → G → Prop) (Inv : list G → World C → Prop).
Hypothesis Inv_step :
  ∀ gs1 g gs2 g' w w',
    R g g' w w' → Inv (gs1 ++ g :: gs2) w → Inv (gs1 ++ g' :: gs2) w'.

(** Whatever the schedule: when every download of the batch is safe,
    the batch keeps the invariant, and its result is made of results of
    the downloads. *)
Lemma gather_safe messages kinds file_formats (g0 : Message → G) (w : World C) :
  (∀ message, message ∈ messages →
     co_safe R S (Async.download_media X message kinds file_formats) (g0 message)) →
  Inv (g0 <$> messages) w →
  ∃ gs,
    List.length gs = List.length messages
    ∧ Inv gs (gather X messages kinds file_formats w).2
    ∧ match (gather X messages kinds file_formats w).1 with
      | Ok ids => Forall2 (λ a g, S (Ok a) g) ids gs
      | Raise e => ∃ g, g ∈ gs ∧ S (Raise e) g
      end.
Proof.
  intros Hsafe HI. unfold gather.
  set (ts := (λ message, Running (Async.download_media X message kinds file_formats))
               <$> messages).
  assert (Forall2 (task_safe R S) ts (g0 <$> messages)) as Hts.
  { unfold ts. apply Forall2_fmap, Forall_Forall2_diag, Forall_forall. exact Hsafe. }
  destruct (run_schedule_safe S Inv Inv_step
              (loop_schedule X (client w) (List.length messages)) ts None
              (g0 <$> messages) w Hts HI) as (gs1 & Hl1 & Hts1 & HI1 & He1);
    [done|].
  rewrite length_fmap in Hl1.
  destruct (run_schedule _ ts None w) as [[ts1 [e|]] w1]; simpl in *.
  - exists gs1. split; [done|]. split; [done|].
    destruct (He1 e eq_refl) as [j Hj].
    destruct (Forall2_lookup_l _ _ _ _ _ Hts1 Hj) as (g & Hg & HS).
    exists g. split; [by eapply list_elem_of_lookup_2 | done].
  - destruct (finish_safe S Inv Inv_step ts1 [] gs1 w1 Hts1 HI1)
      as (gs2 & Hl2 & HI2 & Hres).
    exists gs2. split; [congruence | done].
Qed.
End Batch.
End CoLogic.

Section Plain.
Context {C : Type} (R : relation (World C)) `{!PreOrder R}.

Lemma co_steps_atomic {A} (m : M C A) (S : A → Prop) :
  steps R m S → co_steps R (atomic m).
Proof. intros H. apply co_safe_atomic. intros w. exists tt. split; [apply H | done]. Qed.

Lemma co_steps_await {A} (m : M C A) (S : A → Prop) :
  steps R m S → co_steps R (await m).
Proof.
  intros H. apply co_safe_await; [intros; reflexivity|].
  intros w. exists tt. split; [apply H | done].
Qed.

Lemma co_steps_bind {A B} (m : Co C A) (k : A → Co C B) :
  co_steps R m → (∀ a, co_steps R (k a)) → co_steps R (co_bind m k).
Proof.
  intros Hm Hk. eapply co_safe_bind; [intros; by etrans | exact Hm | |done].
  intros a [] _. apply Hk.
Qed.

Lemma co_steps_try {A B} (m : Co C A) (k : A → Co C B) (h : exn → Co C B) :
  co_steps R m → (∀ a, co_steps R (k a)) → (∀ e, co_steps R (h e)) →
  co_steps R (co_try m k h).
Proof.
  intros Hm Hk Hh. eapply co_safe_try; [intros; by etrans | exact Hm | |].
  - intros a [] _. apply Hk.
  - intros e [] _. apply Hh.
Qed.

(** A batch of downloads that move along [R] moves along [R], whatever
    the schedule. *)
Lemma gather_steps (X : Externals C) messages kinds file_formats :
  (∀ message, co_steps R (Async.download_media X message kinds file_formats)) →
  steps R (gather X messages kinds file_formats) (λ _, True).
Proof.
  intros H w. split; [|done].
  destruct (gather_safe (λ _ _ : unit, R)) with
    (X := X) (S := λ (_ : result Z) (_ : unit), True) (Inv := λ (_ : list unit) w', R w w')
    (messages := messages) (kinds := kinds) (file_formats := file_formats)
    (g0 := λ _ : Message, tt) (w := w) as (gs & _ & HI & _).
  - intros; reflexivity.
  - intros; by etrans.
  - intros; by etrans.
  - intros message _. apply H.
  - reflexivity.
  - exact HI.
Qed.
End Plain.

Ltac co_structure :=
  repeat first
    [ apply co_steps_atomic with (S := λ _, True);
        first [typeclasses eauto | solve [step_structure]]
    | apply co_steps_await with (S := λ _, True);
        first [typeclasses eauto | solve [step_structure]]
    | solve [eauto with steps]
    | apply co_steps_bind; [typeclasses eauto | | intros ?]
    | apply co_steps_try; [typeclasses eauto | | intros ? | intros ?]
    | match goal with
      | |- co_steps _ (match ?x with _ => _ end) => destruct x
      | |- co_steps _ (if ?b then _ else _) => destruct b
      end ].

(** Without a claim on the world or on the result, every coroutine is
    safe. *)
Lemma co_safe_trivial {C A} (c : Co C A) :
  co_safe (λ _ _ : unit, λ _ _, True) (λ _ _, True) c tt.
Proof.
  intros w. generalize w at 2. induction (c w) as [r w1 | k IH w1]; intros w0; simpl.
  - by exists tt.
  - exists tt. split; [done|]. intros w2. apply IH.
Qed.

(* ===================================================================== *)
(** * Batches ([process_messages], [begin_import]) *)
(* ===================================================================== *)

Section Batches.
Context {C : Type} (X : Externals C).

(** ** What the trace gains

    [P] is any property of events that holds of every event but the start
    of a batch. *)
Section Silent.
Context (P : event → Prop) (HP : ∀ e, not_gather e → P e).

Local Abbreviation silently := (steps (C:=C) (extends P)).

Lemma log_start_end_trace action : silently (log_start_end action) (λ _, True).
Proof. unfold log_start_end, log. step_structure. Qed.

Lemma get_media_meta_trace media k chat i :
  silently (_get_media_meta X media k chat i) (λ _, True).
Proof. unfold _get_media_meta, _create_directories. step_structure. Qed.

Lemma is_exist_trace path : silently (_is_exist path) (λ _, True).
Proof. unfold _is_exist. step_structure. Qed.

Lemma is_valid_file_trace path min_size :
  silently (_is_valid_file X path min_size) (λ _, True).
Proof. unfold _is_valid_file, log. step_structure. Qed.

Lemma check_download_trace path chat i :
  silently (check_download X path chat i) (λ _, True).
Proof.
  pose proof is_valid_file_trace.
  unfold check_download, log. step_structure.
Qed.

Lemma download_type_trace message chat i file_formats k :
  silently (download_type X message chat i file_formats k) (λ _, True).
Proof.
  pose proof get_media_meta_trace. pose proof is_exist_trace.
  pose proof check_download_trace.
  unfold download_type, download_media_call. step_structure.
Qed.

Lemma for_types_trace message chat i file_formats kinds :
  silently (for_types X message chat i file_formats kinds) (λ _, True).
Proof.
  pose proof download_type_trace.
  induction kinds as [|k kinds IH]; simpl; step_structure.
Qed.

Lemma try_block_trace message chat i kinds file_formats :
  silently (try_block X message chat i kinds file_formats) (λ _, True).
Proof.
  pose proof for_types_trace. unfold try_block. step_structure.
Qed.

Lemma attempts_trace retries message chat i kinds file_formats :
  silently (attempts X retries message chat i kinds file_formats) (λ _, True).
Proof.
  pose proof try_block_trace.
  revert message. induction retries as [|retry retries IH]; intros message; simpl.
  - step_structure.
  - unfold get_message_call, sleep, log. step_structure.
Qed.

Lemma download_media_trace message kinds file_formats :
  silently (download_media X message kinds file_formats) (λ _, True).
Proof. apply attempts_trace. Qed.

(** The same for the coroutine, stretch by stretch. *)
Local Abbreviation co_silently := (co_steps (C:=C) (extends P)).

Lemma download_type_co_trace message chat i file_formats k :
  co_silently (Async.download_type X message chat i file_formats k).
Proof.
  pose proof get_media_meta_trace. pose proof is_exist_trace.
  pose proof check_download_trace.
  unfold Async.download_type, download_media_call. co_structure.
Qed.

Lemma for_types_co_trace message chat i file_formats kinds :
  co_silently (Async.for_types X message chat i file_formats kinds).
Proof.
  pose proof download_type_co_trace.
  induction kinds as [|k kinds IH]; simpl; co_structure.
Qed.

Lemma try_block_co_trace message chat i kinds file_formats :
  co_silently (Async.try_block X message chat i kinds file_formats).
Proof. pose proof for_types_co_trace. unfold Async.try_block. co_structure. Qed.

Lemma attempts_co_trace retries message chat i kinds file_formats :
  co_silently (Async.attempts X retries message chat i kinds file_formats).
Proof.
  pose proof try_block_co_trace.
  revert message. induction retries as [|retry retries IH]; intros message; simpl.
  - co_structure.
  - unfold get_message_call, sleep, log. co_structure.
Qed.

(** So a batch gains events of [P] only, whatever the schedule. *)
Lemma gather_trace messages kinds file_formats :
  silently (gather X messages kinds file_formats) (λ _, True).
Proof.
  apply gather_steps; [typeclasses eauto|]. intros message. apply attempts_co_trace.
Qed.

(** A batch adds its own start, and otherwise events of [P]. *)
Lemma process_messages_trace messages kinds file_formats :
  P (EvGather (m_id <$> messages)) →
  silently (process_messages X messages kinds file_formats) (λ _, True).
Proof.
  intros Hne. pose proof gather_trace. unfold process_messages.
  apply steps_bind with (S1 := λ _, True);
    [typeclasses eauto | | intros ? _; step_structure].
  by apply extends_emit.
Qed.

Lemma update_config_trace config chat :
  silently (update_config X config chat) (λ _, True).
Proof. unfold update_config. step_structure. Qed.
End Silent.

Local Abbreviation quietly := (steps (C:=C) (extends nonempty_gather)).

Lemma nonempty_of_not_gather e : not_gather e → nonempty_gather e.
Proof. by destruct e. Qed.

(** [max] of a non-empty list is one of its elements and bounds them all. *)
Lemma fold_max_spec (l : list Z) (x : Z) :
  (fold_left Z.max l x = x ∨ fold_left Z.max l x ∈ l)
  ∧ x ≤ fold_left Z.max l x
  ∧ ∀ y, y ∈ l → y ≤ fold_left Z.max l x.
Proof.
  revert x. induction l as [|a l IH]; intros x; simpl.
  - split; [by left|]. split; [lia|]. intros y Hy. by apply elem_of_nil in Hy.
  - destruct (IH (Z.max x a)) as (Hin & Hle & Hall).
    split; [|split].
    + destruct Hin as [Heq | Hin].
      * rewrite Heq. destruct (Z.max_spec x a) as [[_ ->] | [_ ->]];
          [right; apply elem_of_cons; by left | by left].
      * right. apply elem_of_cons. by right.
    + lia.
    + intros y [-> | Hy]%elem_of_cons; [lia | by apply Hall].
Qed.

Lemma py_max_spec (l : list Z) :
  l ≠ [] → ∃ m, py_max l = Ok m ∧ m ∈ l ∧ ∀ y, y ∈ l → y ≤ m.
Proof.
  destruct l as [|x l]; [done|]. intros _. exists (fold_left Z.max l x).
  destruct (fold_max_spec l x) as (Hin & Hle & Hall).
  split; [done|]. split.
  - apply elem_of_cons. destruct Hin; [left | right]; done.
  - intros y [-> | Hy]%elem_of_cons; [done | by apply Hall].
Qed.

(** [gather] answers one id per message. *)
Lemma gather_length messages kinds file_formats (w : World C) ids :
  (gather X messages kinds file_formats w).1 = Ok ids →
  List.length ids = List.length messages.
Proof.
  intros H.
  destruct (gather_safe (λ _ _ : unit, λ _ _ : World C, True)) with
    (X := X) (S := λ (_ : result Z) (_ : unit), True)
    (Inv := λ (_ : list unit) (_ : World C), True)
    (messages := messages) (kinds := kinds) (file_formats := file_formats)
    (g0 := λ _ : Message, tt) (w := w) as (gs & Hl & _ & Hres); try done.
  - intros message _. apply co_safe_trivial.
  - rewrite H in Hres. by rewrite (Forall2_length _ _ _ Hres).
Qed.

Lemma paginate_step_trace limit st message :
  0 < limit → counted st →
  quietly (paginate_step X limit st message) counted.
Proof.
  intros Hl Hst. unfold paginate_step. case_bool_decide as Hc.
  - apply steps_ret; [typeclasses eauto|]. intros _. simpl. by destruct (messages_list st).
  - apply steps_bind with (S1 := λ _, True); [typeclasses eauto | |].
    + apply process_messages_trace; [apply nonempty_of_not_gather|].
      simpl. intros Heq. apply fmap_nil_inv in Heq. revert Heq. apply Hst. lia.
    + intros last _. apply steps_bind with (S1 := λ _, True); [typeclasses eauto | |].
      * apply update_config_trace, nonempty_of_not_gather.
      * intros config _. apply steps_ret; [typeclasses eauto|]. by intros _.
Qed.

Lemma paginate_trace limit messages_iter st :
  0 < limit → counted st →
  quietly (paginate X limit messages_iter st) counted.
Proof.
  intros Hl. revert st. induction messages_iter as [|message rest IH]; intros st Hst; simpl.
  - by apply steps_ret; [typeclasses eauto|].
  - apply steps_bind with (S1 := counted); [typeclasses eauto | |].
    + by apply paginate_step_trace.
    + intros st' Hst'. by apply IH.
Qed.

Lemma primed_counted (skipped : list Message) (st : loop_state) :
  counted st →
  counted (fold_left (λ st message,
                        mkLoop (messages_list st ++ [message]) (pagination_count st + 1)
                          (loop_last_read st) (loop_config st))
             skipped st).
Proof.
  revert st. induction skipped as [|message skipped IH]; intros st Hst; simpl; [done|].
  apply IH. intros _. simpl. by destruct (messages_list st).
Qed.

(** With a positive batch size, every batch that [begin_import] hands to
    [process_messages] is non-empty. *)
Lemma begin_import_trace config limit :
  0 < limit → quietly (begin_import X config limit) (λ _, True).
Proof.
  intros Hl. unfold begin_import.
  apply steps_bind with (S1 := λ _, True); [typeclasses eauto | |].
  { apply extends_emit. exact I. }
  intros _ _. apply steps_bind with (S1 := λ _, True); [typeclasses eauto | |].
  { unfold count_total_files. step_structure. }
  intros total _. apply steps_bind with (S1 := λ _, True); [typeclasses eauto | |].
  { step_structure. }
  intros _ _. apply steps_bind with (S1 := λ _, True); [typeclasses eauto | |].
  { step_structure. }
  intros messages_iter _. apply steps_bind with (S1 := λ _, True); [typeclasses eauto | |].
  { step_structure. }
  intros skipped _. apply steps_bind with (S1 := counted); [typeclasses eauto | |].
  { apply paginate_trace; [done|]. apply primed_counted. by intros ?. }
  intros st Hst. apply steps_bind with (S1 := λ _, True); [typeclasses eauto | |].
  { destruct (messages_list st) as [|m l] eqn:E.
    - step_structure.
    - by apply process_messages_trace; [apply nonempty_of_not_gather|]. }
  intros last _. apply steps_bind with (S1 := λ _, True); [typeclasses eauto | |].
  { apply extends_emit. exact I. }
  intros _ _. by apply steps_ret; [typeclasses eauto|].
Qed.

Lemma main_trace : quietly (main X) (λ _, True).
Proof.
  pose proof (log_start_end_trace _ nonempty_of_not_gather).
  pose proof (update_config_trace _ nonempty_of_not_gather).
  pose proof (λ config, begin_import_trace config 100 eq_refl).
  unfold main, log. step_structure.
Qed.

(** ** The batches of the loop *)

Lemma process_messages_run messages kinds file_formats (w : World C) :
  let g := gather X messages kinds file_formats
             (emit (EvGather (m_id <$> messages)) w).2 in
  process_messages X messages kinds file_formats w
  = (match g.1 with Ok ids => py_max ids | Raise e => Raise e end, g.2).
Proof.
  unfold process_messages, bind, lift. cbn [emit snd].
  by destruct (gather X messages kinds file_formats _) as [[ids|e] w1].
Qed.

Lemma gathers_app t1 t2 : gathers (t1 ++ t2) = gathers t1 ++ gathers t2.
Proof. unfold gathers. by rewrite omap_app. Qed.

Lemma gathers_not_gather t : Forall not_gather t → gathers t = [].
Proof.
  induction 1 as [|e t He _ IH]; [done|].
  unfold gathers in *. by destruct e; simpl; rewrite ?IH.
Qed.

(** A batch leaves exactly one [gather] event, its own. *)
Lemma process_messages_gathers messages kinds file_formats (w : World C) :
  ∃ evs,
    trace (process_messages X messages kinds file_formats w).2 = trace w ++ evs
    ∧ gathers evs = [m_id <$> messages].
Proof.
  rewrite process_messages_run. cbv zeta. cbn [snd].
  destruct (gather_trace not_gather (λ e H, H) messages kinds file_formats
              (emit (EvGather (m_id <$> messages)) w).2) as [(evs & Ht & Hevs) _].
  exists (EvGather (m_id <$> messages) :: evs). split.
  - rewrite Ht. cbn. by rewrite <- app_assoc.
  - change (EvGather (m_id <$> messages) :: evs)
      with ([EvGather (m_id <$> messages)] ++ evs).
    rewrite gathers_app, (gathers_not_gather evs Hevs). done.
Qed.

Lemma update_config_gathers config chat (w : World C) :
  ∃ evs,
    trace (update_config X config chat w).2 = trace w ++ evs ∧ gathers evs = [].
Proof.
  destruct (update_config_trace not_gather (λ e H, H) config chat w)
    as [(evs & Ht & Hevs) _].
  exists evs. split; [done | by apply gathers_not_gather].
Qed.

(** The loop follows [loop_batches]: its batches are the predicted ones,
    up to the point where a call raised. *)
Lemma paginate_gathers limit messages_iter st (w : World C) :
  let r := paginate X limit messages_iter st w in
  let expected :=
    loop_batches limit messages_iter (messages_list st) (pagination_count st) in
  ∃ evs,
    trace r.2 = trace w ++ evs
    ∧ gathers evs `prefix_of` (ids_of <$> expected.1)
    ∧ ∀ st', r.1 = Ok st' →
        gathers evs = (ids_of <$> expected.1) ∧ messages_list st' = expected.2.
Proof.
  revert st w. induction messages_iter as [|message rest IH]; intros st w; simpl.
  - exists []. rewrite app_nil_r. split; [done|]. split; [done|]. by intros ? [= <-].
  - unfold bind, paginate_step. case_bool_decide as Hc.
    + cbn [ret]. apply (IH (mkLoop _ _ _ _) w).
    + unfold bind.
      destruct (process_messages_gathers (messages_list st)
                  (media_types (loop_config st)) (file_formats (loop_config st)) w)
        as (evs1 & Ht1 & Hg1).
      destruct (process_messages X (messages_list st) _ _ w) as [[last|e] w1];
        simpl in *.
      * destruct (update_config_gathers
                    (set_last_read_message_id (loop_config st) last)
                    (str (chat_id (loop_config st))) w1)
          as (evs2 & Ht2 & Hg2).
        destruct (update_config X _ _ w1) as [[config|e] w2]; simpl in *.
        -- destruct (IH (mkLoop [message] 0 last config) w2) as (evs3 & Ht3 & Hp & Hok).
           exists (evs1 ++ evs2 ++ evs3). simpl in *.
           split; [by rewrite Ht3, Ht2, Ht1, <- !app_assoc|].
           rewrite !gathers_app, Hg1, Hg2. simpl.
           split; [by apply prefix_cons|].
           intros st' Hst'. destruct (Hok st' Hst') as [-> ->]. done.
        -- exists (evs1 ++ evs2). split; [by rewrite Ht2, Ht1, <- app_assoc|].
           rewrite gathers_app, Hg1, Hg2. simpl.
           split; [apply prefix_cons, prefix_nil | done].
      * exists evs1. split; [done|]. rewrite Hg1.
        split; [apply prefix_cons, prefix_nil | done].
Qed.

(** After a dispatch the batch is one ahead of the counter, and every
    further batch of the loop holds [limit + 1] messages. *)
Lemma loop_batches_over limit messages_iter batch count :
  Z.of_nat (List.length batch) = count + 1 → 0 ≤ count ≤ limit →
  Forall (λ b, Z.of_nat (List.length b) = limit + 1)
    (loop_batches limit messages_iter batch count).1.
Proof.
  revert batch count. induction messages_iter as [|message rest IH];
    intros batch count Hlen Hc; simpl; [done|].
  case_bool_decide as Hne.
  - apply IH; [rewrite length_app; simpl; lia | lia].
  - simpl. constructor; [lia|]. apply IH; simpl; lia.
Qed.

(** Before the first dispatch the batch is level with the counter: the
    first batch of the loop starts with what was there and holds [limit]
    messages. *)
Lemma loop_batches_first limit messages_iter batch count :
  Z.of_nat (List.length batch) = count → count ≤ limit →
  first_full_then_over limit batch (loop_batches limit messages_iter batch count).1.
Proof.
  revert batch count. induction messages_iter as [|message rest IH];
    intros batch count Hlen Hc; simpl; [done|].
  case_bool_decide as Hne.
  - specialize (IH (batch ++ [message]) (count + 1)).
    destruct (loop_batches limit rest (batch ++ [message]) (count + 1)).1 as [|b bs];
      [done|].
    destruct IH as (Hp & Hb & Hbs); [rewrite length_app; simpl; lia | lia |].
    split; [|done]. etrans; [|exact Hp]. by apply prefix_app_r.
  - simpl. split; [done|]. split; [lia|].
    apply loop_batches_over; simpl; lia.
Qed.

Lemma first_full_then_over_prefix {A} limit (seed : list A) L L' :
  L' `prefix_of` L → first_full_then_over limit seed L →
  first_full_then_over limit seed L'.
Proof.
  intros [K ->]. destruct L' as [|b bs]; [done|]. simpl.
  intros (? & ? & Hall). apply Forall_app in Hall as [? _]. done.
Qed.

Lemma first_full_then_over_fmap limit (seed : list Message) L :
  first_full_then_over limit seed L →
  first_full_then_over limit (ids_of seed) (ids_of <$> L).
Proof.
  destruct L as [|b bs]; [done|]. simpl. intros (Hp & Hb & Hall).
  unfold ids_of.
  split; [destruct Hp as [k ->]; exists (m_id <$> k); by rewrite fmap_app|].
  split; [by rewrite length_fmap|].
  apply Forall_fmap. eapply Forall_impl; [exact Hall|].
  intros b' Hb'. simpl. by rewrite length_fmap.
Qed.

(** X30: whatever the client, the stream and the retry backlog (of at most
    [limit] messages): the first batch that the loop dispatches starts
    with the backlog and holds [limit] messages, every later batch that
    the loop dispatches holds [limit + 1]. *)
Lemma paginate_batch_sizes limit messages_iter skipped last config (w : World C) :
  Z.of_nat (List.length skipped) ≤ limit →
  let st := mkLoop skipped (Z.of_nat (List.length skipped)) last config in
  ∃ evs,
    trace (paginate X limit messages_iter st w).2 = trace w ++ evs
    ∧ first_full_then_over limit (m_id <$> skipped) (gathers evs).
Proof.
  intros Hle st.
  destruct (paginate_gathers limit messages_iter st w) as (evs & Ht & Hp & _).
  exists evs. split; [done|].
  eapply first_full_then_over_prefix; [exact Hp|].
  apply first_full_then_over_fmap. by apply loop_batches_first.
Qed.

(** The empty batch: there is nothing to schedule. *)
Lemma gather_nil kinds file_formats (w : World C) :
  gather X [] kinds file_formats w = (Ok [], w).
Proof.
  unfold gather. simpl.
  assert (∀ schedule, run_schedule (A:=Z) schedule [] None w = ([], None, w)) as ->;
    [|done].
  induction schedule as [|n rest IH]; [done|]. simpl. by rewrite IH.
Qed.

(** C10: [process_messages] on the empty batch raises [ValueError] (the
    maximum of no ids); on a batch that is not empty the maximum exists,
    so the call returns the largest of the ids that the downloads returned,
    unless a download itself raised; and every batch that [begin_import]
    (with the batch size 100 of [main]) and [main] hand to
    [process_messages] is non-empty. *)
Theorem process_messages_nonempty_only :
  (∀ kinds file_formats (w : World C),
     (process_messages X [] kinds file_formats w).1 = Raise ValueError)
  ∧ (∀ messages kinds file_formats (w : World C),
       messages ≠ [] →
       match (gather X messages kinds file_formats
                (emit (EvGather (m_id <$> messages)) w).2).1 with
       | Ok ids =>
           ∃ m, (process_messages X messages kinds file_formats w).1 = Ok m
                ∧ m ∈ ids ∧ ∀ i, i ∈ ids → i ≤ m
       | Raise e => (process_messages X messages kinds file_formats w).1 = Raise e
       end)
  ∧ (∀ config (w : World C),
       extends nonempty_gather w (begin_import X config 100 w).2)
  ∧ (∀ w : World C, extends nonempty_gather w (main X w).2).
Proof.
  split; [|split; [|split]].
  - intros kinds file_formats w. rewrite process_messages_run. cbv zeta.
    by rewrite gather_nil.
  - intros messages kinds file_formats w Hne.
    unfold process_messages. unfold bind at 1 3. cbn [emit snd].
    unfold bind, lift.
    destruct (gather X messages kinds file_formats _) as [[ids|e] w1] eqn:E; simpl; [|done].
    destruct (py_max_spec ids) as (m & Hm & Hin & Hall).
    + intros ->. apply (f_equal fst) in E. apply gather_length in E.
      by destruct messages.
    + exists m. by rewrite Hm.
  - intros config w. by apply (begin_import_trace config 100).
  - intros w. apply main_trace.
Qed.
End Batches.


(* ===================================================================== *)
(** * One outcome per message *)
(* ===================================================================== *)

Section Outcomes.
Context {C : Type} (X : Externals C).

Local Abbreviation framed := (steps (C:=C) same_ids).

Lemma get_media_meta_ids media k chat i :
  framed (_get_media_meta X media k chat i) (λ _, True).
Proof. unfold _get_media_meta, _create_directories. step_structure. Qed.

Lemma is_exist_ids path : framed (_is_exist path) (λ _, True).
Proof. unfold _is_exist. step_structure. Qed.

Lemma is_valid_file_ids path min_size :
  framed (_is_valid_file X path min_size) (λ _, True).
Proof. unfold _is_valid_file, log. step_structure. Qed.

Lemma download_media_call_ids message path :
  framed (download_media_call X message path) (λ _, True).
Proof. unfold download_media_call. step_structure. Qed.

Lemma get_message_call_ids chat i : framed (get_message_call X chat i) (λ _, True).
Proof. unfold get_message_call. step_structure. Qed.

(** ** Rules for [recording] *)

Lemma recording_ret {A} (Q : result A → list Z → list Z → Prop) (a : A) :
  Q (Ok a) [] [] → recording (C:=C) Q (ret a).
Proof. intros HQ w. exists [], []. split; [|done]. split; simpl; by rewrite app_nil_r. Qed.

Lemma recording_append_failed (Q : result unit → list Z → list Z → Prop) i :
  Q (Ok tt) [i] [] → recording (C:=C) Q (append_failed i).
Proof. intros HQ w. exists [i], []. split; [|done]. split; simpl; by rewrite ?app_nil_r. Qed.

Lemma recording_append_downloaded (Q : result unit → list Z → list Z → Prop) i :
  Q (Ok tt) [] [i] → recording (C:=C) Q (append_downloaded i).
Proof. intros HQ w. exists [], [i]. split; [|done]. split; simpl; by rewrite ?app_nil_r. Qed.

(** A step that leaves the id lists alone, then the rest. *)
Lemma recording_after {A B} (Q : result B → list Z → list Z → Prop)
    (m : M C A) (k : A → M C B) (S : A → Prop) :
  framed m S → (∀ a, S a → recording Q (k a)) → (∀ e, Q (Raise e) [] []) →
  recording Q (bind m k).
Proof.
  intros Hm Hk He w. unfold bind.
  destruct (Hm w) as [[Hf Hd] HS]. destruct (m w) as [[a|e] w1]; simpl in *.
  - destruct (Hk a (HS a eq_refl) w1) as (f & d & [H1 H2] & HQ).
    exists f, d. split; [|done]. split; congruence.
  - exists [], []. split; [|done]. split; simpl; rewrite app_nil_r; congruence.
Qed.

Lemma recording_weaken {A} (Q Q' : result A → list Z → list Z → Prop) (m : M C A) :
  recording Q m → (∀ r f d, Q r f d → Q' r f d) → recording Q' m.
Proof. intros Hm HQ w. destruct (Hm w) as (f & d & ? & ?). exists f, d. eauto. Qed.

Lemma recorded_skip {A} i (r : result A) : recorded_then_ok i r [] [].
Proof. by exists Skipped. Qed.

Lemma recorded_failed {A} i (a : A) : recorded_then_ok i (Ok a) [i] [].
Proof. exists Failed. eauto. Qed.

Lemma recorded_downloaded {A} i (a : A) : recorded_then_ok i (Ok a) [] [i].
Proof. exists Downloaded. eauto. Qed.

(** Peels the steps that leave the id lists alone off a computation. *)
Ltac record_steps :=
  repeat first
    [ apply recording_ret; apply recorded_skip
    | apply recording_append_failed; apply recorded_failed
    | apply recording_append_downloaded; apply recorded_downloaded
    | apply recording_after with (S := λ _, True);
        [ solve [unfold log, sleep; step_structure]
        | intros ? _
        | intros ?; apply recorded_skip ] ].

(** ** The validated download *)

Lemma check_download_recording path chat i :
  recording (recorded_then_ok i) (check_download X path chat i).
Proof.
  pose proof is_valid_file_ids.
  unfold check_download. destruct path as [p|]; [|record_steps].
  destruct (String.eqb p ""); [record_steps|].
  apply recording_after with (S := λ _, True);
    [step_structure | intros valid _ | intros ?; apply recorded_skip].
  destruct (negb valid); record_steps.
Qed.

(** Kinds the message does not carry leave the world alone. *)
Lemma for_types_skip message chat i file_formats kinds (w : World C) :
  (∀ k, k ∈ kinds → m_attrs message !! k = None) →
  for_types X message chat i file_formats kinds w = (Ok tt, w).
Proof.
  induction kinds as [|k kinds IH]; intros H; [done|]. simpl. unfold bind, download_type.
  rewrite (H k) by (apply elem_of_cons; by left). cbn.
  apply IH. intros k' Hk'. apply H. apply elem_of_cons. by right.
Qed.

(** ** The pieces of [download_media], as stretches of the coroutine

    A download starts in the ghost state [(i, true)]: [i] is the id of its
    message, and it may still record.  [spends] lets it record at most
    once from there. *)

Local Abbreviation spending := (co_safe (C:=C) spends).

Lemma spends_refl g (w : World C) : spends g g w w.
Proof.
  split; [done|]. exists [], []. split; [|by left].
  split; simpl; by rewrite app_nil_r.
Qed.

Lemma spends_trans g1 g2 g3 (w1 w2 w3 : World C) :
  spends g1 g2 w1 w2 → spends g2 g3 w2 w3 → spends g1 g3 w1 w3.
Proof.
  intros (Hi1 & f1 & d1 & [Hf1 Hd1] & H1) (Hi2 & f2 & d2 & [Hf2 Hd2] & H2).
  split; [congruence|]. exists (f1 ++ f2), (d1 ++ d2).
  split; [split; rewrite ?Hf2, ?Hd2, ?Hf1, ?Hd1; by rewrite app_assoc|].
  destruct H1 as [(Hb1 & -> & ->) | (Hb1 & Hb1' & H1)];
    destruct H2 as [(Hb2 & -> & ->) | (Hb2 & Hb2' & H2)]; simpl.
  - left. split; [congruence | done].
  - right. rewrite <- Hi1, <- Hb1. done.
  - right. rewrite !app_nil_r. split; [done|]. split; [congruence | done].
  - congruence.
Qed.

Lemma spending_atomic_framed {A} (S : result A → Z * bool → Prop) (m : M C A) g :
  framed m (λ _, True) → (∀ r, S r g) → spending S (atomic m) g.
Proof.
  intros Hm HS. apply co_safe_atomic. intros w. exists g. split; [|done].
  destruct (Hm w) as [[Hf Hd] _]. split; [done|]. exists [], [].
  split; [|by left]. split; simpl; by rewrite app_nil_r.
Qed.

(** A piece that leaves the id lists alone, then the rest. *)
Lemma spending_after {A B} (S : result B → Z * bool → Prop) (m : M C A)
    (k : A → Co C B) (S0 : A → Prop) g :
  framed m S0 → (∀ a, S0 a → spending S (k a) g) → (∀ e, S (Raise e) g) →
  spending S (co_bind (atomic m) k) g.
Proof.
  intros Hm Hk He.
  apply co_safe_bind with (S1 := λ r g1, g1 = g ∧ ∀ a, r = Ok a → S0 a).
  - apply spends_trans.
  - apply co_safe_atomic. intros w. exists g. destruct (Hm w) as [[Hf Hd] HS].
    split; [|done]. split; [done|]. exists [], [].
    split; [|by left]. split; simpl; by rewrite app_nil_r.
  - intros a g1 [-> HS]. by apply Hk, HS.
  - intros e g1 [-> _]. apply He.
Qed.

Lemma spending_after_await {A B} (S : result B → Z * bool → Prop) (m : M C A)
    (k : A → Co C B) (S0 : A → Prop) g :
  framed m S0 → (∀ a, S0 a → spending S (k a) g) → (∀ e, S (Raise e) g) →
  spending S (co_bind (await m) k) g.
Proof.
  intros Hm Hk He.
  apply co_safe_bind with (S1 := λ r g1, g1 = g ∧ ∀ a, r = Ok a → S0 a).
  - apply spends_trans.
  - apply co_safe_await; [apply spends_refl|]. intros w. exists g.
    destruct (Hm w) as [[Hf Hd] HS].
    split; [|done]. split; [done|]. exists [], [].
    split; [|by left]. split; simpl; by rewrite app_nil_r.
  - intros a g1 [-> HS]. by apply Hk, HS.
  - intros e g1 [-> _]. apply He.
Qed.

Lemma recorded_ok_fresh {A} i (r : result A) : recorded_ok i r (i, true).
Proof. by split. Qed.

Lemma recorded_ok_raise {A B} i e g :
  recorded_ok (A:=A) i (Raise e) g → recorded_ok (A:=B) i (Raise e) g.
Proof. intros [Hi Hg]. split; [done|]. intros Hb. by destruct (Hg Hb). Qed.

Lemma check_download_spending path chat i :
  spending (recorded_ok i) (atomic (check_download X path chat i)) (i, true).
Proof.
  apply co_safe_atomic. intros w.
  destruct (check_download_recording path chat i w) as (f & d & Hrec & o & -> & -> & Hok).
  exists (i, if decide (o = Skipped) then true else false).
  split; [split; [done|]; exists (failed_part o i), (downloaded_part o i); split; [done|]|].
  - destruct o; simpl; [right | left | right]; repeat split; auto.
  - split; [done|]. simpl. destruct (decide (o = Skipped)); [done|]. intros _. by apply Hok.
Qed.

Lemma download_type_spending message chat i file_formats k :
  spending (recorded_ok i) (Async.download_type X message chat i file_formats k) (i, true).
Proof.
  unfold Async.download_type. destruct (m_attrs message !! k) as [media|].
  2: { apply spending_atomic_framed; [step_structure | intros; apply recorded_ok_fresh]. }
  apply spending_after with (S0 := λ _, True);
    [apply get_media_meta_ids | intros meta _ | intros; apply recorded_ok_fresh].
  apply spending_after with (S0 := λ _, True);
    [step_structure | intros can _ | intros; apply recorded_ok_fresh].
  destruct can.
  2: { apply spending_atomic_framed; [step_structure | intros; apply recorded_ok_fresh]. }
  apply spending_after with (S0 := λ _, True);
    [apply is_exist_ids | intros taken _ | intros; apply recorded_ok_fresh].
  apply spending_after with (S0 := λ _, True);
    [destruct taken; step_structure | intros name _ | intros; apply recorded_ok_fresh].
  apply spending_after_await with (S0 := λ _, True);
    [apply download_media_call_ids | intros path _ | intros; apply recorded_ok_fresh].
  apply check_download_spending.
Qed.

(** Kinds the message does not carry are passed over at once. *)
Lemma for_types_co_skip message chat i file_formats kinds (w : World C) :
  (∀ k, k ∈ kinds → m_attrs message !! k = None) →
  Async.for_types X message chat i file_formats kinds w = Fin (Ok tt) w.
Proof.
  induction kinds as [|k kinds IH]; intros H; [done|].
  simpl. unfold co_bind, Async.download_type.
  rewrite (H k) by (apply elem_of_cons; by left). simpl.
  apply IH. intros k' Hk'. apply H. apply elem_of_cons. by right.
Qed.

(** Over the kinds of a message that carries at most one of them, the
    loop records at most once, and then ends normally. *)
Lemma for_types_spending message chat i file_formats kinds :
  NoDup kinds → single_kind kinds message →
  spending (recorded_ok i) (Async.for_types X message chat i file_formats kinds) (i, true).
Proof.
  induction kinds as [|k kinds IH]; intros Hnd Hs; simpl.
  { apply spending_atomic_framed; [step_structure | intros; apply recorded_ok_fresh]. }
  apply NoDup_cons in Hnd as [Hk Hnd].
  destruct (m_attrs message !! k) as [media|] eqn:E.
  - (* the kind is there: the others are not *)
    assert (∀ k', k' ∈ kinds → m_attrs message !! k' = None) as Hrest.
    { intros k' Hk'. destruct (m_attrs message !! k') eqn:E'; [|done].
      assert (k' = k) as ->; [|done].
      apply Hs; [apply elem_of_cons; by right | apply elem_of_cons; by left
                | by rewrite E' | by rewrite E]. }
    apply co_safe_bind with (S1 := recorded_ok i);
      [apply spends_trans | apply download_type_spending | | done].
    intros [] g1 [Hi Hg] w. rewrite for_types_co_skip by done. simpl.
    exists g1. split; [apply spends_refl|]. split; [done | eauto].
  - (* the kind is not there: the body is [continue] *)
    intros w. unfold co_bind, Async.download_type. rewrite E. simpl.
    apply IH; [done|]. intros k1 k2 H1 H2. apply Hs; apply elem_of_cons; by right.
Qed.

Lemma try_block_spending message chat i kinds file_formats :
  NoDup kinds → single_kind kinds message →
  spending (recorded_ok i) (Async.try_block X message chat i kinds file_formats) (i, true).
Proof.
  intros Hnd Hs. unfold Async.try_block. destruct (m_media message).
  - apply co_safe_bind with (S1 := recorded_ok i);
      [apply spends_trans | by apply for_types_spending | | apply recorded_ok_raise].
    intros [] g1 [Hi Hg]. apply co_safe_atomic. intros w. exists g1.
    split; [apply spends_refl|]. split; [done | eauto].
  - apply spending_atomic_framed; [step_structure | intros; apply recorded_ok_fresh].
Qed.

(** ** The attempts *)

Section Attempts.
Context (kinds : list string) (file_formats : gmap string (list string)).
Context (chat : string) (i : Z).
Hypothesis kinds_nodup : NoDup kinds.
Hypothesis refetch_single :
  ∀ c ch j m c', client_get_message X c ch j = (Ok m, c') → single_kind kinds m.

Lemma get_message_call_single ch j :
  framed (get_message_call X ch j) (single_kind kinds).
Proof.
  intros w. split; [apply get_message_call_ids|].
  unfold get_message_call, bind, emit. simpl.
  destruct (client_get_message X (client w) ch j) as [r c'] eqn:E. simpl.
  intros m ->. by eapply refetch_single.
Qed.

(** A handler that gives up records the failure, once. *)
Lemma give_up_spending {A} (m : M C A) :
  (∀ w, records [i] [] w (m w).2) → spending (settled i) (atomic m) (i, true).
Proof.
  intros H. apply co_safe_atomic. intros w. exists (i, false). split; [|done].
  split; [done|]. exists [i], []. split; [apply H|]. right. auto.
Qed.

Lemma settled_atomic {A} (m : M C A) g :
  g.1 = i → framed m (λ _, True) → spending (settled i) (atomic m) g.
Proof. intros Hg Hm. by apply spending_atomic_framed. Qed.

(** After the handler of a transient error: the failure is recorded when
    [retry] is 2, and then the loop is over. *)
Lemma retry_spending retry rest (l : log_line) message :
  (retry = 2 → rest = []) →
  spending (settled i) (Async.attempts X rest message chat i kinds file_formats) (i, true) →
  spending (settled i)
    (co_bind (atomic (if retry =? 2 then log l ;; append_failed i else ret tt))
       (λ _, Async.attempts X rest message chat i kinds file_formats))
    (i, true).
Proof.
  intros Hlast IH. destruct (retry =? 2) eqn:E.
  - apply Z.eqb_eq in E. rewrite (Hlast E). simpl.
    apply co_safe_bind with (S1 := settled i);
      [apply spends_trans | | | done].
    + apply give_up_spending. intros w. split; simpl; by rewrite ?app_nil_r.
    + intros a g1 Hg. apply settled_atomic; [done | step_structure].
  - intros w. unfold co_bind. simpl. apply IH.
Qed.

(** One more value of [retry], provided the value 2 is the last one. *)
Lemma attempts_spending_step retry rest :
  (retry = 2 → rest = []) →
  (∀ message, single_kind kinds message →
     spending (settled i) (Async.attempts X rest message chat i kinds file_formats)
       (i, true)) →
  ∀ message, single_kind kinds message →
    spending (settled i)
      (Async.attempts X (retry :: rest) message chat i kinds file_formats) (i, true).
Proof.
  intros Hlast IH message Hs. simpl Async.attempts.
  apply co_safe_try with (S1 := recorded_ok i);
    [apply spends_trans | by apply try_block_spending | |].
  - intros fl g1 [Hi _]. destruct fl; (apply settled_atomic; [done | step_structure]).
  - intros e g1 [Hi Hg].
    assert (g1 = (i, true)) as ->.
    { destruct g1 as [j [|]]; simpl in *; [by subst|]. by destruct (Hg eq_refl). }
    destruct e;
      try (apply give_up_spending; intros w; split; simpl; by rewrite ?app_nil_r).
    + apply spending_after_await with (S0 := single_kind kinds);
        [apply get_message_call_single | | done].
      intros message' Hs'. apply retry_spending; [done | by apply IH].
    + apply spending_after_await with (S0 := λ _, True);
        [unfold sleep; step_structure | | done].
      intros _ _. apply retry_spending; [done | by apply IH].
    + apply settled_atomic; [done | step_structure].
Qed.
End Attempts.

(** A message that carries at most one of the configured kinds is
    recorded at most once, whatever happens between the stretches of its
    download. *)
Lemma download_media_spending kinds file_formats message :
  NoDup kinds →
  (∀ c ch j m c', client_get_message X c ch j = (Ok m, c') → single_kind kinds m) →
  single_kind kinds message →
  spending (settled (m_id message)) (Async.download_media X message kinds file_formats)
    (m_id message, true).
Proof.
  intros Hnd Hre Hs. unfold Async.download_media.
  revert Hs. generalize message at 1 3.
  apply attempts_spending_step; [done | done | done |].
  apply attempts_spending_step; [done | done | done |].
  apply attempts_spending_step; [done | done | done |].
  intros message' Hs. simpl. apply settled_atomic; [done | step_structure].
Qed.

(** ** The batch *)

Lemma ids_with_cons o o' outs message messages :
  ids_with o (o' :: outs) (message :: messages)
  = (if decide (o' = o) then [m_id message] else []) ++ ids_with o outs messages.
Proof. unfold ids_with. simpl. by destruct (decide (o' = o)). Qed.

Lemma ids_with_fmap o (out : Message → outcome) messages :
  ids_with o (out <$> messages) messages
  = m_id <$> filter (λ message, out message = o) messages.
Proof.
  induction messages as [|message messages IH]; [done|].
  rewrite fmap_cons, ids_with_cons, IH, filter_cons.
  by destruct (decide (out message = o)).
Qed.

(** A batch starts with every download able to record; a stretch of one
    of them keeps [batch_inv]. *)
Lemma batch_inv_step ids F0 D0 gs1 g gs2 g' (w w' : World C) :
  spends g g' w w' →
  batch_inv ids F0 D0 (gs1 ++ g :: gs2) w → batch_inv ids F0 D0 (gs1 ++ g' :: gs2) w'.
Proof.
  intros (Hi & f' & d' & [Hf Hd] & Hcase)
         (Hids & Hnd & f & d & HF & HD & Hnd' & Hin).
  assert ((gs1 ++ g' :: gs2).*1 = ids) as Hids'.
  { rewrite <- Hids, !fmap_app, !fmap_cons. by rewrite Hi. }
  split; [done|]. split; [done|].
  exists (f ++ f'), (d ++ d').
  split; [by rewrite Hf, HF, app_assoc|]. split; [by rewrite Hd, HD, app_assoc|].
  destruct Hcase as [(Hb & -> & ->) | (Hb & Hb' & Hrec)].
  - rewrite !app_nil_r. split; [done|].
    assert (g' = g) as -> by (destruct g, g'; simpl in *; congruence). done.
  - assert (g.1 ∉ f ++ d) as Hfresh.
    { intros Hx. apply Hin in Hx.
      rewrite <- Hids, fmap_app, fmap_cons in Hnd.
      apply NoDup_app in Hnd as (_ & Hdisj & Hnd2).
      apply NoDup_cons in Hnd2 as [Hnot _].
      apply elem_of_app in Hx as [Hx | Hx].
      - apply (Hdisj g.1); [by apply (list_elem_of_fmap_2 fst _ (g.1, false))|].
        apply elem_of_cons. by left.
      - apply elem_of_cons in Hx as [Hx | Hx].
        + destruct g as [j b]. simpl in *. congruence.
        + apply Hnot. by apply (list_elem_of_fmap_2 fst _ (g.1, false)). }
    assert (∀ x, x ∈ f ++ d → (x, false) ∈ gs1 ++ g' :: gs2) as Hold.
    { intros x Hx. pose proof (Hin x Hx) as Hg.
      apply elem_of_app in Hg as [Hg | Hg]; [apply elem_of_app; by left|].
      apply elem_of_cons in Hg as [Hg | Hg].
      - destruct g as [j b]. simpl in *. congruence.
      - apply elem_of_app. right. apply elem_of_cons. by right. }
    assert ((g.1, false) ∈ gs1 ++ g' :: gs2) as Hnew.
    { apply elem_of_app. right. apply elem_of_cons. left.
      destruct g' as [j b]. simpl in *. congruence. }
    destruct Hrec as [[-> ->] | [-> ->]]; rewrite ?app_nil_r.
    + split.
      * rewrite <- app_assoc. simpl.
        apply (NoDup_Permutation_proper _ _ (Permutation_middle f d g.1)).
        by apply NoDup_cons.
      * intros x Hx. rewrite <- app_assoc in Hx.
        apply elem_of_app in Hx as [Hx | Hx]; [apply Hold, elem_of_app; by left|].
        apply elem_of_app in Hx as [Hx | Hx]; [|apply Hold, elem_of_app; by right].
        apply list_elem_of_singleton in Hx as ->. done.
    + split.
      * rewrite app_assoc.
        apply (NoDup_Permutation_proper _ _ (Permutation_cons_append (f ++ d) g.1)).
        by apply NoDup_cons.
      * intros x Hx. rewrite app_assoc in Hx.
        apply elem_of_app in Hx as [Hx | Hx]; [by apply Hold|].
        apply list_elem_of_singleton in Hx as ->. done.
Qed.

(** Whatever the schedule, a batch of messages with distinct ids, each
    with at most one of the configured kinds, records every id at most
    once over both lists, and ids of the batch only. *)
Lemma gather_spending kinds file_formats messages (w : World C) :
  NoDup kinds →
  (∀ c ch j m c', client_get_message X c ch j = (Ok m, c') → single_kind kinds m) →
  Forall (single_kind kinds) messages →
  NoDup (m_id <$> messages) →
  ∃ f d,
    records f d w (gather X messages kinds file_formats w).2
    ∧ NoDup (f ++ d)
    ∧ ∀ x, x ∈ f ++ d → x ∈ m_id <$> messages.
Proof.
  intros Hnd Hre Hall Hids.
  destruct (gather_safe (C:=C) spends spends_refl spends_trans X (λ _ _, True)
              (batch_inv (m_id <$> messages) (FAILED_IDS w) (DOWNLOADED_IDS w))
              (batch_inv_step _ _ _)
              messages kinds file_formats (λ message, (m_id message, true)) w)
    as (gs & _ & (Hgs & _ & f & d & HF & HD & Hnd' & Hin) & _).
  - intros message Hm. eapply co_safe_weaken;
      [apply download_media_spending; try done | done].
    by apply (proj1 (Forall_forall _ _) Hall).
  - split; [by rewrite <- list_fmap_compose|]. split; [done|].
    exists [], []. rewrite !app_nil_r. repeat split; try done; [constructor|].
    intros x Hx. by apply elem_of_nil in Hx.
  - exists f, d. split; [by split|]. split; [done|].
    intros x Hx. rewrite <- Hgs. by apply (list_elem_of_fmap_2 fst _ (x, false)), Hin.
Qed.

(** C9, amended: for a batch of messages with pairwise distinct ids, each
    of which (also when fetched again) carries at most one of the
    configured kinds, the kinds being listed once each, and for every
    schedule of the event loop: [process_messages] gives every message
    exactly one outcome (downloaded, failed, or neither).  The failed ids
    grow by the ids of the messages with the outcome failed, the
    downloaded ids by those with the outcome downloaded (in the order in
    which the downloads came to record them), and no id is recorded twice
    or in both lists. *)
Theorem process_messages_one_outcome kinds file_formats messages (w : World C) :
  NoDup kinds →
  (∀ c ch j m c', client_get_message X c ch j = (Ok m, c') → single_kind kinds m) →
  Forall (single_kind kinds) messages →
  NoDup (m_id <$> messages) →
  ∃ outs f d,
    List.length outs = List.length messages
    ∧ FAILED_IDS (process_messages X messages kinds file_formats w).2 = FAILED_IDS w ++ f
    ∧ DOWNLOADED_IDS (process_messages X messages kinds file_formats w).2
      = DOWNLOADED_IDS w ++ d
    ∧ f ≡ₚ ids_with Failed outs messages
    ∧ d ≡ₚ ids_with Downloaded outs messages
    ∧ NoDup (f ++ d).
Proof.
  intros Hnd Hre Hall Hids. rewrite process_messages_run. cbv zeta. cbn [snd].
  destruct (gather_spending kinds file_formats messages
              (emit (EvGather (m_id <$> messages)) w).2 Hnd Hre Hall Hids)
    as (f & d & [HF HD] & Hnd' & Hin).
  exists (outcome_of f d <$> messages), f, d.
  split; [apply length_fmap|]. split; [exact HF|]. split; [exact HD|].
  pose proof Hnd' as Hnd''. apply NoDup_app in Hnd'' as (Hf & Hdisj & Hd).
  assert (∀ o, NoDup (m_id <$> filter (λ message, outcome_of f d message = o) messages))
    as Hsub.
  { intros o. eapply sublist_NoDup; [exact Hids|]. apply fmap_sublist, sublist_filter. }
  rewrite !ids_with_fmap. split; [|split; [|done]].
  - apply NoDup_Permutation; [done | apply Hsub|]. intros x. split.
    + intros Hx. assert (x ∈ m_id <$> messages) as Hm
        by (apply Hin, elem_of_app; by left).
      apply list_elem_of_fmap in Hm as (message & -> & Hm).
      apply list_elem_of_fmap_2, list_elem_of_filter. split; [|done].
      unfold outcome_of. by rewrite decide_True.
    + intros (message & -> & Hm)%list_elem_of_fmap.
      apply list_elem_of_filter in Hm as [Ho _]. unfold outcome_of in Ho.
      destruct (decide (m_id message ∈ f)); [done|].
      by destruct (decide (m_id message ∈ d)).
  - apply NoDup_Permutation; [done | apply Hsub|]. intros x. split.
    + intros Hx. assert (x ∈ m_id <$> messages) as Hm
        by (apply Hin, elem_of_app; by right).
      apply list_elem_of_fmap in Hm as (message & -> & Hm).
      apply list_elem_of_fmap_2, list_elem_of_filter. split; [|done].
      unfold outcome_of. rewrite decide_False, decide_True; [done | done|].
      intros Hxf. by apply (Hdisj (m_id message)).
    + intros (message & -> & Hm)%list_elem_of_fmap.
      apply list_elem_of_filter in Hm as [Ho _]. unfold outcome_of in Ho.
      destruct (decide (m_id message ∈ f)); [done|].
      by destruct (decide (m_id message ∈ d)).
Qed.
End Outcomes.

(** C9 as stated fails: a message that answers two of the configured kinds
    is handled once per kind; here the photo arrives empty and the video
    arrives whole, and the id 3 ends in the failed ids and in the
    downloaded ids of the same batch. *)
Lemma process_messages_both_lists_counterexample :
  let r := process_messages
             (Fixture.client_of Fixture.photo 0 (λ k, if decide (k = 0%nat) then 0 else 600))
             [Fixture.photo_and_video 7 3] ["photo"; "video"] {[ "video" := ["all"] ]}
             Fixture.world0 in
  r.1 = Ok 3
  ∧ FAILED_IDS r.2 = [3]
  ∧ DOWNLOADED_IDS r.2 = [3]
  ∧ ¬ NoDup (FAILED_IDS r.2 ++ DOWNLOADED_IDS r.2).
Proof.
  vm_compute. repeat split.
  intros H. apply NoDup_cons in H as [H _]. apply H. apply elem_of_cons. by left.
Qed.

Lemma single_kind_plain kinds chat i : single_kind kinds (Fixture.plain chat i).
Proof. intros k1 k2 _ _ [x Hx]. simpl in Hx. by rewrite lookup_empty in Hx. Qed.

Lemma single_kind_photo kinds chat i : single_kind kinds (Fixture.photo chat i).
Proof.
  intros k1 k2 _ _ [x1 H1] [x2 H2]. simpl in *.
  apply lookup_singleton_Some in H1 as [<- _].
  by apply lookup_singleton_Some in H2 as [<- _].
Qed.

Lemma process_messages_one_outcome_witness :
  let X := Fixture.client_of Fixture.plain 0 (λ k, if decide (k = 0%nat) then 0 else 600) in
  let batch := [Fixture.photo 7 1; Fixture.plain 7 2; Fixture.photo 7 3] in
  let r := process_messages X batch ["photo"; "video"] {[ "video" := ["all"] ]}
             Fixture.world0 in
  ∃ outs f d,
    List.length outs = 3%nat
    ∧ FAILED_IDS r.2 = f ∧ DOWNLOADED_IDS r.2 = d
    ∧ f ≡ₚ ids_with Failed outs batch
    ∧ d ≡ₚ ids_with Downloaded outs batch
    ∧ NoDup (f ++ d).
Proof.
  intros X batch r.
  destruct (process_messages_one_outcome X ["photo"; "video"] {[ "video" := ["all"] ]}
              batch Fixture.world0) as (outs & f & d & Hlen & HF & HD & Hf & Hd & Hnd).
  - compute_done.
  - intros c ch j m c' [= <- _]. apply single_kind_plain.
  - repeat constructor; auto using single_kind_plain, single_kind_photo.
  - compute_done.
  - exists outs, f, d. split; [exact Hlen|]. split; [exact HF|]. split; [exact HD|].
    split; [exact Hf|]. split; [exact Hd | exact Hnd].
Defined.

(** The order in which a batch records its ids is the order in which the
    event loop lets the downloads finish, not the order of the batch:
    here the loop serves the second download first. *)
Example process_messages_out_of_order :
  let r := process_messages (Fixture.scheduled [1; 1; 1]%nat Fixture.photo 2 (λ _, 600))
             [Fixture.photo 7 1; Fixture.photo 7 2] ["photo"; "video"]
             {[ "video" := ["all"] ]} Fixture.world0 in
  r.1 = Ok 2 ∧ DOWNLOADED_IDS r.2 = [2; 1] ∧ FAILED_IDS r.2 = [].
Proof. vm_compute. done. Qed.


(* ===================================================================== *)
(** * Runs of the orchestrator *)
(* ===================================================================== *)

(** The retry backlog seeds the batch, in order, and moves the counter by
    one per message. *)
Lemma primed_state (skipped : list Message) (st : loop_state) :
  let st' := fold_left (λ st message,
                          mkLoop (messages_list st ++ [message]) (pagination_count st + 1)
                            (loop_last_read st) (loop_config st))
               skipped st in
  messages_list st' = messages_list st ++ skipped
  ∧ pagination_count st' = pagination_count st + Z.of_nat (List.length skipped).
Proof.
  revert st. induction skipped as [|message skipped IH]; intros st; simpl.
  - split; [by rewrite app_nil_r | lia].
  - destruct (IH (mkLoop (messages_list st ++ [message]) (pagination_count st + 1)
                    (loop_last_read st) (loop_config st))) as [H1 H2].
    simpl in *. split; [by rewrite H1, <- app_assoc | lia].
Qed.

(** So the loop starts in the state that [paginate_batch_sizes] asks
    for. *)
Lemma primed_state_eq (skipped : list Message) last config :
  fold_left (λ st message,
               mkLoop (messages_list st ++ [message]) (pagination_count st + 1)
                 (loop_last_read st) (loop_config st))
    skipped (mkLoop [] 0 last config)
  = mkLoop skipped (Z.of_nat (List.length skipped)) last config.
Proof.
  assert (∀ st,
            fold_left (λ st message,
                         mkLoop (messages_list st ++ [message]) (pagination_count st + 1)
                           (loop_last_read st) (loop_config st))
              skipped st
            = mkLoop (messages_list st ++ skipped)
                (pagination_count st + Z.of_nat (List.length skipped))
                (loop_last_read st) (loop_config st)) as H.
  { induction skipped as [|message skipped IH]; intros st; simpl.
    - destruct st. simpl. by rewrite app_nil_r, Z.add_0_r.
    - rewrite IH. simpl. rewrite <- app_assoc. simpl. f_equal. lia. }
  by rewrite H.
Qed.

(** C3, on the run it describes: batch size 100, no retry backlog, 250
    pending messages with the ids 1..250.  The checkpoint is written twice
    during pagination, but the second cursor is the id of message 201, not
    200: after a dispatch the loop keeps the current message in the new
    batch while the counter restarts at 0, so the second batch holds 101
    messages and the final one 49. *)
Theorem begin_import_250_pending :
  let r := begin_import (Fixture.client_of Fixture.photo 250 (λ _, 600))
             (Fixture.config0 0 []) 100 Fixture.world0 in
  (last_read_message_id <$> (match r.1 with Ok c => Some c | Raise _ => None end)) = Some 250
  ∧ checkpoint_cursors (trace r.2) = [100; 201]
  ∧ List.length <$> gathers (trace r.2) = [100; 101; 49]%nat.
Proof. vm_compute. done. Qed.

(** C6, on a run with a retry backlog: batch size 100, retry id 3, cursor
    10 and the pending messages 11..250.  The first batch starts with the
    retried message and holds 100 messages, but the second batch, which is
    dispatched during pagination, holds 101. *)
Theorem begin_import_retry_backlog :
  let r := begin_import (Fixture.client_of Fixture.photo 250 (λ _, 600))
             (Fixture.config0 10 [3]) 100 Fixture.world0 in
  gathers (trace r.2)
  = [3 :: Fixture.ids_from 11 99; Fixture.ids_from 110 101; Fixture.ids_from 211 40]
  ∧ List.length <$> gathers (trace r.2) = [100; 101; 40]%nat
  ∧ checkpoint_cursors (trace r.2) = [109; 210].
Proof. vm_compute. done. Qed.

Lemma process_messages_nonempty_only_witness :
  ∃ m,
    (process_messages (Fixture.client_of Fixture.photo 0 (λ _, 600))
       [Fixture.plain 7 3; Fixture.photo 7 9; Fixture.plain 7 5]
       ["photo"; "video"] {[ "video" := ["all"] ]} Fixture.world0).1 = Ok m
    ∧ m ∈ [3; 9; 5] ∧ ∀ i, i ∈ [3; 9; 5] → i ≤ m.
Proof.
  destruct (process_messages_nonempty_only (Fixture.client_of Fixture.photo 0 (λ _, 600)))
    as (_ & H & _).
  specialize (H [Fixture.plain 7 3; Fixture.photo 7 9; Fixture.plain 7 5]
                ["photo"; "video"] {[ "video" := ["all"] ]} Fixture.world0).
  assert ((gather (Fixture.client_of Fixture.photo 0 (λ _, 600))
             [Fixture.plain 7 3; Fixture.photo 7 9; Fixture.plain 7 5]
             ["photo"; "video"] {[ "video" := ["all"] ]}
             (emit (EvGather (m_id <$> [Fixture.plain 7 3; Fixture.photo 7 9;
                                        Fixture.plain 7 5])) Fixture.world0).2).1
          = Ok [3; 9; 5]) as E by (vm_compute; reflexivity).
  rewrite E in H. apply H. discriminate.
Defined.

(** ** Whole runs, for illustration *)

(** An empty file is removed and the id is queued for retry; a small file
    is kept and the id counts as downloaded. *)
Example download_media_empty_file :
  let r := download_media (Fixture.client_of Fixture.photo 0 (λ _, 0)) (Fixture.photo 7 3)
             ["photo"; "video"] {[ "video" := ["all"] ]} Fixture.world0 in
  r.1 = Ok 3 ∧ FAILED_IDS r.2 = [3] ∧ DOWNLOADED_IDS r.2 = []
  ∧ fs r.2 !! "/app/downloads/7/photo/3_photo_2024-01-01T00_00_00.jpg" = None.
Proof. vm_compute. done. Qed.

Example download_media_small_file :
  let r := download_media (Fixture.client_of Fixture.photo 0 (λ _, 600)) (Fixture.photo 7 3)
             ["photo"; "video"] {[ "video" := ["all"] ]} Fixture.world0 in
  r.1 = Ok 3 ∧ FAILED_IDS r.2 = [] ∧ DOWNLOADED_IDS r.2 = [3]
  ∧ fs r.2 !! "/app/downloads/7/photo/3_photo_2024-01-01T00_00_00.jpg" = Some (File 600).
Proof. vm_compute. done. Qed.

(** With batch size 0 the first pending message would dispatch the empty
    batch: the positivity of the batch size is what keeps [max] defined. *)
Example begin_import_batch_size_zero :
  (begin_import (Fixture.client_of Fixture.photo 3 (λ _, 600))
     (Fixture.config0 0 []) 0 Fixture.world0).1 = Raise ValueError.
Proof. vm_compute. done. Qed.

(** A whole run of [main] over 250 messages whose third transfer arrives
    empty: three checkpoints, and the failed id queued for retry. *)
Example main_run :
  let r := main (Fixture.client_of Fixture.photo 250
                   (λ k, if decide (k = 2%nat) then 0 else 600))
             (mkWorld [] [] 0 ∅ {[ "/app/config.yaml" := Fixture.config0 0 [] ]} 0%nat []) in
  r.1 = Ok tt
  ∧ checkpoint_cursors (trace r.2) = [100; 201; 250]
  ∧ FAILED_IDS r.2 = [3]
  ∧ (list_to_set <$> (ids_to_retry <$> yaml r.2 !! "/app/config.yaml"))
    = Some ({[3]} : gset Z).
Proof. vm_compute. done. Qed.

(* ===================================================================== *)
(** * File names ([_sanitize_filename], [_get_media_meta]) *)
(* ===================================================================== *)

Lemma chars_app a b : chars (a +:+ b) = chars a ++ chars b.
Proof. induction a as [|c a IH]; simpl; [done | by rewrite IH]. Qed.

Lemma chars_string_map f s : chars (string_map f s) = f <$> chars s.
Proof. induction s as [|c s IH]; simpl; [done | by rewrite IH]. Qed.

Lemma chars_length s : List.length (chars s) = String.length s.
Proof. induction s as [|c s IH]; simpl; [done | by rewrite IH]. Qed.

Lemma chars_inj a b : chars a = chars b → a = b.
Proof.
  revert b. induction a as [|c a IH]; intros [|d b]; simpl; try done.
  intros [= -> H]. f_equal. by apply IH.
Qed.

Lemma replace_char_map old new s :
  replace_char old new s = string_map (λ c, if Ascii.eqb c old then new else c) s.
Proof. induction s as [|c s IH]; simpl; [done | by rewrite IH]. Qed.

Lemma string_map_compose f g s :
  string_map g (string_map f s) = string_map (λ c, g (f c)) s.
Proof. induction s as [|c s IH]; simpl; [done | by rewrite IH]. Qed.

Lemma string_map_ext f g s : (∀ c, f c = g c) → string_map f s = string_map g s.
Proof. intros H. induction s as [|c s IH]; simpl; [done | by rewrite IH, H]. Qed.

(** [_sanitize_filename] rewrites every character on its own. *)
Lemma sanitize_filename_map filename :
  _sanitize_filename filename = string_map sanitize_char filename.
Proof.
  unfold _sanitize_filename, sanitize_char.
  generalize invalid_chars. intros l. revert filename.
  induction l as [|c l IH]; intros filename; simpl.
  - induction filename as [|x s IHs]; simpl; [done | by rewrite <- IHs].
  - rewrite IH, replace_char_map, string_map_compose. done.
Qed.

(** A character is replaced by the underscore exactly when it is one of
    the invalid ones. *)
Lemma sanitize_char_spec x :
  sanitize_char x = if bool_decide (x ∈ invalid_chars) then "_"%char else x.
Proof. destruct x as [[] [] [] [] [] [] [] []]; vm_compute; reflexivity. Qed.

Lemma sanitize_char_clean x : sanitize_char x ∉ invalid_chars.
Proof.
  rewrite sanitize_char_spec. case_bool_decide as H; [|done]. compute_done.
Qed.

(** No invalid character survives. *)
Lemma sanitize_filename_chars filename c :
  c ∈ invalid_chars → c ∉ chars (_sanitize_filename filename).
Proof.
  intros Hc. rewrite sanitize_filename_map, chars_string_map.
  intros (x & -> & _)%list_elem_of_fmap. by apply (sanitize_char_clean x).
Qed.

(** X1: the sanitized name has the length of the original and holds none
    of the nine characters of [invalid_chars] (among them the slash and
    the backslash). *)
Theorem sanitize_filename_clean filename :
  String.length (_sanitize_filename filename) = String.length filename
  ∧ ∀ c, c ∈ invalid_chars → c ∉ chars (_sanitize_filename filename).
Proof.
  split; [|intros c; apply sanitize_filename_chars].
  by rewrite sanitize_filename_map, <- !chars_length, chars_string_map, length_fmap.
Qed.

(** X2: a name without invalid characters is left as it is, and so
    sanitizing twice is sanitizing once. *)
Theorem sanitize_filename_idempotent filename :
  ((∀ c, c ∈ invalid_chars → c ∉ chars filename) →
     _sanitize_filename filename = filename)
  ∧ _sanitize_filename (_sanitize_filename filename) = _sanitize_filename filename.
Proof.
  assert (∀ s, (∀ c, c ∈ invalid_chars → c ∉ chars s) → _sanitize_filename s = s) as H.
  { intros s Hs. rewrite sanitize_filename_map.
    induction s as [|x s IH]; simpl; [done|].
    rewrite IH.
    - rewrite sanitize_char_spec, bool_decide_eq_false_2; [done|].
      intros Hx. apply (Hs x Hx). simpl. apply elem_of_cons. by left.
    - intros c Hc Hin. apply (Hs c Hc). simpl. apply elem_of_cons. by right. }
  split; [apply H|]. apply H. intros c. apply sanitize_filename_chars.
Qed.

Lemma sanitize_filename_idempotent_witness :
  _sanitize_filename "holiday 2024.jpg" = "holiday 2024.jpg".
Proof.
  destruct (sanitize_filename_idempotent "holiday 2024.jpg") as [H _].
  apply H. apply (proj1 (Forall_forall _ _)). compute_done.
Defined.

Lemma length_app_string a b :
  String.length (a +:+ b) = (String.length a + String.length b)%nat.
Proof. induction a as [|c a IH]; simpl; [done | by rewrite IH]. Qed.

Lemma substring_all s : substring 0 (String.length s) s = s.
Proof. induction s as [|c s IH]; simpl; [done | by rewrite IH]. Qed.

Lemma substring_skip a b :
  substring (String.length a) (String.length b) (a +:+ b) = b.
Proof. induction a as [|c a IH]; simpl; [apply substring_all | done]. Qed.

Lemma endswith_app a b : endswith (a +:+ b) b = true.
Proof.
  unfold endswith. rewrite length_app_string.
  rewrite (proj2 (Nat.leb_le _ _)) by lia.
  replace (String.length a + String.length b - String.length b)%nat
    with (String.length a) by lia.
  rewrite substring_skip. apply String.eqb_refl.
Qed.

(** The text after the last separator holds no separator. *)
Lemma after_last_clean sep s pre :
  sep ∉ chars pre → sep ∉ chars (after_last sep s (pre +:+ s)).
Proof.
  revert pre. induction s as [|c s IH]; intros pre Hpre; simpl.
  - replace (pre +:+ "") with pre; [done|].
    apply chars_inj. by rewrite chars_app, app_nil_r.
  - destruct (Ascii.eqb_spec c sep) as [-> | Hne].
    + apply (IH "" ). simpl. by intros H%elem_of_nil.
    + replace (pre +:+ String c s) with ((pre +:+ String c "") +:+ s).
      * apply IH. rewrite chars_app. simpl.
        intros [H | H]%elem_of_app; [done|].
        apply list_elem_of_singleton in H. by subst.
      * apply chars_inj. rewrite !chars_app. simpl. by rewrite <- app_assoc.
Qed.

Lemma split_last_clean sep s : sep ∉ chars (split_last sep s).
Proof. apply (after_last_clean sep s ""). simpl. by intros H%elem_of_nil. Qed.

(** How [media_file_name] comes to its two results. *)
Lemma media_file_name_inv media _type fmt name :
  media_file_name media _type = Ok (fmt, name) →
  (fmt = (if bool_decide (_type ∈ ["audio"; "document"; "video"; "voice"])
          then split_last "/" <$> mime_type media else None))
  ∧ ∃ original,
      let sanitized := _sanitize_filename original in
      name = (if endswith sanitized (extension_of _type fmt) then sanitized
              else sanitized +:+ extension_of _type fmt).
Proof.
  unfold media_file_name, extension_of.
  case_bool_decide as Hk.
  - destruct (mime_type media) as [mime|]; [|done].
    destruct (file_name media) as [n|]; [destruct (String.eqb n "")|];
      try destruct (date media) as [d|]; try done;
      intros [= <- <-]; (split; [done|]);
      match goal with
      | |- context [endswith (_sanitize_filename ?o) _] => exists o
      end; cbv zeta; by destruct (endswith _ _).
  - destruct (file_name media) as [n|]; [destruct (String.eqb n "")|];
      try destruct (date media) as [d|]; try done;
      intros [= <- <-]; (split; [done|]);
      match goal with
      | |- context [endswith (_sanitize_filename ?o) _] => exists o
      end; cbv zeta; by destruct (endswith _ _).
Qed.

(** X3: the file name that [_get_media_meta] derives carries the
    extension of its kind: the text after the last slash of the MIME type
    for audio, document, video and voice, [.jpg] for a photo, [.mp4] for a
    video note. *)
Theorem media_file_name_extension media _type fmt name :
  media_file_name media _type = Ok (fmt, name) →
  endswith name (extension_of _type fmt) = true
  ∧ fmt = (if bool_decide (_type ∈ ["audio"; "document"; "video"; "voice"])
           then split_last "/" <$> mime_type media else None).
Proof.
  intros H. destruct (media_file_name_inv _ _ _ _ H) as (Hf & original & Hn).
  split; [|done]. cbv zeta in Hn. rewrite Hn.
  destruct (endswith (_sanitize_filename original) _) eqn:E; [done|].
  apply endswith_app.
Qed.

(** X4: the derived file name never holds a slash, whatever the declared
    name and MIME type: the file lands in the directory of its kind. *)
Theorem media_file_name_no_slash media _type fmt name :
  media_file_name media _type = Ok (fmt, name) →
  "/"%char ∉ chars name.
Proof.
  intros H. destruct (media_file_name_inv _ _ _ _ H) as (Hf & original & Hn).
  cbv zeta in Hn.
  assert ("/"%char ∉ chars (_sanitize_filename original)) as Hs.
  { apply sanitize_filename_chars. compute_done. }
  assert ("/"%char ∉ chars (extension_of _type fmt)) as He.
  { rewrite Hf. unfold extension_of. case_bool_decide.
    - destruct (mime_type media) as [mime|]; simpl.
      + intros [H1 | H1]%elem_of_cons; [done|].
        by apply (split_last_clean "/"%char mime).
      + repeat (destruct (String.eqb _ _)); compute_done.
    - repeat (destruct (String.eqb _ _)); compute_done. }
  rewrite Hn. destruct (endswith _ _); [done|].
  rewrite chars_app. by intros [?|?]%elem_of_app.
Qed.

(** X5: [media_file_name] fails in two cases only, both with
    [AttributeError]: a kind that reads the MIME type has none, or the
    media has neither a (non-empty) name nor a date to build one from. *)
Theorem media_file_name_fails media _type e :
  media_file_name media _type = Raise e ↔
  e = AttributeError
  ∧ ((_type ∈ ["audio"; "document"; "video"; "voice"] ∧ mime_type media = None)
     ∨ ((file_name media = None ∨ file_name media = Some "") ∧ date media = None)).
Proof.
  unfold media_file_name. split.
  - case_bool_decide as Hk.
    + destruct (mime_type media) as [mime|]; [|intros [= <-]; eauto].
      destruct (file_name media) as [n|]; [destruct (String.eqb_spec n "")|];
        destruct (date media) as [d|]; try done; intros [= <-]; subst; eauto 6.
    + destruct (file_name media) as [n|]; [destruct (String.eqb_spec n "")|];
        destruct (date media) as [d|]; try done; intros [= <-]; subst; eauto 6.
  - intros [-> [[Hk Hm] | [Hn Hd]]].
    + by rewrite bool_decide_eq_true_2, Hm.
    + rewrite Hd. case_bool_decide.
      * destruct (mime_type media); [|done]. by destruct Hn as [-> | ->].
      * by destruct Hn as [-> | ->].
Qed.

Lemma media_file_name_extension_witness :
  endswith "clip_final.mp4" ".mp4" = true.
Proof.
  destruct (media_file_name_extension (mkMedia (Some "video/mp4") (Some "clip:final") None)
              "video" (Some "mp4") "clip_final.mp4" eq_refl) as [H _].
  exact H.
Defined.

Lemma media_file_name_no_slash_witness :
  "/"%char ∉ chars "a_b_c.x-tar".
Proof.
  exact (media_file_name_no_slash (mkMedia (Some "application/x-tar") (Some "a/b/c") None)
           "document" (Some "x-tar") "a_b_c.x-tar" eq_refl).
Defined.

(* ===================================================================== *)
(** * More on the format filter and the size check *)
(* ===================================================================== *)

(** X6: the three answers of [_can_download].  It answers [False] exactly
    for a governed kind (audio, document, video) whose allow-list is not
    empty, does not start with ["all"] and does not hold the format; it
    raises exactly for a governed kind whose allow-list is missing
    ([KeyError]) or empty ([IndexError]); in every other case it answers
    [True]. *)
Theorem can_download_answers _type file_formats file_format :
  (_can_download _type file_formats file_format = Ok false ↔
     _type ∈ ["audio"; "document"; "video"]
     ∧ ∃ first rest, file_formats !! _type = Some (first :: rest)
                     ∧ first ≠ "all"
                     ∧ py_in file_format (first :: rest) = false)
  ∧ (∀ e, _can_download _type file_formats file_format = Raise e ↔
       _type ∈ ["audio"; "document"; "video"]
       ∧ ((file_formats !! _type = None ∧ e = KeyError)
          ∨ (file_formats !! _type = Some [] ∧ e = IndexError))).
Proof.
  unfold _can_download. split.
  - split.
    + case_bool_decide as Hk; [|done].
      destruct (file_formats !! _type) as [[|first rest]|]; try done.
      * by destruct (py_in file_format []).
      * destruct (py_in file_format (first :: rest)) eqn:E; [done|]. simpl.
        destruct (String.eqb_spec first "all"); [done|]. intros _. eauto 8.
    + intros (Hk & first & rest & -> & Hne & ->). rewrite bool_decide_eq_true_2 by done.
      simpl. by destruct (String.eqb_spec first "all").
  - intros e. split.
    + case_bool_decide as Hk; [|done].
      destruct (file_formats !! _type) as [[|first rest]|]; try (intros [= <-]; eauto).
      * destruct (py_in file_format []) eqn:E; [by destruct file_format|].
        intros [= <-]. eauto.
      * destruct (py_in file_format (first :: rest)); [done|]. simpl.
        by destruct (String.eqb first "all").
    + intros (Hk & [[-> ->] | [-> ->]]); rewrite bool_decide_eq_true_2 by done; [done|].
      by destruct file_format.
Qed.

Section SizeCheck.
Context {C : Type} (X : Externals C).

(** X7: the verdict of [_is_valid_file] does not depend on [min_size]: a
    path is valid exactly when the size that [os.path.getsize] reports
    for it is not zero (the length of a regular file, the size of the
    entry of a directory), a missing path raises [OSError]; the files and
    both id lists are left alone. *)
Theorem is_valid_file_verdict path min_size (w : World C) :
  (_is_valid_file X path min_size w).1
  = match fs w !! path with
    | Some (File n) => Ok (negb (n =? 0))
    | Some Dir => Ok (negb (dir_size X (fs w) path =? 0))
    | None => Raise OSError
    end
  ∧ fs (_is_valid_file X path min_size w).2 = fs w
  ∧ FAILED_IDS (_is_valid_file X path min_size w).2 = FAILED_IDS w
  ∧ DOWNLOADED_IDS (_is_valid_file X path min_size w).2 = DOWNLOADED_IDS w.
Proof.
  unfold _is_valid_file, bind, getsize.
  destruct (fs w !! path) as [[n|]|]; [| |done].
  - destruct (n =? 0); [done|]. by destruct (n <? min_size).
  - destruct (dir_size X (fs w) path =? 0); [done|].
    by destruct (dir_size X (fs w) path <? min_size).
Qed.
End SizeCheck.

(* ===================================================================== *)
(** * More on fetching one message *)
(* ===================================================================== *)

Section Fetching.
Context {C : Type} (X : Externals C).

(** Up to the transfer: a kind that is present and passes the filter gets
    its directory, its target path, and then the transfer is called. *)
Lemma download_type_reach message chat file_formats k media fmt name (w : World C) :
  let dir := path_join (path_join (DOWNLOADS_DIR X) chat) k in
  let f1 := ensure_dir dir (fs w) in
  let p := target_path X f1 (path_join dir (str (m_id message) +:+ "_" +:+ name)) in
  m_attrs message !! k = Some media →
  media_file_name media k = Ok (fmt, name) →
  _can_download k file_formats fmt = Ok true →
  creatable dir (fs w) →
  download_type X message chat (m_id message) file_formats k w
  = (download_path <- download_media_call X message p ;;
     check_download X download_path chat (m_id message))
      (mkWorld (FAILED_IDS w) (DOWNLOADED_IDS w) (TOTAL_FILES w) f1 (yaml w)
         (client w) (trace w)).
Proof.
  intros dir f1 p Hk Hname Hcan Hdir.
  unfold download_type. rewrite Hk.
  unfold _get_media_meta. unfold bind at 1. unfold bind at 1. unfold lift at 1.
  rewrite Hname. unfold bind at 1.
  rewrite (create_directories_run X chat k w Hdir). fold dir f1. cbn [fst snd ret].
  unfold bind at 1. unfold lift at 1. rewrite Hcan.
  unfold bind at 1. rewrite is_exist_run. cbn [fs].
  unfold p, target_path, get_next_name_call.
  destruct (f1 !! path_join dir (str (m_id message) +:+ "_" +:+ name)) as [[n|]|];
    reflexivity.
Qed.

(** A kind that is present but filtered out costs nothing but its
    directory. *)
Lemma download_type_filtered message chat file_formats k media fmt name (w : World C) :
  let dir := path_join (path_join (DOWNLOADS_DIR X) chat) k in
  m_attrs message !! k = Some media →
  media_file_name media k = Ok (fmt, name) →
  _can_download k file_formats fmt = Ok false →
  creatable dir (fs w) →
  download_type X message chat (m_id message) file_formats k w
  = (Ok tt, mkWorld (FAILED_IDS w) (DOWNLOADED_IDS w) (TOTAL_FILES w)
              (ensure_dir dir (fs w)) (yaml w) (client w) (trace w)).
Proof.
  intros dir Hk Hname Hcan Hdir.
  unfold download_type. rewrite Hk.
  unfold _get_media_meta. unfold bind at 1. unfold bind at 1. unfold lift at 1.
  rewrite Hname. unfold bind at 1.
  rewrite (create_directories_run X chat k w Hdir). fold dir. cbn [fst snd ret].
  unfold bind at 1. unfold lift at 1. by rewrite Hcan.
Qed.

(** The kinds before the first one present are passed over. *)
Lemma for_types_first message chat i file_formats pre k post (w : World C) :
  (∀ k', k' ∈ pre → m_attrs message !! k' = None) →
  for_types X message chat i file_formats (pre ++ k :: post) w
  = (download_type X message chat i file_formats k ;;
     for_types X message chat i file_formats post) w.
Proof. intros H. by rewrite for_types_absent. Qed.

(** X8: a message none of whose configured kinds is present (a sticker,
    a poll, a kind left out of [media_types]) is passed over: no transfer,
    no record, the world as it was, the id returned. *)
Theorem download_media_unconfigured message media_types file_formats (w : World C) :
  (∀ k, k ∈ media_types → m_attrs message !! k = None) →
  download_media X message media_types file_formats w = (Ok (m_id message), w).
Proof.
  intros H. unfold download_media. simpl. unfold try_except, try_block.
  destruct (m_media message); [|done].
  unfold bind. by rewrite for_types_skip.
Qed.

(** X9: a message whose only configured kind present is filtered out by
    the allow-list is skipped, not failed, when the directory of the kind
    can be made (no regular file at its path or at the path of an
    ancestor): no transfer is made, neither id list changes, only the
    directory of the kind is created, with the ancestors that were
    missing. *)
Theorem download_media_filtered message media_types file_formats pre k post kind media
    fmt name (w : World C) :
  let dir := path_join (path_join (DOWNLOADS_DIR X) (str (m_chat_id message))) k in
  m_media message = Some kind →
  media_types = pre ++ k :: post →
  (∀ k', k' ∈ pre ++ post → m_attrs message !! k' = None) →
  m_attrs message !! k = Some media →
  media_file_name media k = Ok (fmt, name) →
  _can_download k file_formats fmt = Ok false →
  creatable dir (fs w) →
  download_media X message media_types file_formats w
  = (Ok (m_id message),
     mkWorld (FAILED_IDS w) (DOWNLOADED_IDS w) (TOTAL_FILES w)
       (ensure_dir dir (fs w)) (yaml w) (client w) (trace w)).
Proof.
  intros dir Hm -> Habs Hk Hname Hcan Hdir.
  unfold download_media. cbn [attempts]. unfold try_except, try_block. rewrite Hm.
  unfold bind at 1.
  rewrite for_types_first by (intros; apply Habs, elem_of_app; by left).
  unfold bind at 1.
  rewrite (download_type_filtered message _ file_formats k media fmt name w Hk Hname
             Hcan Hdir).
  rewrite for_types_skip by (intros; apply Habs, elem_of_app; by right). done.
Qed.

(** One attempt whose transfer raises [e]. *)
Lemma try_block_raise message media_types file_formats pre k post kind media fmt name
    e c' f' (w : World C) :
  let chat := str (m_chat_id message) in
  let dir := path_join (path_join (DOWNLOADS_DIR X) chat) k in
  let f1 := ensure_dir dir (fs w) in
  let p := target_path X f1 (path_join dir (str (m_id message) +:+ "_" +:+ name)) in
  m_media message = Some kind →
  media_types = pre ++ k :: post →
  (∀ k', k' ∈ pre → m_attrs message !! k' = None) →
  m_attrs message !! k = Some media →
  media_file_name media k = Ok (fmt, name) →
  _can_download k file_formats fmt = Ok true →
  creatable dir (fs w) →
  client_download_media X (client w) f1 message p = (Raise e, c', f') →
  try_block X message chat (m_id message) media_types file_formats w
  = (Raise e,
     mkWorld (FAILED_IDS w) (DOWNLOADED_IDS w) (TOTAL_FILES w) f' (yaml w) c'
       (trace w ++ [EvTransfer (m_id message) p])).
Proof.
  intros chat dir f1 p Hm -> Hpre Hk Hname Hcan Hdir Hcall.
  unfold try_block. rewrite Hm. unfold bind at 1.
  rewrite for_types_first by done. unfold bind at 1.
  rewrite (download_type_reach message chat file_formats k media fmt name w Hk Hname
             Hcan Hdir).
  fold dir f1 p. unfold bind at 1. unfold download_media_call, bind, emit.
  cbn [fs client trace FAILED_IDS DOWNLOADED_IDS TOTAL_FILES yaml].
  by rewrite Hcall.
Qed.

(** X10: an [Exception] of the transfer other than the stale reference
    and the timeout signal is permanent (the directory of the kind can be
    made): one attempt, no sleep, no second transfer; the exception is
    logged and the id is appended to the failed ids once.  (An exception
    that is not an [Exception] is not caught: see
    [download_media_interrupted].) *)
Theorem download_media_permanent message media_types file_formats pre k post kind media
    fmt name e c' f' (w : World C) :
  let i := m_id message in
  let dir := path_join (path_join (DOWNLOADS_DIR X) (str (m_chat_id message))) k in
  let f1 := ensure_dir dir (fs w) in
  let p := target_path X f1 (path_join dir (str i +:+ "_" +:+ name)) in
  m_media message = Some kind →
  media_types = pre ++ k :: post →
  (∀ k', k' ∈ pre → m_attrs message !! k' = None) →
  m_attrs message !! k = Some media →
  media_file_name media k = Ok (fmt, name) →
  _can_download k file_formats fmt = Ok true →
  creatable dir (fs w) →
  client_download_media X (client w) f1 message p = (Raise e, c', f') →
  is_exception e = true → e ≠ BadRequest → e ≠ TypeError →
  download_media X message media_types file_formats w
  = (Ok i,
     mkWorld (FAILED_IDS w ++ [i]) (DOWNLOADED_IDS w) (TOTAL_FILES w) f' (yaml w) c'
       (trace w ++ [EvTransfer i p; EvLog (LogException i e)])).
Proof.
  intros i dir f1 p Hm Hmt Hpre Hk Hname Hcan Hdir Hcall Hex He1 He2.
  unfold download_media. cbn [attempts]. unfold try_except at 1.
  rewrite (try_block_raise message media_types file_formats pre k post kind media fmt
             name e c' f' w Hm Hmt Hpre Hk Hname Hcan Hdir Hcall).
  fold i dir f1 p.
  destruct e; try done; cbn; by rewrite <- app_assoc.
Qed.
End Fetching.

Lemma download_media_unconfigured_witness :
  download_media (Fixture.client_of Fixture.photo 0 (λ _, 600)) (Fixture.photo 7 3)
    ["audio"; "video"] ∅ Fixture.world0
  = (Ok 3, Fixture.world0).
Proof.
  apply download_media_unconfigured.
  intros k Hk. simpl. apply lookup_singleton_None.
  intros <-. revert Hk. compute_done.
Defined.

Section Stale.
Context {C : Type} (X : Externals C).

Lemma get_message_call_run chat j r c' (w : World C) :
  client_get_message X (client w) chat j = (r, c') →
  get_message_call X chat j w
  = (r, mkWorld (FAILED_IDS w) (DOWNLOADED_IDS w) (TOTAL_FILES w) (fs w) (yaml w) c'
          (trace w ++ [EvRefetch chat j])).
Proof. intros H. unfold get_message_call, bind, emit. simpl. by rewrite H. Qed.

(** One attempt that ends in the stale-reference handler. *)
Lemma attempts_stale_step retry rest message media_types file_formats pre k post kind
    media fmt name (w : World C) :
  let i := m_id message in
  let chat := str (m_chat_id message) in
  let dir := path_join (path_join (DOWNLOADS_DIR X) chat) k in
  let f1 := ensure_dir dir (fs w) in
  let p := target_path X f1 (path_join dir (str i +:+ "_" +:+ name)) in
  m_media message = Some kind →
  media_types = pre ++ k :: post →
  (∀ k', k' ∈ pre → m_attrs message !! k' = None) →
  m_attrs message !! k = Some media →
  media_file_name media k = Ok (fmt, name) →
  _can_download k file_formats fmt = Ok true →
  (∀ c f m q, ∃ c', client_download_media X c f m q = (Raise BadRequest, c', f)) →
  (∀ c, ∃ c', client_get_message X c (m_chat_id message) i = (Ok message, c')) →
  creatable dir (fs w) →
  ∃ c',
    attempts X (retry :: rest) message chat i media_types file_formats w
    = ((if retry =? 2
        then log (LogReferenceExpired i) ;; append_failed i
        else ret tt) ;;
       attempts X rest message chat i media_types file_formats)
        (mkWorld (FAILED_IDS w) (DOWNLOADED_IDS w) (TOTAL_FILES w) f1 (yaml w) c'
           (trace w ++ [EvTransfer i p; EvRefetch (m_chat_id message) i])).
Proof.
  intros i chat dir f1 p Hm Hmt Hpre Hk Hname Hcan Hraise Hre Hdir.
  destruct (Hraise (client w) f1 message p) as [c1 Hc1].
  destruct (Hre c1) as [c2 Hc2]. exists c2.
  cbn [attempts]. unfold try_except at 1. unfold chat, i.
  rewrite (try_block_raise X message media_types file_formats pre k post kind media fmt
             name BadRequest c1 f1 w Hm Hmt Hpre Hk Hname Hcan Hdir Hc1).
  cbn iota. unfold bind at 1.
  erewrite get_message_call_run by exact Hc2.
  cbn [trace FAILED_IDS DOWNLOADED_IDS TOTAL_FILES fs yaml client].
  by rewrite <- app_assoc.
Qed.

(** X11: a transfer that reports a stale reference on every call, with a
    re-fetch that answers the same message, in a file system in which the
    directory of the kind can be made: three transfers, a re-fetch after
    each, no sleep; then the expiry is logged and the id is appended to
    the failed ids once. *)
Theorem download_media_stale message media_types file_formats pre k post kind media
    fmt name (w : World C) :
  let i := m_id message in
  let dir := path_join (path_join (DOWNLOADS_DIR X) (str (m_chat_id message))) k in
  let p := target_path X (ensure_dir dir (fs w))
             (path_join dir (str i +:+ "_" +:+ name)) in
  m_media message = Some kind →
  media_types = pre ++ k :: post →
  (∀ k', k' ∈ pre → m_attrs message !! k' = None) →
  m_attrs message !! k = Some media →
  media_file_name media k = Ok (fmt, name) →
  _can_download k file_formats fmt = Ok true →
  (∀ c f m q, ∃ c', client_download_media X c f m q = (Raise BadRequest, c', f)) →
  (∀ c, ∃ c', client_get_message X c (m_chat_id message) i = (Ok message, c')) →
  creatable dir (fs w) →
  ∃ c',
    download_media X message media_types file_formats w
    = (Ok i,
       mkWorld (FAILED_IDS w ++ [i]) (DOWNLOADED_IDS w) (TOTAL_FILES w)
         (ensure_dir dir (fs w)) (yaml w) c'
         (trace w ++ [EvTransfer i p; EvRefetch (m_chat_id message) i;
                      EvTransfer i p; EvRefetch (m_chat_id message) i;
                      EvTransfer i p; EvRefetch (m_chat_id message) i;
                      EvLog (LogReferenceExpired i)])).
Proof.
  intros i dir p Hm Hmt Hpre Hk Hname Hcan Hraise Hre Hdir.
  pose proof (ensure_dir_idemp dir (fs w)) as Hid.
  pose proof (ensure_dir_creatable dir dir (fs w) Hdir) as Hok.
  pose proof (λ retry rest w',
                attempts_stale_step retry rest message media_types file_formats pre k
                  post kind media fmt name w' Hm Hmt Hpre Hk Hname Hcan Hraise Hre)
    as Hstep.
  cbv zeta in Hstep. fold i dir in Hstep.
  unfold download_media. fold i.
  destruct (Hstep 0 [1; 2] w Hdir) as [c1 ->]. fold p.
  unfold bind at 1. cbn [Z.eqb ret].
  match goal with |- context [attempts _ _ _ _ _ _ _ ?w1] =>
    destruct (Hstep 1 [2] w1) as [c2 ->]; [exact Hok|] end.
  cbn [fs trace FAILED_IDS DOWNLOADED_IDS TOTAL_FILES yaml client]. rewrite Hid. fold p.
  unfold bind at 1. cbn [Z.eqb Pos.eqb ret].
  match goal with |- context [attempts _ _ _ _ _ _ _ ?w1] =>
    destruct (Hstep 2 [] w1) as [c3 ->]; [exact Hok|] end.
  cbn [fs trace FAILED_IDS DOWNLOADED_IDS TOTAL_FILES yaml client]. rewrite Hid. fold p.
  exists c3. cbn. rewrite <- !app_assoc. by cbn.
Qed.
End Stale.

Lemma download_media_filtered_witness :
  download_media (Fixture.client_of Fixture.video 0 (λ _, 600)) (Fixture.video 7 3)
    ["photo"; "video"] {[ "video" := ["mkv"] ]} Fixture.world0
  = (Ok 3, mkWorld [] [] 0 Fixture.videos_of_7 ∅ 0%nat []).
Proof.
  apply (download_media_filtered (Fixture.client_of Fixture.video 0 (λ _, 600))
           (Fixture.video 7 3) ["photo"; "video"] {[ "video" := ["mkv"] ]}
           ["photo"] "video" [] "video"
           (mkMedia (Some "video/mp4") (Some "clip.mp4") None) (Some "mp4") "clip.mp4"
           Fixture.world0);
    try reflexivity.
  - intros k' Hk'. apply list_elem_of_singleton in Hk'. by subst k'.
  - apply creatable_forallb. vm_compute. reflexivity.
Defined.

Lemma download_media_permanent_witness :
  download_media (Fixture.raising OSError Fixture.video) (Fixture.video 7 3)
    ["photo"; "video"] {[ "video" := ["all"] ]} Fixture.world0
  = (Ok 3,
     mkWorld [3] [] 0 Fixture.videos_of_7 ∅ 1%nat
       [EvTransfer 3 "/app/downloads/7/video/3_clip.mp4";
        EvLog (LogException 3 OSError)]).
Proof.
  apply (download_media_permanent (Fixture.raising OSError Fixture.video)
           (Fixture.video 7 3) ["photo"; "video"] {[ "video" := ["all"] ]}
           ["photo"] "video" [] "video"
           (mkMedia (Some "video/mp4") (Some "clip.mp4") None) (Some "mp4") "clip.mp4"
           OSError 1%nat Fixture.videos_of_7 Fixture.world0);
    try reflexivity; try done.
  - intros k' Hk'. apply list_elem_of_singleton in Hk'. by subst k'.
  - apply creatable_forallb. vm_compute. reflexivity.
Defined.

Lemma download_media_stale_witness :
  ∃ c',
    download_media (Fixture.raising BadRequest Fixture.video) (Fixture.video 7 3)
      ["photo"; "video"] {[ "video" := ["all"] ]} Fixture.world0
    = (Ok 3,
       mkWorld [3] [] 0 Fixture.videos_of_7 ∅ c'
         [EvTransfer 3 "/app/downloads/7/video/3_clip.mp4"; EvRefetch 7 3;
          EvTransfer 3 "/app/downloads/7/video/3_clip.mp4"; EvRefetch 7 3;
          EvTransfer 3 "/app/downloads/7/video/3_clip.mp4"; EvRefetch 7 3;
          EvLog (LogReferenceExpired 3)]).
Proof.
  apply (download_media_stale (Fixture.raising BadRequest Fixture.video)
           (Fixture.video 7 3) ["photo"; "video"] {[ "video" := ["all"] ]}
           ["photo"] "video" [] "video"
           (mkMedia (Some "video/mp4") (Some "clip.mp4") None) (Some "mp4") "clip.mp4"
           Fixture.world0);
    try reflexivity; try done.
  - intros k' Hk'. apply list_elem_of_singleton in Hk'. by subst k'.
  - intros c f m q. by exists (S c).
  - intros c. by exists c.
  - apply creatable_forallb. vm_compute. reflexivity.
Defined.

(* ===================================================================== *)
(** * What [download_media] catches *)
(* ===================================================================== *)

Section Ends.
Context {C : Type}.

Lemma finishes_ret {A} (a : A) (S : A → Prop) E : S a → finishes (C:=C) S E (ret a).
Proof. by intros HS w. Qed.

Lemma finishes_raise {A} (S : A → Prop) (E : exn → Prop) e :
  E e → finishes (C:=C) S E (raise e).
Proof. by intros HE w. Qed.

Lemma finishes_lift {A} (S : A → Prop) E (r : result A) :
  ends S E r → finishes (C:=C) S E (lift r).
Proof. by intros H w. Qed.

Lemma finishes_bind {A B} (m : M C A) (k : A → M C B) (S1 : A → Prop) (S2 : B → Prop) E :
  finishes S1 E m → (∀ a, S1 a → finishes S2 E (k a)) → finishes S2 E (bind m k).
Proof.
  intros Hm Hk w. unfold bind. specialize (Hm w).
  destruct (m w) as [[a|e] w1]; simpl in *; [by apply Hk | done].
Qed.

Lemma finishes_weaken {A} (m : M C A) (S S' : A → Prop) (E E' : exn → Prop) :
  finishes S E m → (∀ a, S a → S' a) → (∀ e, E e → E' e) → finishes S' E' m.
Proof.
  intros Hm HS HE w. specialize (Hm w). destruct (m w).1; simpl in *; auto.
Qed.

(** What raises nothing but [Exception]s. *)
Lemma finishes_exceptions {A} (m : M C A) E :
  (∀ w e, (m w).1 = Raise e → is_exception e = true) →
  finishes (λ _, True) (exception_or E) m.
Proof.
  intros H w. specialize (H w). destruct (m w).1 as [a|e]; simpl; [done|].
  left. by apply H.
Qed.
End Ends.

Ltac plain_exceptions :=
  apply finishes_exceptions; intros w e;
  cbv beta delta [emit log append_failed append_downloaded get_world set_fs isdir
                  exists_ getsize makedirs remove sleep lift ret bind
                  get_next_name_call _is_exist];
  repeat case_match; simpl; intros ?; by simplify_eq.

Section CoEnds.
Context {C : Type}.

Lemma co_ends_atomic {A} (m : M C A) (S : A → Prop) E :
  finishes S E m → co_ends S E (atomic m).
Proof.
  intros H g. apply co_safe_atomic. intros w. exists g.
  split; [done|]. split; [done | apply H].
Qed.

Lemma co_ends_await {A} (m : M C A) (S : A → Prop) E :
  finishes S E m → co_ends S E (await m).
Proof.
  intros H g. apply co_safe_await; [done|]. intros w. exists g.
  split; [done|]. split; [done | apply H].
Qed.

Lemma co_ends_bind {A B} (m : Co C A) (k : A → Co C B) (S1 : A → Prop)
    (S2 : B → Prop) E :
  co_ends S1 E m → (∀ a, S1 a → co_ends S2 E (k a)) → co_ends S2 E (co_bind m k).
Proof.
  intros Hm Hk g.
  eapply co_safe_bind with (S1 := λ r g', g' = g ∧ ends S1 E r);
    [intros; congruence | apply Hm | |].
  - intros a g1 [-> Ha]. by apply Hk.
  - by intros e g1 [-> He].
Qed.

Lemma co_ends_try {A B} (m : Co C A) (k : A → Co C B) (h : exn → Co C B)
    (S1 : A → Prop) (S2 : B → Prop) E1 E2 :
  co_ends S1 E1 m → (∀ a, S1 a → co_ends S2 E2 (k a)) →
  (∀ e, E1 e → co_ends S2 E2 (h e)) →
  co_ends S2 E2 (co_try m k h).
Proof.
  intros Hm Hk Hh g.
  eapply co_safe_try with (S1 := λ r g', g' = g ∧ ends S1 E1 r);
    [intros; congruence | apply Hm | |].
  - intros a g1 [-> Ha]. by apply Hk.
  - intros e g1 [-> He]. by apply Hh.
Qed.

(** Awaited on its own, the coroutine ends in the same way. *)
Lemma co_ends_run {A} (c : Co C A) (S : A → Prop) E :
  co_ends S E c → finishes S E (run c).
Proof.
  intros Hc w.
  assert (∀ (g1 g2 g3 : Z) (w1 w2 w3 : World C), g1 = g2 → g2 = g3 → g1 = g3) as Htr
    by (intros; congruence).
  destruct (safe_finish (λ (g1 g2 : Z) (_ _ : World C), g1 = g2) Htr _ (c w) 0 w
              (Hc 0 w)) as (g' & _ & _ & H).
  exact H.
Qed.
End CoEnds.

Section Caught.
Context {C : Type} (X : Externals C).

(** [E]: what the transfer and the handling of duplicates may raise. *)
Context (E : exn → Prop).
Hypothesis transfer_raises :
  ∀ c f m p e c' f', client_download_media X c f m p = (Raise e, c', f') → E e.
Hypothesis duplicate_raises :
  ∀ f p e f', manage_duplicate_file X f p = (Raise e, f') → E e.

Local Abbreviation guarded := (finishes (C:=C) (λ _, True) (exception_or E)).

Lemma download_media_call_ends message path :
  guarded (download_media_call X message path).
Proof.
  intros w. unfold download_media_call, bind, emit. simpl.
  destruct (client_download_media X _ _ _ _) as [[[a|e] c'] f'] eqn:Hc; simpl; [done|].
  right. by eapply transfer_raises.
Qed.

Lemma manage_duplicate_file_call_ends path :
  guarded (manage_duplicate_file_call X path).
Proof.
  intros w. unfold manage_duplicate_file_call.
  destruct (manage_duplicate_file X _ _) as [[a|e] f'] eqn:Hc; simpl; [done|].
  right. by eapply duplicate_raises.
Qed.

Lemma media_file_name_ends media k :
  ends (λ _, True) (exception_or E) (media_file_name media k).
Proof.
  unfold media_file_name. repeat case_match; simplify_eq/=; try done; by left.
Qed.

Lemma can_download_ends k file_formats fmt :
  ends (λ _, True) (exception_or E) (_can_download k file_formats fmt).
Proof.
  unfold _can_download. repeat case_match; simplify_eq/=; try done; by left.
Qed.

Lemma get_media_meta_ends media k chat i :
  guarded (_get_media_meta X media k chat i).
Proof.
  unfold _get_media_meta, _create_directories.
  apply finishes_bind with (S1 := λ _, True);
    [apply finishes_lift, media_file_name_ends | intros named _].
  apply finishes_bind with (S1 := λ _, True); [|intros ? _; by apply finishes_ret].
  apply finishes_bind with (S1 := λ _, True); [|intros ? _; by apply finishes_ret].
  plain_exceptions.
Qed.

Lemma is_valid_file_ends path min_size :
  guarded (_is_valid_file X path min_size).
Proof.
  unfold _is_valid_file.
  apply finishes_bind with (S1 := λ _, True); [plain_exceptions | intros n _].
  repeat case_match;
    repeat first [ by apply finishes_ret
                 | apply finishes_bind with (S1 := λ _, True); [plain_exceptions | intros ? _] ].
Qed.

Lemma check_download_ends path chat i :
  guarded (check_download X path chat i).
Proof.
  unfold check_download. destruct path as [p|]; [|by apply finishes_ret].
  destruct (String.eqb p ""); [by apply finishes_ret|].
  apply finishes_bind with (S1 := λ _, True); [apply is_valid_file_ends | intros valid _].
  destruct valid; simpl.
  - apply finishes_bind with (S1 := λ _, True);
      [apply manage_duplicate_file_call_ends | intros p' _].
    apply finishes_bind with (S1 := λ _, True); [plain_exceptions | intros w' _].
    apply finishes_bind with (S1 := λ _, True); [plain_exceptions | intros ? _].
    plain_exceptions.
  - apply finishes_bind with (S1 := λ _, True); [plain_exceptions | intros ? _].
    apply finishes_bind with (S1 := λ _, True); [plain_exceptions | intros ? _].
    plain_exceptions.
Qed.

Lemma download_type_ends message chat i file_formats k :
  co_ends (λ _, True) (exception_or E) (Async.download_type X message chat i file_formats k).
Proof.
  unfold Async.download_type. destruct (m_attrs message !! k) as [media|];
    [|by apply co_ends_atomic, finishes_ret].
  apply co_ends_bind with (S1 := λ _, True);
    [apply co_ends_atomic, get_media_meta_ends | intros meta _].
  apply co_ends_bind with (S1 := λ _, True);
    [apply co_ends_atomic, finishes_lift, can_download_ends | intros can _].
  destruct can; [|by apply co_ends_atomic, finishes_ret].
  apply co_ends_bind with (S1 := λ _, True);
    [apply co_ends_atomic; plain_exceptions | intros taken _].
  apply co_ends_bind with (S1 := λ _, True);
    [apply co_ends_atomic; destruct taken; plain_exceptions | intros name _].
  apply co_ends_bind with (S1 := λ _, True);
    [apply co_ends_await, download_media_call_ends | intros path _].
  apply co_ends_atomic, check_download_ends.
Qed.

Lemma for_types_ends message chat i file_formats kinds :
  co_ends (λ _, True) (exception_or E) (Async.for_types X message chat i file_formats kinds).
Proof.
  induction kinds as [|k kinds IH]; simpl; [by apply co_ends_atomic, finishes_ret|].
  apply co_ends_bind with (S1 := λ _, True); [apply download_type_ends | by intros _ _].
Qed.

(** The [try] block ends by [return message.id] or at [break], or with
    an exception. *)
Lemma try_block_ends message chat i kinds file_formats :
  co_ends (λ f, f = Return (m_id message) ∨ f = Break) (exception_or E)
    (Async.try_block X message chat i kinds file_formats).
Proof.
  unfold Async.try_block. destruct (m_media message).
  - apply co_ends_bind with (S1 := λ _, True); [apply for_types_ends | intros _ _].
    apply co_ends_atomic, finishes_ret. by right.
  - apply co_ends_atomic, finishes_ret. by left.
Qed.

Section Refetch.
Hypothesis refetch_answers :
  ∀ c ch j, ∃ m c', client_get_message X c ch j = (Ok m, c') ∧ m_id m = j.

Lemma get_message_call_ends ch j E' :
  finishes (λ m, m_id m = j) E' (get_message_call X ch j).
Proof.
  intros w. unfold get_message_call, bind, emit. simpl.
  destruct (refetch_answers (client (C:=C) w) ch j) as (m & c' & Hc & Hm).
  by rewrite Hc.
Qed.

Local Abbreviation escaping := (λ e, is_exception e = false ∧ E e).

(** The handlers let through what is not an [Exception], and nothing
    else. *)
Lemma attempts_ends retries chat i kinds file_formats message :
  m_id message = i →
  co_ends (λ v, v = i) escaping (Async.attempts X retries message chat i kinds file_formats).
Proof.
  revert message. induction retries as [|retry retries IH]; intros message Hi; simpl.
  - by apply co_ends_atomic, finishes_ret.
  - apply co_ends_try with (S1 := λ f, f = Return i ∨ f = Break) (E1 := exception_or E).
    + rewrite <- Hi. apply try_block_ends.
    + intros f [-> | ->]; by apply co_ends_atomic, finishes_ret.
    + assert (∀ l message', m_id message' = i →
                co_ends (λ v, v = i) escaping
                  (co_bind (atomic (if retry =? 2 then (log l ;; append_failed i)%py
                                    else ret tt))
                     (λ _, Async.attempts X retries message' chat i kinds file_formats)))
        as Hrest.
      { intros l message' Hi'. apply co_ends_bind with (S1 := λ _, True).
        - apply co_ends_atomic. intros w. by destruct (retry =? 2).
        - intros _ _. by apply IH. }
      assert (∀ e, co_ends (C:=C) (λ v, v = i) escaping
                     (atomic (log (LogException i e) ;; append_failed i ;; ret i)%py))
        as Hlog.
      { intros e. apply co_ends_atomic. by intros w. }
      intros e He. destruct e; try apply Hlog.
      * apply co_ends_bind with (S1 := λ m, m_id m = i);
          [apply co_ends_await, get_message_call_ends | intros message' Hi'].
        by apply Hrest.
      * apply co_ends_bind with (S1 := λ _, True);
          [apply co_ends_await; by intros w | intros _ _].
        by apply Hrest.
      * apply co_ends_atomic, finishes_raise. split; [done|].
        by destruct He as [He | He].
Qed.

Lemma download_media_ends message kinds file_formats :
  co_ends (λ v, v = m_id message) escaping
    (Async.download_media X message kinds file_formats).
Proof. by apply attempts_ends. Qed.

(** Awaited on its own, a download returns the id of its message, unless
    an exception outside [Exception] gets out. *)
Lemma download_media_contained message kinds file_formats (w : World C) :
  contained E (λ v, v = m_id message) (download_media X message kinds file_formats w).1.
Proof.
  rewrite <- download_media_alone.
  apply (co_ends_run _ _ _ (download_media_ends message kinds file_formats) w).
Qed.

(** Whatever the schedule, a batch returns the ids of its messages, in
    order, unless such an exception gets out. *)
Lemma gather_contained messages kinds file_formats (w : World C) :
  contained E (λ ids, ids = m_id <$> messages) (gather X messages kinds file_formats w).1.
Proof.
  destruct (gather_safe (λ (g1 g2 : Z) (_ _ : World C), g1 = g2)) with
    (X := X) (S := λ (r : result Z) (g : Z), ends (λ v, v = g) escaping r)
    (Inv := λ (gs : list Z) (_ : World C), gs = m_id <$> messages)
    (messages := messages) (kinds := kinds) (file_formats := file_formats)
    (g0 := m_id) (w := w) as (gs & _ & HI & Hres).
  - done.
  - intros; congruence.
  - intros gs1 g gs2 g' w1 w2 <-. done.
  - intros message _. eapply co_safe_weaken; [apply download_media_ends|].
    intros r g [-> Hr]. exact Hr.
  - done.
  - subst gs. unfold contained.
    destruct (gather X messages kinds file_formats w).1 as [ids|e]; simpl in *.
    + clear -Hres. revert ids Hres. induction (m_id <$> messages) as [|i l IH];
        intros ids H; inversion H; subst; [done|]. f_equal. by apply IH.
    + by destruct Hres as (g & _ & Hg).
Qed.

Lemma process_messages_max messages kinds file_formats (w : World C) :
  messages ≠ [] →
  contained E (λ m, m ∈ m_id <$> messages ∧ ∀ j, j ∈ m_id <$> messages → j ≤ m)
    (process_messages X messages kinds file_formats w).1.
Proof.
  intros Hne. rewrite process_messages_run. cbv zeta. cbn [fst].
  pose proof (gather_contained messages kinds file_formats
                (emit (EvGather (m_id <$> messages)) w).2) as Hg.
  destruct (gather X messages kinds file_formats _).1 as [ids|e]; [|exact Hg].
  simpl in Hg. subst ids.
  destruct (py_max_spec (m_id <$> messages)) as (m & -> & Hm); [by destruct messages|].
  exact Hm.
Qed.
End Refetch.
End Caught.


(** An exception outside [Exception] gets out at once. *)
Example download_media_interrupted :
  let r := download_media (Fixture.raising (Interrupt "CancelledError") Fixture.video)
             (Fixture.video 7 3) ["photo"; "video"] {[ "video" := ["all"] ]}
             Fixture.world0 in
  r.1 = Raise (Interrupt "CancelledError")
  ∧ FAILED_IDS r.2 = []
  ∧ trace r.2 = [EvTransfer 3 "/app/downloads/7/video/3_clip.mp4"].
Proof. vm_compute. done. Qed.

(* ===================================================================== *)
(** * The effort spent on one message *)
(* ===================================================================== *)

Section Effort.
Context {C : Type} (X : Externals C).

(** [f] weighs the events: nothing for a log line, at most [a] for a
    transfer, [s] for a sleep, [r] for a fetch by id. *)
Context (f : event → nat) (a s r : nat).
Hypothesis weigh_log : ∀ l, f (EvLog l) = 0%nat.
Hypothesis weigh_transfer : ∀ i p, (f (EvTransfer i p) ≤ a)%nat.
Hypothesis weigh_sleep : ∀ n, (f (EvSleep n) ≤ s)%nat.
Hypothesis weigh_refetch : ∀ ch j, (f (EvRefetch ch j) ≤ r)%nat.

Local Abbreviation free := (steps (C:=C) (extends (λ e, f e = 0%nat))).

Lemma weight_app t1 t2 : weight f (t1 ++ t2) = (weight f t1 + weight f t2)%nat.
Proof. apply sum_list_with_app. Qed.

Lemma weight_free t : Forall (λ e, f e = 0%nat) t → weight f t = 0%nat.
Proof. induction 1 as [|e t He _ IH]; [done|]. unfold weight in *. simpl. lia. Qed.

Lemma costs_free {A} (m : M C A) (S : A → Prop) : free m S → costs f 0 m.
Proof.
  intros Hm w. destruct (Hm w) as [(evs & Ht & Hf) _].
  exists evs. split; [done|]. by rewrite weight_free.
Qed.

Lemma costs_weaken {A} (m : M C A) n n' :
  costs f n m → (n ≤ n')%nat → costs f n' m.
Proof. intros Hm Hn w. destruct (Hm w) as (evs & ? & ?). exists evs. split; [done | lia]. Qed.

Lemma costs_bind {A B} (m : M C A) (k : A → M C B) n1 n2 :
  costs f n1 m → (∀ x, costs f n2 (k x)) → costs f (n1 + n2) (bind m k).
Proof.
  intros Hm Hk w. unfold bind. destruct (Hm w) as (e1 & H1 & W1).
  destruct (m w) as [[x|e] w1]; simpl in *.
  - destruct (Hk x w1) as (e2 & H2 & W2). exists (e1 ++ e2).
    split; [by rewrite H2, H1, app_assoc | rewrite weight_app; lia].
  - exists e1. split; [done | lia].
Qed.

Lemma costs_try_except {A B} (m : M C A) (k : A → M C B) (h : exn → M C B) n1 n2 :
  costs f n1 m → (∀ x, costs f n2 (k x)) → (∀ e, costs f n2 (h e)) →
  costs f (n1 + n2) (try_except m k h).
Proof.
  intros Hm Hk Hh w. unfold try_except. destruct (Hm w) as (e1 & H1 & W1).
  destruct (m w) as [[x|e] w1]; simpl in *.
  - destruct (Hk x w1) as (e2 & H2 & W2). exists (e1 ++ e2).
    split; [by rewrite H2, H1, app_assoc | rewrite weight_app; lia].
  - destruct (Hh e w1) as (e2 & H2 & W2). exists (e1 ++ e2).
    split; [by rewrite H2, H1, app_assoc | rewrite weight_app; lia].
Qed.

Lemma costs_emit e n : (f e ≤ n)%nat → costs (C:=C) f n (emit e).
Proof.
  intros H w. exists [e]. split; [done|]. unfold weight. simpl. lia.
Qed.

Lemma free_log l : free (log l) (λ _, True).
Proof. apply extends_emit. apply weigh_log. Qed.

Lemma free_get_media_meta media k chat i :
  free (_get_media_meta X media k chat i) (λ _, True).
Proof. unfold _get_media_meta, _create_directories. step_structure. Qed.

Lemma free_is_exist path : free (_is_exist path) (λ _, True).
Proof. unfold _is_exist. step_structure. Qed.

Lemma free_is_valid_file path min_size :
  free (_is_valid_file X path min_size) (λ _, True).
Proof. pose proof free_log. unfold _is_valid_file. step_structure. Qed.

Lemma free_check_download path chat i : free (check_download X path chat i) (λ _, True).
Proof.
  pose proof free_log. pose proof free_is_valid_file.
  unfold check_download. step_structure.
Qed.

Lemma costs_download_media_call message path :
  costs f a (download_media_call X message path).
Proof.
  unfold download_media_call.
  eapply costs_weaken; [apply (costs_bind _ _ a 0)|lia].
  - by apply costs_emit.
  - intros _. eapply costs_free. apply quiet_extends. eauto with quiet.
Qed.

(** One kind costs one transfer at most. *)
Lemma costs_download_type message chat i file_formats k :
  costs f a (download_type X message chat i file_formats k).
Proof.
  unfold download_type. destruct (m_attrs message !! k) as [media|].
  - eapply costs_weaken; [apply (costs_bind _ _ 0 a)|lia].
    { eapply costs_free, free_get_media_meta. }
    intros meta. eapply costs_weaken; [apply (costs_bind _ _ 0 a)|lia].
    { eapply (costs_free _ (λ _, True)). step_structure. }
    intros [].
    + eapply costs_weaken; [apply (costs_bind _ _ 0 a)|lia].
      { eapply costs_free, free_is_exist. }
      intros taken. eapply costs_weaken; [apply (costs_bind _ _ 0 a)|lia].
      { eapply (costs_free _ (λ _, True)). step_structure. }
      intros name. eapply costs_weaken; [apply (costs_bind _ _ a 0)|lia].
      { apply costs_download_media_call. }
      intros path. eapply costs_free, free_check_download.
    + eapply costs_weaken; [eapply (costs_free _ (λ _, True)); step_structure | lia].
  - eapply costs_weaken; [eapply (costs_free _ (λ _, True)); step_structure | lia].
Qed.

Lemma costs_for_types message chat i file_formats kinds :
  costs f (List.length kinds * a) (for_types X message chat i file_formats kinds).
Proof.
  induction kinds as [|k kinds IH]; simpl.
  - eapply (costs_free _ (λ _, True)). step_structure.
  - apply costs_bind; [apply costs_download_type | intros _; apply IH].
Qed.

Lemma costs_try_block message chat i kinds file_formats :
  costs f (List.length kinds * a) (try_block X message chat i kinds file_formats).
Proof.
  unfold try_block. destruct (m_media message).
  - eapply costs_weaken; [apply (costs_bind _ _ (List.length kinds * a) 0)|lia].
    + apply costs_for_types.
    + intros _. eapply (costs_free _ (λ _, True)). step_structure.
  - eapply costs_weaken; [eapply (costs_free _ (λ _, True)); step_structure | lia].
Qed.

(** Every value of [retry] costs one pass over the kinds and one handler. *)
Lemma costs_attempts retries message chat i kinds file_formats :
  costs f (List.length retries * (List.length kinds * a + (s + r)))
    (attempts X retries message chat i kinds file_formats).
Proof.
  pose proof free_log as Hlog.
  revert message. induction retries as [|retry retries IH]; intros message.
  - eapply (costs_free _ (λ _, True)). simpl. step_structure.
  - cbn [attempts List.length].
    set (rest := (List.length retries * (List.length kinds * a + (s + r)))%nat) in *.
    eapply costs_weaken;
      [apply (costs_try_except _ _ _ (List.length kinds * a) ((s + r) + rest))|lia].
    + apply costs_try_block.
    + intros []; eapply costs_weaken;
        try (eapply (costs_free _ (λ _, True)); step_structure); lia.
    + assert (∀ l message',
                costs f rest
                  ((if retry =? 2 then log l ;; append_failed i else ret tt) ;;
                   attempts X retries message' chat i kinds file_formats)) as Hrest.
      { intros l message'. eapply costs_weaken; [apply (costs_bind _ _ 0 rest)|lia].
        - eapply (costs_free _ (λ _, True)). step_structure.
        - intros _. apply IH. }
      intros e. destruct e;
        try solve [eapply costs_weaken;
                     [eapply (costs_free _ (λ _, True)); step_structure | lia]].
      * eapply costs_weaken; [apply (costs_bind _ _ r rest)|lia]; [|intros; apply Hrest].
        unfold get_message_call.
        eapply costs_weaken; [apply (costs_bind _ _ r 0)|lia].
        -- by apply costs_emit.
        -- intros _. eapply costs_free. apply quiet_extends. eauto with quiet.
      * eapply costs_weaken; [apply (costs_bind _ _ s rest)|lia]; [|intros; apply Hrest].
        by apply costs_emit.
Qed.

Lemma costs_download_media message kinds file_formats :
  costs f (3 * (List.length kinds * a + (s + r)))
    (download_media X message kinds file_formats).
Proof. apply (costs_attempts [0; 1; 2]). Qed.
End Effort.

(** X13: the effort on one message is bounded, whatever the client does:
    a call of [download_media] makes at most three transfers per
    configured kind, sleeps at most three times and fetches the message
    again at most three times. *)
Theorem download_media_effort {C} (X : Externals C) message kinds file_formats
    (w : World C) :
  ∃ evs,
    trace (download_media X message kinds file_formats w).2 = trace w ++ evs
    ∧ (weight is_transfer evs ≤ 3 * List.length kinds)%nat
    ∧ (weight is_sleep evs ≤ 3)%nat
    ∧ (weight is_refetch evs ≤ 3)%nat.
Proof.
  destruct (costs_download_media X is_transfer 1 0 0) with (message := message)
    (kinds := kinds) (file_formats := file_formats) (w := w) as (e1 & H1 & W1);
    try done; try (intros; simpl; lia).
  destruct (costs_download_media X is_sleep 0 1 0) with (message := message)
    (kinds := kinds) (file_formats := file_formats) (w := w) as (e2 & H2 & W2);
    try done; try (intros; simpl; lia).
  destruct (costs_download_media X is_refetch 0 0 1) with (message := message)
    (kinds := kinds) (file_formats := file_formats) (w := w) as (e3 & H3 & W3);
    try done; try (intros; simpl; lia).
  rewrite H1 in H2, H3. apply app_inv_head in H2, H3. subst e2 e3.
  exists e1. split; [done|]. repeat split; lia.
Qed.

(* ===================================================================== *)
(** * More on the checkpoint *)
(* ===================================================================== *)

Section Saving.
Context {C : Type} (X : Externals C).

(** A regular file at the path itself stands in the way of [makedirs]. *)
Lemma makedirs_leaf_file dir f n :
  f !! dir = Some (File n) → forallb (λ q, negb (is_file f q)) (lineage dir) = false.
Proof.
  intros H. unfold lineage. rewrite forallb_app. simpl. unfold is_file at 2.
  rewrite H. simpl. apply andb_false_r.
Qed.

(** The whole effect of [update_config], by whether the per-chat
    directory can be made. *)
Lemma update_config_run config chat (w : World C) :
  let config' :=
    set_ids_to_retry config
      (elements ((list_to_set (ids_to_retry config) : gset Z)
                   ∖ list_to_set (DOWNLOADED_IDS w)) ++ FAILED_IDS w) in
  let config_path := path_join (THIS_DIR X) "config.yaml" in
  let chat_dir := path_join (DOWNLOADS_DIR X) chat in
  let chat_path := path_join chat_dir "config.yaml" in
  update_config X config chat w
  = if forallb (λ q, negb (is_file (fs w) q)) (lineage chat_dir)
    then
      (Ok config',
       mkWorld (FAILED_IDS w) (DOWNLOADED_IDS w) (TOTAL_FILES w)
         (ensure_dir chat_dir (fs w))
         (<[chat_path := config']> (<[config_path := config']> (yaml w))) (client w)
         (trace w ++ [EvYamlDump config_path config'; EvCopy config_path chat_path]))
    else
      (Raise OSError,
       mkWorld (FAILED_IDS w) (DOWNLOADED_IDS w) (TOTAL_FILES w) (fs w)
         (<[config_path := config']> (yaml w)) (client w)
         (trace w ++ [EvYamlDump config_path config'])).
Proof.
  intros config' config_path chat_dir chat_path. unfold update_config.
  cbv beta delta [bind get_world set_yaml emit ret makedirs set_fs] iota. simpl.
  fold chat_dir.
  destruct (forallb _ (lineage chat_dir)); simpl; [|done].
  by rewrite <- app_assoc.
Qed.

(** X14: when [update_config] returns, the global file and the per-chat
    file hold the same document, which is the configuration handed back;
    it differs from the one passed in by the retry list only, and the id
    lists are left alone. *)
Theorem update_config_copies config chat (w : World C) c :
  (update_config X config chat w).1 = Ok c →
  yaml (update_config X config chat w).2 !! path_join (THIS_DIR X) "config.yaml" = Some c
  ∧ yaml (update_config X config chat w).2
      !! path_join (path_join (DOWNLOADS_DIR X) chat) "config.yaml" = Some c
  ∧ c = set_ids_to_retry config (ids_to_retry c)
  ∧ FAILED_IDS (update_config X config chat w).2 = FAILED_IDS w
  ∧ DOWNLOADED_IDS (update_config X config chat w).2 = DOWNLOADED_IDS w.
Proof.
  rewrite update_config_run. cbv zeta.
  destruct (forallb _ (lineage (path_join (DOWNLOADS_DIR X) chat))); simpl; [|done];
    intros [= <-];
    (split; [|split; [apply lookup_insert_eq | done]]);
    (destruct (decide (path_join (path_join (DOWNLOADS_DIR X) chat) "config.yaml"
                       = path_join (THIS_DIR X) "config.yaml")) as [-> | Hne];
     [by rewrite lookup_insert_eq | by rewrite lookup_insert_ne, lookup_insert_eq]).
Qed.

(** X15: the save is not atomic.  When a regular file sits where the
    per-chat directory should be, [update_config] raises [OSError] after
    the global file has been rewritten: the per-chat copy keeps its old
    content. *)
Theorem update_config_torn config chat n (w : World C) :
  let config_path := path_join (THIS_DIR X) "config.yaml" in
  let chat_path := path_join (path_join (DOWNLOADS_DIR X) chat) "config.yaml" in
  fs w !! path_join (DOWNLOADS_DIR X) chat = Some (File n) →
  chat_path ≠ config_path →
  (update_config X config chat w).1 = Raise OSError
  ∧ (∃ c, yaml (update_config X config chat w).2 !! config_path = Some c
          ∧ list_to_set (ids_to_retry c)
            =@{gset Z} (list_to_set (ids_to_retry config)
                          ∖ list_to_set (DOWNLOADED_IDS w))
                       ∪ list_to_set (FAILED_IDS w))
  ∧ yaml (update_config X config chat w).2 !! chat_path = yaml w !! chat_path.
Proof.
  intros config_path chat_path Hf Hne. rewrite update_config_run. cbv zeta.
  rewrite (makedirs_leaf_file _ _ _ Hf). simpl. split; [done|]. split.
  - eexists. split; [apply lookup_insert_eq|]. simpl.
    by rewrite list_to_set_app_L, list_to_set_elements_L.
  - by rewrite lookup_insert_ne.
Qed.

(** X16: saving again, with no download or failure in between, writes the
    same retry set: the set is a fixed point of the save. *)
Theorem update_config_again config chat chat' (w : World C) c1 c2 :
  let w1 := (update_config X config chat w).2 in
  yaml w1 !! path_join (THIS_DIR X) "config.yaml" = Some c1 →
  yaml (update_config X c1 chat' w1).2 !! path_join (THIS_DIR X) "config.yaml" = Some c2 →
  list_to_set (ids_to_retry c2) =@{gset Z} list_to_set (ids_to_retry c1).
Proof.
  intros w1 H1 H2.
  destruct (update_config_written X config chat w) as [Hw1 _].
  destruct (update_config_written X c1 chat' w1) as [Hw2 _].
  cbv zeta in *. fold w1 in Hw1. rewrite H1 in Hw1. rewrite H2 in Hw2.
  injection Hw2 as Hc2. injection Hw1 as Hc1. subst c2 c1.
  assert (FAILED_IDS w1 = FAILED_IDS w ∧ DOWNLOADED_IDS w1 = DOWNLOADED_IDS w)
    as [HF HD].
  { unfold w1. rewrite update_config_run. cbv zeta.
    by destruct (forallb _ (lineage (path_join (DOWNLOADS_DIR X) chat))). }
  simpl. rewrite HF, HD, !list_to_set_app_L, !list_to_set_elements_L.
  apply set_eq. intros x. rewrite !elem_of_union, !elem_of_difference, elem_of_union,
    elem_of_difference. tauto.
Qed.

(** X17: the retry list is not deduplicated: an id that was queued for
    retry and failed again (and was not downloaded) is written twice. *)
Theorem update_config_repeats config chat (w : World C) i :
  i ∈ ids_to_retry config → i ∈ FAILED_IDS w → i ∉ DOWNLOADED_IDS w →
  ∃ c, yaml (update_config X config chat w).2 !! path_join (THIS_DIR X) "config.yaml"
       = Some c
       ∧ ¬ NoDup (ids_to_retry c).
Proof.
  intros HR HF HD. destruct (update_config_written X config chat w) as [Hw _].
  cbv zeta in Hw. eexists. split; [exact Hw|]. simpl.
  intros Hnd. apply NoDup_app in Hnd as (_ & Hdisj & _).
  apply (Hdisj i); [|done].
  apply elem_of_elements, elem_of_difference.
  split; by rewrite elem_of_list_to_set.
Qed.
End Saving.

Lemma update_config_copies_witness :
  yaml (update_config (Fixture.client_of Fixture.plain 0 (λ _, 600))
          (Fixture.config0 0 [5; 7]) "7" (mkWorld [9] [5] 0 ∅ ∅ 0%nat [])).2
    !! "/app/downloads/7/config.yaml"
  = Some (mkConfig 7 0 [7; 9] ["photo"; "video"] {[ "video" := ["all"] ]}).
Proof.
  destruct (update_config_copies (Fixture.client_of Fixture.plain 0 (λ _, 600))
              (Fixture.config0 0 [5; 7]) "7" (mkWorld [9] [5] 0 ∅ ∅ 0%nat [])
              (mkConfig 7 0 [7; 9] ["photo"; "video"] {[ "video" := ["all"] ]}))
    as (_ & H & _); [vm_compute; reflexivity | exact H].
Defined.

Lemma update_config_torn_witness :
  (update_config (Fixture.client_of Fixture.plain 0 (λ _, 600))
     (Fixture.config0 0 [5; 7]) "7"
     (mkWorld [9] [5] 0 {[ "/app/downloads/7" := File 12 ]} ∅ 0%nat [])).1
  = Raise OSError.
Proof.
  destruct (update_config_torn (Fixture.client_of Fixture.plain 0 (λ _, 600))
              (Fixture.config0 0 [5; 7]) "7" 12
              (mkWorld [9] [5] 0 {[ "/app/downloads/7" := File 12 ]} ∅ 0%nat []))
    as (H & _); [reflexivity | discriminate | exact H].
Defined.

Lemma update_config_again_witness :
  list_to_set [7; 9; 9] =@{gset Z} list_to_set [7; 9].
Proof.
  exact (update_config_again (Fixture.client_of Fixture.plain 0 (λ _, 600))
           (Fixture.config0 0 [5; 7]) "7" "7" (mkWorld [9] [5] 0 ∅ ∅ 0%nat [])
           (mkConfig 7 0 [7; 9] ["photo"; "video"] {[ "video" := ["all"] ]})
           (mkConfig 7 0 [7; 9; 9] ["photo"; "video"] {[ "video" := ["all"] ]})
           eq_refl eq_refl).
Defined.

Lemma update_config_repeats_witness :
  ∃ c, yaml (update_config (Fixture.client_of Fixture.plain 0 (λ _, 600))
               (Fixture.config0 0 [9]) "7" (mkWorld [9] [] 0 ∅ ∅ 0%nat [])).2
         !! "/app/config.yaml" = Some c
       ∧ ¬ NoDup (ids_to_retry c).
Proof.
  apply (update_config_repeats (Fixture.client_of Fixture.plain 0 (λ _, 600))
           (Fixture.config0 0 [9]) "7" (mkWorld [9] [] 0 ∅ ∅ 0%nat []) 9);
    compute_done.
Defined.

(* ===================================================================== *)
(** * Transfers that return *)
(* ===================================================================== *)

Section Transferred.
Context {C : Type} (X : Externals C).

(** A message with one configured kind present, whose pass over that kind
    ends normally, is done after one attempt. *)
Lemma download_media_single message media_types file_formats pre k post kind media
    fmt name (w w' : World C) :
  let i := m_id message in
  let dir := path_join (path_join (DOWNLOADS_DIR X) (str (m_chat_id message))) k in
  let f1 := ensure_dir dir (fs w) in
  let p := target_path X f1 (path_join dir (str i +:+ "_" +:+ name)) in
  m_media message = Some kind →
  media_types = pre ++ k :: post →
  (∀ k', k' ∈ pre ++ post → m_attrs message !! k' = None) →
  m_attrs message !! k = Some media →
  media_file_name media k = Ok (fmt, name) →
  _can_download k file_formats fmt = Ok true →
  creatable dir (fs w) →
  (download_path <- download_media_call X message p ;;
   check_download X download_path (str (m_chat_id message)) i)
    (mkWorld (FAILED_IDS w) (DOWNLOADED_IDS w) (TOTAL_FILES w) f1 (yaml w)
       (client w) (trace w)) = (Ok tt, w') →
  download_media X message media_types file_formats w = (Ok i, w').
Proof.
  intros i dir f1 p Hm -> Habs Hk Hname Hcan Hdir Hrun.
  unfold download_media. cbn [attempts]. unfold try_except, try_block. rewrite Hm.
  unfold bind at 1.
  rewrite for_types_first by (intros; apply Habs, elem_of_app; by left).
  unfold bind at 1.
  rewrite (download_type_reach X message _ file_formats k media fmt name w Hk Hname
             Hcan Hdir).
  fold i dir f1 p. rewrite Hrun.
  rewrite for_types_skip by (intros; apply Habs, elem_of_app; by right). done.
Qed.

Lemma download_media_call_run message path r c' f' (w : World C) :
  client_download_media X (client w) (fs w) message path = (r, c', f') →
  download_media_call X message path w
  = (r, mkWorld (FAILED_IDS w) (DOWNLOADED_IDS w) (TOTAL_FILES w) f' (yaml w) c'
          (trace w ++ [EvTransfer (m_id message) path])).
Proof. intros H. unfold download_media_call, bind, emit. simpl. by rewrite H. Qed.

(** X18: the success path.  The directory of the kind can be made, the
    transfer writes a non-empty file and the duplicate check returns: one
    transfer, the id appended to the downloaded ids once and not to the
    failed ids, one log line for the download (after a note when the file
    is below 512 bytes). *)
Theorem download_media_success message media_types file_formats pre k post kind media
    fmt name path n kept c' f' f'' (w : World C) :
  let i := m_id message in
  let dir := path_join (path_join (DOWNLOADS_DIR X) (str (m_chat_id message))) k in
  let f1 := ensure_dir dir (fs w) in
  let p := target_path X f1 (path_join dir (str i +:+ "_" +:+ name)) in
  m_media message = Some kind →
  media_types = pre ++ k :: post →
  (∀ k', k' ∈ pre ++ post → m_attrs message !! k' = None) →
  m_attrs message !! k = Some media →
  media_file_name media k = Ok (fmt, name) →
  _can_download k file_formats fmt = Ok true →
  creatable dir (fs w) →
  client_download_media X (client w) f1 message p = (Ok (Some path), c', f') →
  path ≠ "" → f' !! path = Some (File n) → n ≠ 0 →
  manage_duplicate_file X f' path = (Ok kept, f'') →
  download_media X message media_types file_formats w
  = (Ok i,
     mkWorld (FAILED_IDS w) (DOWNLOADED_IDS w ++ [i]) (TOTAL_FILES w) f'' (yaml w) c'
       (trace w ++ EvTransfer i p
          :: (if n <? 512 then [EvLog (LogFileSmall path n)] else [])
          ++ [EvLog (LogDownloaded kept i (TOTAL_FILES w))])).
Proof.
  intros i dir f1 p Hm Hmt Habs Hk Hname Hcan Hdir Hcall Hp Hf Hn Hdup.
  eapply download_media_single; try done.
  fold dir f1 p. unfold bind at 1.
  erewrite download_media_call_run by exact Hcall.
  unfold check_download. apply String.eqb_neq in Hp. rewrite Hp.
  unfold _is_valid_file, bind, getsize, manage_duplicate_file_call.
  cbn [fs client trace FAILED_IDS DOWNLOADED_IDS TOTAL_FILES yaml]. rewrite Hf.
  apply Z.eqb_neq in Hn. rewrite Hn.
  destruct (n <? 512); cbn; rewrite Hdup; cbn; by rewrite <- !app_assoc.
Qed.

(** X19: the directory of the kind can be made and the transfer writes an
    empty file: the file is removed, the id is appended to the failed ids
    once, and the message is not tried again in this run (one transfer,
    no sleep). *)
Theorem download_media_empty message media_types file_formats pre k post kind media
    fmt name path c' f' (w : World C) :
  let i := m_id message in
  let chat := str (m_chat_id message) in
  let dir := path_join (path_join (DOWNLOADS_DIR X) chat) k in
  let f1 := ensure_dir dir (fs w) in
  let p := target_path X f1 (path_join dir (str i +:+ "_" +:+ name)) in
  m_media message = Some kind →
  media_types = pre ++ k :: post →
  (∀ k', k' ∈ pre ++ post → m_attrs message !! k' = None) →
  m_attrs message !! k = Some media →
  media_file_name media k = Ok (fmt, name) →
  _can_download k file_formats fmt = Ok true →
  creatable dir (fs w) →
  client_download_media X (client w) f1 message p = (Ok (Some path), c', f') →
  path ≠ "" → f' !! path = Some (File 0) →
  download_media X message media_types file_formats w
  = (Ok i,
     mkWorld (FAILED_IDS w ++ [i]) (DOWNLOADED_IDS w) (TOTAL_FILES w) (delete path f')
       (yaml w) c'
       (trace w ++ [EvTransfer i p; EvLog (LogFileEmpty path);
                    EvLog (LogInvalidFile path i chat)])).
Proof.
  intros i chat dir f1 p Hm Hmt Habs Hk Hname Hcan Hdir Hcall Hp Hf.
  eapply download_media_single; try done.
  fold chat dir f1 p. unfold bind at 1.
  erewrite download_media_call_run by exact Hcall.
  unfold check_download. apply String.eqb_neq in Hp. rewrite Hp.
  unfold _is_valid_file, bind, getsize, remove.
  cbn [fs client trace FAILED_IDS DOWNLOADED_IDS TOTAL_FILES yaml]. rewrite Hf.
  cbn. rewrite Hf. cbn. by rewrite <- !app_assoc.
Qed.

(** X20: the directory of the kind can be made and the transfer returns
    without a path ([None] or the empty string): the message leaves no
    record at all, it is neither downloaded nor queued for retry. *)
Theorem download_media_no_path message media_types file_formats pre k post kind media
    fmt name r c' f' (w : World C) :
  let i := m_id message in
  let dir := path_join (path_join (DOWNLOADS_DIR X) (str (m_chat_id message))) k in
  let f1 := ensure_dir dir (fs w) in
  let p := target_path X f1 (path_join dir (str i +:+ "_" +:+ name)) in
  m_media message = Some kind →
  media_types = pre ++ k :: post →
  (∀ k', k' ∈ pre ++ post → m_attrs message !! k' = None) →
  m_attrs message !! k = Some media →
  media_file_name media k = Ok (fmt, name) →
  _can_download k file_formats fmt = Ok true →
  creatable dir (fs w) →
  client_download_media X (client w) f1 message p = (Ok r, c', f') →
  r = None ∨ r = Some "" →
  download_media X message media_types file_formats w
  = (Ok i,
     mkWorld (FAILED_IDS w) (DOWNLOADED_IDS w) (TOTAL_FILES w) f' (yaml w) c'
       (trace w ++ [EvTransfer i p])).
Proof.
  intros i dir f1 p Hm Hmt Habs Hk Hname Hcan Hdir Hcall Hr.
  eapply download_media_single; try done.
  fold dir f1 p. unfold bind at 1.
  erewrite download_media_call_run by exact Hcall.
  by destruct Hr as [-> | ->].
Qed.
End Transferred.

Lemma download_media_success_witness :
  download_media (Fixture.client_of Fixture.video 0 (λ _, 600)) (Fixture.video 7 3)
    ["photo"; "video"] {[ "video" := ["all"] ]} Fixture.world0
  = (Ok 3,
     mkWorld [] [3] 0
       (<[ "/app/downloads/7/video/3_clip.mp4" := File 600 ]> Fixture.videos_of_7)
       ∅ 1%nat
       [EvTransfer 3 "/app/downloads/7/video/3_clip.mp4";
        EvLog (LogDownloaded "/app/downloads/7/video/3_clip.mp4" 3 0)]).
Proof.
  rewrite (download_media_success (Fixture.client_of Fixture.video 0 (λ _, 600))
             (Fixture.video 7 3) ["photo"; "video"] {[ "video" := ["all"] ]}
             ["photo"] "video" [] "video"
             (mkMedia (Some "video/mp4") (Some "clip.mp4") None) (Some "mp4") "clip.mp4"
             "/app/downloads/7/video/3_clip.mp4" 600 "/app/downloads/7/video/3_clip.mp4"
             1%nat
             (<[ "/app/downloads/7/video/3_clip.mp4" := File 600 ]>
                Fixture.videos_of_7)
             (<[ "/app/downloads/7/video/3_clip.mp4" := File 600 ]>
                Fixture.videos_of_7)
             Fixture.world0);
    try reflexivity; try done.
  - intros k' Hk'. apply list_elem_of_singleton in Hk'. by subst k'.
  - apply creatable_forallb. vm_compute. reflexivity.
Defined.

Lemma download_media_empty_witness :
  download_media (Fixture.client_of Fixture.video 0 (λ _, 0)) (Fixture.video 7 3)
    ["photo"; "video"] {[ "video" := ["all"] ]} Fixture.world0
  = (Ok 3,
     mkWorld [3] [] 0 Fixture.videos_of_7 ∅ 1%nat
       [EvTransfer 3 "/app/downloads/7/video/3_clip.mp4";
        EvLog (LogFileEmpty "/app/downloads/7/video/3_clip.mp4");
        EvLog (LogInvalidFile "/app/downloads/7/video/3_clip.mp4" 3 "7")]).
Proof.
  rewrite (download_media_empty (Fixture.client_of Fixture.video 0 (λ _, 0))
             (Fixture.video 7 3) ["photo"; "video"] {[ "video" := ["all"] ]}
             ["photo"] "video" [] "video"
             (mkMedia (Some "video/mp4") (Some "clip.mp4") None) (Some "mp4") "clip.mp4"
             "/app/downloads/7/video/3_clip.mp4" 1%nat
             (<[ "/app/downloads/7/video/3_clip.mp4" := File 0 ]>
                Fixture.videos_of_7)
             Fixture.world0);
    try reflexivity; try done.
  - intros k' Hk'. apply list_elem_of_singleton in Hk'. by subst k'.
  - apply creatable_forallb. vm_compute. reflexivity.
Defined.

Lemma download_media_no_path_witness :
  download_media Fixture.silent (Fixture.video 7 3)
    ["photo"; "video"] {[ "video" := ["all"] ]} Fixture.world0
  = (Ok 3,
     mkWorld [] [] 0 Fixture.videos_of_7 ∅ 1%nat
       [EvTransfer 3 "/app/downloads/7/video/3_clip.mp4"]).
Proof.
  apply (download_media_no_path Fixture.silent
           (Fixture.video 7 3) ["photo"; "video"] {[ "video" := ["all"] ]}
           ["photo"] "video" [] "video"
           (mkMedia (Some "video/mp4") (Some "clip.mp4") None) (Some "mp4") "clip.mp4"
           None 1%nat Fixture.videos_of_7 Fixture.world0);
    try reflexivity; try done; try (by left).
  - intros k' Hk'. apply list_elem_of_singleton in Hk'. by subst k'.
  - apply creatable_forallb. vm_compute. reflexivity.
Defined.

(* ===================================================================== *)
(** * More on pagination *)
(* ===================================================================== *)

(** The batching neither loses nor repeats a message, and keeps the
    order. *)
Lemma loop_batches_concat limit messages_iter batch count :
  List.concat (loop_batches limit messages_iter batch count).1
    ++ (loop_batches limit messages_iter batch count).2
  = batch ++ messages_iter.
Proof.
  revert batch count. induction messages_iter as [|message rest IH];
    intros batch count; simpl; [by rewrite app_nil_r|].
  case_bool_decide.
  - by rewrite IH, <- app_assoc.
  - simpl. by rewrite <- app_assoc, IH.
Qed.

Section Pagination.
Context {C : Type} (X : Externals C).

(** X21: when the pagination loop returns, the batches it dispatched,
    followed by the batch it leaves for the final drain, are exactly the
    retry backlog followed by the stream: every message is in one batch,
    in order. *)
Theorem paginate_partition limit messages_iter st st' (w : World C) :
  (paginate X limit messages_iter st w).1 = Ok st' →
  ∃ evs,
    trace (paginate X limit messages_iter st w).2 = trace w ++ evs
    ∧ List.concat (gathers evs) ++ ids_of (messages_list st')
      = ids_of (messages_list st ++ messages_iter).
Proof.
  intros Hok. destruct (paginate_gathers X limit messages_iter st w)
    as (evs & Ht & _ & Hfull).
  destruct (Hfull st' Hok) as [Hg Hl]. exists evs. split; [done|].
  rewrite Hg, Hl, <- (loop_batches_concat limit messages_iter (messages_list st)
                        (pagination_count st)).
  assert (∀ L, List.concat (ids_of <$> L) = ids_of (List.concat L)) as Hc.
  { induction L as [|b L IH]; [done|].
    rewrite fmap_cons. cbn [List.concat]. rewrite IH. unfold ids_of.
    by rewrite fmap_app. }
  rewrite Hc. unfold ids_of. by rewrite fmap_app.
Qed.

(** X22: a counter that starts beyond the limit (a retry backlog longer
    than the batch size, or a negative batch size) never meets it: the
    loop dispatches nothing and writes no checkpoint, however long the
    stream; everything is left to the final drain as one batch. *)
Theorem paginate_overfull limit messages_iter st (w : World C) :
  limit < pagination_count st →
  paginate X limit messages_iter st w
  = (Ok (mkLoop (messages_list st ++ messages_iter)
           (pagination_count st + Z.of_nat (List.length messages_iter))
           (loop_last_read st) (loop_config st)), w).
Proof.
  revert st. induction messages_iter as [|message rest IH]; intros st Hlt; simpl.
  - destruct st. simpl. by rewrite app_nil_r, Z.add_0_r.
  - unfold bind, paginate_step. rewrite bool_decide_eq_true_2 by lia. cbn [ret].
    rewrite IH by (simpl; lia). simpl. rewrite <- app_assoc. simpl.
    do 3 f_equal. lia.
Qed.

(** [begin_import] without a retry backlog, up to the loop. *)
Lemma begin_import_no_backlog config limit (w : World C) :
  ids_to_retry config = [] →
  begin_import X config limit w
  = (st <- paginate X limit
             (client_get_chat_history X (client w) (chat_id config)
                (last_read_message_id config))
             (mkLoop [] 0 (last_read_message_id config) config) ;;
     last_read_message_id <-
       (match messages_list st with
        | [] => ret (loop_last_read st)
        | _ =>
            process_messages X (messages_list st)
              (media_types (loop_config st)) (file_formats (loop_config st))
        end) ;;
     emit EvClientStop ;;
     ret (set_last_read_message_id (loop_config st) last_read_message_id))
      (mkWorld (FAILED_IDS w) (DOWNLOADED_IDS w)
         (fold_left (λ total_files message,
                       if bool_decide (is_Some (m_media message))
                       then total_files + 1 else total_files)
            (client_get_chat_history X (client w) (chat_id config) 0) 0)
         (fs w) (yaml w) (client w) (trace w ++ [EvClientStart])).
Proof. intros H. unfold begin_import. by rewrite H. Qed.

(** The count of [count_total_files]. *)
Lemma fold_count_media (l : list Message) :
  fold_left (λ total_files message,
               if bool_decide (is_Some (m_media message))
               then total_files + 1 else total_files) l 0
  = Z.of_nat (List.length (filter (λ m, is_Some (m_media m)) l)).
Proof.
  assert (∀ acc,
            fold_left (λ total_files message,
                         if bool_decide (is_Some (m_media message))
                         then total_files + 1 else total_files) l acc
            = acc + Z.of_nat (List.length (filter (λ m, is_Some (m_media m)) l)))
    as H.
  { induction l as [|m l IH]; intros acc; simpl; [lia|].
    rewrite IH, filter_cons. case_bool_decide; case_decide; try done; simpl; lia. }
  by rewrite H.
Qed.

(** [count_total_files] as one step. *)
Lemma count_total_files_run chat (w : World C) :
  count_total_files X chat w
  = (Ok (Z.of_nat (List.length (filter (λ m, is_Some (m_media m))
                                  (client_get_chat_history X (client w) chat 0)))), w).
Proof.
  unfold count_total_files, bind, get_chat_history_call, ret. do 2 f_equal.
  apply fold_count_media.
Qed.

(** X23: nothing to do.  Without retry backlog and without pending
    message, [begin_import] still reads the whole history once, to set
    [TOTAL_FILES], but it dispatches no batch, writes no checkpoint,
    makes no transfer, no fetch by id and no pause, and leaves the files
    and both id lists alone; it hands the configuration back as it was,
    cursor included. *)
Theorem begin_import_idle config limit (w : World C) :
  ids_to_retry config = [] →
  client_get_chat_history X (client w) (chat_id config) (last_read_message_id config)
  = [] →
  let r := begin_import X config limit w in
  r.1 = Ok config
  ∧ TOTAL_FILES r.2
    = Z.of_nat (List.length (filter (λ m, is_Some (m_media m))
                               (client_get_chat_history X (client w) (chat_id config) 0)))
  ∧ (∃ evs, trace r.2 = trace w ++ evs
            ∧ gathers evs = [] ∧ checkpoint_cursors evs = []
            ∧ weight is_transfer evs = 0%nat ∧ weight is_refetch evs = 0%nat
            ∧ weight is_sleep evs = 0%nat)
  ∧ yaml r.2 = yaml w
  ∧ fs r.2 = fs w
  ∧ FAILED_IDS r.2 = FAILED_IDS w
  ∧ DOWNLOADED_IDS r.2 = DOWNLOADED_IDS w.
Proof.
  intros Hr Hh r. unfold r. rewrite begin_import_no_backlog by done. rewrite Hh.
  cbn. split; [by destruct config|]. split; [apply fold_count_media|].
  split; [|done]. exists [EvClientStart; EvClientStop].
  split; [by rewrite <- app_assoc | done].
Qed.

(** X24: the batch size 0 is out of range.  Without a retry backlog, the
    first pending message makes the loop dispatch the empty batch, and
    [begin_import] raises [ValueError] before any download. *)
Theorem begin_import_zero_limit config (w : World C) :
  ids_to_retry config = [] →
  client_get_chat_history X (client w) (chat_id config) (last_read_message_id config)
  ≠ [] →
  (begin_import X config 0 w).1 = Raise ValueError
  ∧ FAILED_IDS (begin_import X config 0 w).2 = FAILED_IDS w
  ∧ DOWNLOADED_IDS (begin_import X config 0 w).2 = DOWNLOADED_IDS w
  ∧ trace (begin_import X config 0 w).2 = trace w ++ [EvClientStart; EvGather []].
Proof.
  intros Hr Hh. rewrite begin_import_no_backlog by done.
  destruct (client_get_chat_history X (client w) (chat_id config)
              (last_read_message_id config)) as [|message rest]; [done|].
  set (w0 := mkWorld _ _ _ _ _ _ _).
  assert (paginate_step X 0 (mkLoop [] 0 (last_read_message_id config) config) message w0
          = (Raise ValueError,
             mkWorld (FAILED_IDS w) (DOWNLOADED_IDS w) (TOTAL_FILES w0) (fs w) (yaml w)
               (client w) (trace w ++ [EvClientStart; EvGather []]))) as Hstep.
  { unfold paginate_step. rewrite bool_decide_eq_false_2 by (simpl; lia).
    unfold bind at 1. rewrite process_messages_run. cbv zeta.
    rewrite gather_nil. cbn. by rewrite <- app_assoc. }
  cbn [paginate]. unfold bind. by rewrite Hstep.
Qed.

(** X25: [count_total_files] counts the messages of the whole history
    that carry media; it changes nothing. *)
Theorem count_total_files_counts chat (w : World C) :
  let history := client_get_chat_history X (client w) chat 0 in
  let n := List.length (filter (λ m, is_Some (m_media m)) history) in
  count_total_files X chat w = (Ok (Z.of_nat n), w)
  ∧ (n ≤ List.length history)%nat.
Proof. intros history n. split; [apply count_total_files_run | apply length_filter]. Qed.
End Pagination.

Lemma paginate_partition_witness :
  ∃ evs,
    trace (paginate (Fixture.client_of Fixture.photo 5 (λ _, 600)) 2
             (Fixture.photo 7 <$> [1; 2; 3; 4; 5])
             (mkLoop [] 0 0 (Fixture.config0 0 [])) Fixture.world0).2
    = trace Fixture.world0 ++ evs
    ∧ List.concat (gathers evs) ++ ids_of (Fixture.photo 7 <$> [3; 4; 5])
      = ids_of ([] ++ (Fixture.photo 7 <$> [1; 2; 3; 4; 5])).
Proof.
  refine (paginate_partition (Fixture.client_of Fixture.photo 5 (λ _, 600)) 2
            (Fixture.photo 7 <$> [1; 2; 3; 4; 5])
            (mkLoop [] 0 0 (Fixture.config0 0 []))
            (mkLoop (Fixture.photo 7 <$> [3; 4; 5]) 2 2 (Fixture.config0 2 []))
            Fixture.world0 _).
  vm_compute. reflexivity.
Defined.

Lemma paginate_overfull_witness :
  paginate (Fixture.client_of Fixture.photo 8 (λ _, 600)) 2
    (Fixture.photo 7 <$> [4; 5; 6; 7; 8])
    (mkLoop (Fixture.photo 7 <$> [1; 2; 3]) 3 0 (Fixture.config0 3 [1; 2; 3]))
    Fixture.world0
  = (Ok (mkLoop (Fixture.photo 7 <$> [1; 2; 3; 4; 5; 6; 7; 8]) 8 0
           (Fixture.config0 3 [1; 2; 3])), Fixture.world0).
Proof.
  refine (paginate_overfull (Fixture.client_of Fixture.photo 8 (λ _, 600)) 2
           (Fixture.photo 7 <$> [4; 5; 6; 7; 8])
           (mkLoop (Fixture.photo 7 <$> [1; 2; 3]) 3 0 (Fixture.config0 3 [1; 2; 3]))
           Fixture.world0 _).
  simpl. lia.
Defined.

Lemma paginate_batch_sizes_witness :
  ∃ evs,
    trace (paginate (Fixture.client_of Fixture.photo 9 (λ _, 600)) 2
             (Fixture.photo 7 <$> [1; 2; 3; 4; 5])
             (mkLoop [Fixture.photo 7 9] 1 0 (Fixture.config0 0 [9])) Fixture.world0).2
    = trace Fixture.world0 ++ evs
    ∧ first_full_then_over 2 [9] (gathers evs).
Proof.
  refine (paginate_batch_sizes (Fixture.client_of Fixture.photo 9 (λ _, 600)) 2
            (Fixture.photo 7 <$> [1; 2; 3; 4; 5]) [Fixture.photo 7 9] 0
            (Fixture.config0 0 [9]) Fixture.world0 _).
  simpl. lia.
Defined.

Lemma begin_import_idle_witness :
  let r := begin_import (Fixture.client_of Fixture.photo 5 (λ _, 600))
             (Fixture.config0 5 []) 100 Fixture.world0 in
  r.1 = Ok (Fixture.config0 5 [])
  ∧ TOTAL_FILES r.2 = 5
  ∧ (∃ evs, trace r.2 = trace Fixture.world0 ++ evs
            ∧ gathers evs = [] ∧ checkpoint_cursors evs = []
            ∧ weight is_transfer evs = 0%nat ∧ weight is_refetch evs = 0%nat
            ∧ weight is_sleep evs = 0%nat)
  ∧ yaml r.2 = yaml Fixture.world0
  ∧ fs r.2 = fs Fixture.world0
  ∧ FAILED_IDS r.2 = FAILED_IDS Fixture.world0
  ∧ DOWNLOADED_IDS r.2 = DOWNLOADED_IDS Fixture.world0.
Proof.
  refine (begin_import_idle (Fixture.client_of Fixture.photo 5 (λ _, 600))
           (Fixture.config0 5 []) 100 Fixture.world0 _ _).
  - reflexivity.
  - vm_compute. reflexivity.
Defined.

Lemma begin_import_zero_limit_witness :
  let r := begin_import (Fixture.client_of Fixture.photo 3 (λ _, 600))
             (Fixture.config0 0 []) 0 Fixture.world0 in
  r.1 = Raise ValueError
  ∧ FAILED_IDS r.2 = FAILED_IDS Fixture.world0
  ∧ DOWNLOADED_IDS r.2 = DOWNLOADED_IDS Fixture.world0
  ∧ trace r.2 = trace Fixture.world0 ++ [EvClientStart; EvGather []].
Proof.
  refine (begin_import_zero_limit (Fixture.client_of Fixture.photo 3 (λ _, 600))
           (Fixture.config0 0 []) Fixture.world0 _ _).
  - reflexivity.
  - vm_compute. discriminate.
Defined.

(* ===================================================================== *)
(** * The fan-out of a run *)
(* ===================================================================== *)

(** Once the batch is at most one ahead of the counter and the counter
    within the limit, no batch of the loop, and not the one that is left,
    holds more than [limit + 1] messages. *)
Lemma loop_batches_bound limit messages_iter batch count :
  Z.of_nat (List.length batch) ≤ count + 1 → 0 ≤ count ≤ limit →
  Forall (λ b, Z.of_nat (List.length b) ≤ limit + 1)
    (loop_batches limit messages_iter batch count).1
  ∧ Z.of_nat (List.length (loop_batches limit messages_iter batch count).2) ≤ limit + 1.
Proof.
  revert batch count. induction messages_iter as [|message rest IH];
    intros batch count Hlen Hc; simpl.
  - split; [done | lia].
  - case_bool_decide as Hne.
    + apply IH; [rewrite length_app; simpl; lia | lia].
    + simpl. destruct (IH [message] 0) as [H1 H2]; [simpl; lia | lia |].
      split; [constructor; [lia | done] | done].
Qed.

Section FanOut.
Context {C : Type} (X : Externals C).

(** [begin_import] up to the loop: the client is started, the files are
    counted, the retry backlog is fetched and seeds the first batch. *)
Lemma begin_import_run config limit (w : World C) :
  ∃ w0,
    trace w0 = trace w ++ [EvClientStart] ∧ client w0 = client w
    ∧ begin_import X config limit w
      = match (match ids_to_retry config with
               | [] => ret []
               | ids => get_messages_call X (chat_id config) ids
               end) w0 with
        | (Raise e, w1) => (Raise e, w1)
        | (Ok skipped, w1) =>
            (st <- paginate X limit
                     (client_get_chat_history X (client w) (chat_id config)
                        (last_read_message_id config))
                     (mkLoop skipped (Z.of_nat (List.length skipped))
                        (last_read_message_id config) config) ;;
             last_read_message_id <-
               (match messages_list st with
                | [] => ret (loop_last_read st)
                | _ =>
                    process_messages X (messages_list st)
                      (media_types (loop_config st)) (file_formats (loop_config st))
                end) ;;
             emit EvClientStop ;;
             ret (set_last_read_message_id (loop_config st) last_read_message_id)) w1
        end.
Proof.
  exists (mkWorld (FAILED_IDS w) (DOWNLOADED_IDS w)
            (Z.of_nat (List.length
                         (filter (λ m, is_Some (m_media m))
                            (client_get_chat_history X (client w) (chat_id config) 0))))
            (fs w) (yaml w) (client w) (trace w ++ [EvClientStart])).
  split; [done|]. split; [done|].
  unfold begin_import.
  unfold bind at 1. cbn [emit].
  unfold bind at 1. rewrite count_total_files_run.
  unfold bind at 1. cbn [set_total_files].
  unfold bind at 1. cbn [get_chat_history_call client].
  unfold bind at 1. cbn [FAILED_IDS DOWNLOADED_IDS fs yaml client trace snd fst].
  destruct (ids_to_retry config) as [|i l]; [reflexivity|].
  destruct (get_messages_call X (chat_id config) (i :: l) _) as [[skipped|e] w1];
    [|reflexivity].
  by rewrite primed_state_eq.
Qed.

(** X28: the fan-out of a run is bounded, but by one more than the batch
    size.  With a batch size that is not negative and a retry backlog of
    at most that many messages, no batch that [begin_import] dispatches
    (during pagination or in the final drain, and also when a call
    raises on the way) holds more than [limit + 1] messages. *)
Theorem begin_import_fan_out config limit (w : World C) :
  0 ≤ limit →
  (∀ skipped c',
     client_get_messages X (client w) (chat_id config) (ids_to_retry config)
     = (Ok skipped, c') →
     Z.of_nat (List.length skipped) ≤ limit) →
  ∃ evs,
    trace (begin_import X config limit w).2 = trace w ++ evs
    ∧ Forall (λ b, Z.of_nat (List.length b) ≤ limit + 1) (gathers evs).
Proof.
  intros Hl Hs. destruct (begin_import_run config limit w) as (w0 & Ht0 & Hc0 & ->).
  assert (∀ skipped w1,
            (match ids_to_retry config with
             | [] => ret []
             | ids => get_messages_call X (chat_id config) ids
             end) w0 = (Ok skipped, w1) →
            Z.of_nat (List.length skipped) ≤ limit) as Hskip.
  { intros skipped w1. destruct (ids_to_retry config) as [|i l] eqn:E.
    - intros [= <- _]. simpl. lia.
    - unfold get_messages_call. rewrite Hc0.
      destruct (client_get_messages X (client w) (chat_id config) (i :: l))
        as [r c'] eqn:E'.
      intros [= -> _]. by apply (Hs skipped c'). }
  assert (∀ w1 r,
            (match ids_to_retry config with
             | [] => ret []
             | ids => get_messages_call X (chat_id config) ids
             end) w0 = (r, w1) → trace w1 = trace w0) as Htr.
  { intros w1 r. destruct (ids_to_retry config) as [|i l].
    - by intros [= _ <-].
    - unfold get_messages_call.
      destruct (client_get_messages X (client w0) (chat_id config) (i :: l)) as [r' c'].
      by intros [= _ <-]. }
  destruct ((match ids_to_retry config with
             | [] => ret []
             | ids => get_messages_call X (chat_id config) ids
             end) w0) as [[skipped|e] w1] eqn:E.
  2: { exists [EvClientStart]. simpl. by rewrite (Htr _ _ eq_refl). }
  specialize (Hskip _ _ eq_refl). specialize (Htr _ _ eq_refl).
  set (history := client_get_chat_history X (client w) (chat_id config)
                    (last_read_message_id config)).
  set (st := mkLoop skipped _ _ _).
  destruct (paginate_gathers X limit history st w1) as (evs & Ht & Hp & Hok).
  destruct (loop_batches_bound limit history skipped (Z.of_nat (List.length skipped)))
    as [Hb Hrest]; [lia | lia |].
  cbv zeta in Ht, Hp, Hok. unfold bind at 1.
  assert (Forall (λ b : list Z, Z.of_nat (List.length b) ≤ limit + 1) (gathers evs))
    as Hg.
  { destruct Hp as [K HK].
    assert (Forall (λ b : list Z, Z.of_nat (List.length b) ≤ limit + 1)
              (gathers evs ++ K)) as HF.
    { rewrite <- HK. apply Forall_fmap. eapply Forall_impl; [exact Hb|].
      intros b Hlen. simpl. unfold ids_of. by rewrite length_fmap. }
    by apply Forall_app in HF as [? _]. }
  destruct (paginate X limit history st w1) as [[st'|e] w2]; simpl in Ht, Hok.
  2: { exists ([EvClientStart] ++ evs). simpl.
       split; [by rewrite Ht, Htr, Ht0, <- app_assoc | done]. }
  destruct (Hok st' eq_refl) as [_ Hm]. unfold bind at 1.
  destruct (messages_list st') as [|m l] eqn:Em.
  - exists ([EvClientStart] ++ evs ++ [EvClientStop]). cbn.
    split; [by rewrite Ht, Htr, Ht0, <- !app_assoc|].
    change (EvClientStart :: evs ++ [EvClientStop])
      with ([EvClientStart] ++ evs ++ [EvClientStop]).
    rewrite !gathers_app. simpl. by rewrite app_nil_r.
  - destruct (process_messages_gathers X (m :: l) (media_types (loop_config st'))
                (file_formats (loop_config st')) w2) as (evs1 & Ht1 & Hg1).
    assert (Z.of_nat (List.length (m_id <$> m :: l)) ≤ limit + 1) as Hlast
      by (by rewrite length_fmap, Hm).
    assert (Forall (λ b : list Z, Z.of_nat (List.length b) ≤ limit + 1)
              (gathers ([EvClientStart] ++ evs ++ evs1))) as Hall.
    { rewrite !gathers_app, Hg1. simpl. apply Forall_app. split; [done|].
      constructor; [exact Hlast | done]. }
    destruct (process_messages X (m :: l) _ _ w2) as [[last|e] w3]; simpl in Ht1.
    + exists ([EvClientStart] ++ evs ++ evs1 ++ [EvClientStop]). cbn.
      split; [by rewrite Ht1, Ht, Htr, Ht0, <- !app_assoc|].
      change (EvClientStart :: evs ++ evs1 ++ [EvClientStop])
        with ([EvClientStart] ++ evs ++ evs1 ++ [EvClientStop]).
      rewrite !gathers_app in *. simpl in *. by rewrite app_nil_r.
    + exists ([EvClientStart] ++ evs ++ evs1). simpl.
      split; [by rewrite Ht1, Ht, Htr, Ht0, <- !app_assoc | done].
Qed.
End FanOut.

Lemma begin_import_fan_out_witness :
  ∃ evs,
    trace (begin_import (Fixture.client_of Fixture.photo 9 (λ _, 600))
             (Fixture.config0 4 [2; 3]) 2 Fixture.world0).2
    = trace Fixture.world0 ++ evs
    ∧ Forall (λ b, Z.of_nat (List.length b) ≤ 2 + 1) (gathers evs).
Proof.
  refine (begin_import_fan_out (Fixture.client_of Fixture.photo 9 (λ _, 600))
           (Fixture.config0 4 [2; 3]) 2 Fixture.world0 _ _).
  - lia.
  - intros skipped c' [= <- _]. vm_compute. discriminate.
Defined.

(* ===================================================================== *)
(** * The cursor after a run of retries only *)
(* ===================================================================== *)

Section Cursor.
Context {C : Type} (X : Externals C).

(** [E]: what the transfer and the handling of duplicates may raise. *)
Context (E : exn → Prop).
Hypothesis transfer_raises :
  ∀ c f m p e c' f', client_download_media X c f m p = (Raise e, c', f') → E e.
Hypothesis duplicate_raises :
  ∀ f p e f', manage_duplicate_file X f p = (Raise e, f') → E e.
Hypothesis refetch_answers :
  ∀ c ch j, ∃ m c', client_get_message X c ch j = (Ok m, c') ∧ m_id m = j.

End Cursor.


(* ===================================================================== *)
(** * The whole run ([main]) *)
(* ===================================================================== *)

Section Main.
Context {C : Type} (X : Externals C).

(** [main], step by step. *)
Lemma main_steps (w : World C) :
  let w1 := logged (LogScript "Script started.") w in
  main X w
  = match yaml w !! path_join (THIS_DIR X) "config.yaml" with
    | None => (Raise OSError, w1)
    | Some config =>
        match begin_import X config 100 w1 with
        | (Raise e, w2) => (Raise e, w2)
        | (Ok updated_config, w2) =>
            let w3 :=
              match FAILED_IDS w2 with
              | [] => w2
              | _ => logged (LogFailedCount
                               (size (list_to_set (FAILED_IDS w2) : gset Z))) w2
              end in
            match update_config X updated_config (str (chat_id updated_config)) w3 with
            | (Raise e, w4) => (Raise e, w4)
            | (Ok _, w4) => (Ok tt, logged (LogScript "Script ended.") w4)
            end
        end
    end.
Proof.
  intros w1. unfold main, bind. cbn [log_start_end String.eqb Ascii.eqb Bool.eqb].
  change (log (LogScript "Script started.") w) with (Ok tt, w1).
  cbn [get_world]. change (yaml w1) with (yaml w).
  destruct (yaml w !! path_join (THIS_DIR X) "config.yaml") as [config|]; [|done].
  cbn [ret]. destruct (begin_import X config 100 w1) as [[updated|e] w2]; [|done].
  destruct (FAILED_IDS w2) as [|i l] eqn:E; cbn [ret log emit];
    by destruct (update_config X updated _ _) as [[c|e] w4].
Qed.

(** X26: a normal exit flushes the checkpoint, and no failure is lost:
    when [main] returns, the global configuration file holds a retry list
    with every id of the failed ids in it. *)
Theorem main_flushes (w : World C) :
  (main X w).1 = Ok tt →
  ∃ c, yaml (main X w).2 !! path_join (THIS_DIR X) "config.yaml" = Some c
       ∧ ∀ i, i ∈ FAILED_IDS (main X w).2 → i ∈ ids_to_retry c.
Proof.
  rewrite main_steps. cbv zeta.
  destruct (yaml w !! path_join (THIS_DIR X) "config.yaml") as [config|]; [|done].
  destruct (begin_import X config 100 _) as [[updated|e] w2]; [|done].
  set (w3 := match FAILED_IDS w2 with [] => w2 | _ => _ end).
  destruct (update_config_written X updated (str (chat_id updated)) w3) as [Hy _].
  pose proof (update_config_run X updated (str (chat_id updated)) w3) as Hrun.
  cbv zeta in Hy, Hrun.
  destruct (update_config X updated (str (chat_id updated)) w3) as [[c|e] w4] eqn:E;
    [|done].
  intros _. simpl in *. eexists. split; [exact Hy|]. simpl.
  intros i Hi. apply elem_of_app. right.
  assert (FAILED_IDS w4 = FAILED_IDS w3) as HF.
  { destruct (forallb _ (lineage _)); by simplify_eq. }
  by rewrite HF in Hi.
Qed.

(** X27: without a configuration file [main] stops at once with
    [OSError]: nothing is fetched, nothing is written. *)
Theorem main_without_config (w : World C) :
  yaml w !! path_join (THIS_DIR X) "config.yaml" = None →
  main X w = (Raise OSError, logged (LogScript "Script started.") w).
Proof. intros H. rewrite main_steps. cbv zeta. by rewrite H. Qed.
End Main.

Lemma main_flushes_witness :
  let X := Fixture.client_of Fixture.photo 3 (λ k, if decide (k = 1%nat) then 0 else 600) in
  let w := mkWorld [] [] 0 ∅ {[ "/app/config.yaml" := Fixture.config0 0 [] ]} 0%nat [] in
  ∃ c, yaml (main X w).2 !! path_join (THIS_DIR X) "config.yaml" = Some c
       ∧ ∀ i, i ∈ FAILED_IDS (main X w).2 → i ∈ ids_to_retry c.
Proof.
  refine (main_flushes
           (Fixture.client_of Fixture.photo 3 (λ k, if decide (k = 1%nat) then 0 else 600))
           (mkWorld [] [] 0 ∅ {[ "/app/config.yaml" := Fixture.config0 0 [] ]} 0%nat []) _).
  vm_compute. reflexivity.
Defined.

Lemma main_without_config_witness :
  main (Fixture.client_of Fixture.photo 3 (λ _, 600)) Fixture.world0
  = (Raise OSError, logged (LogScript "Script started.") Fixture.world0).
Proof.
  refine (main_without_config (Fixture.client_of Fixture.photo 3 (λ _, 600))
            Fixture.world0 _).
  vm_compute. reflexivity.
Defined.
